(** * Image processing engine: dispatch, SIMD path and metrics

    A shallow embedding of the two front ends of the repository:

    - [Service]: the gRPC service of [cpp/src/image_service.cc]
      ([ImageServiceImpl]), whose [processImageData] works on the raw bytes;
    - [Napi]: the N-API addon of [cpp/src/image_processor.cc]
      ([ImageProcessor]), whose [processImageData] goes through [cv::Mat].

    Bytes are [Byte.byte]; [uint64_t] counters are [Z] with the wrap-around
    written out; [double] arithmetic is a parameter ([DoubleArith]), with
    IEEE 754 binary64 ([Binary64]) as the instance the programs run on;
    [std::map] and [std::unordered_map] are [gmap]s; [std::cout] is a list of
    printed lines returned next to the result; the objects the addon hands
    to JavaScript live in an explicit heap; the OpenCV algorithms are a
    parameter ([CvLibrary]). *)

From Stdlib Require Import ZArith Lia List Strings.String Strings.Byte QArith.
From Stdlib Require Reals Lra Floats Uint63.
From stdpp Require Import base option list strings gmap fin_maps.

Local Open Scope Z_scope.

(** ** Bytes and machine integers *)

(** The value of a [uint8_t]. *)
Definition byte_to_Z (b : byte) : Z := Z.of_N (Byte.to_N b).

(** Conversion of an [int] to [uint8_t]: reduction modulo 256. *)
Definition u8 (z : Z) : byte :=
  match Byte.of_N (Z.to_N (z mod 256)) with
  | Some b => b
  | None => Byte.x00
  end.

(** Arithmetic on [uint64_t] wraps modulo 2^64. *)
Definition wrap64 (z : Z) : Z := z mod 2 ^ 64.

(** ** Loops

    [for (i = i0; cond; i += incr) body], run on a state [St].  The fuel
    bounds the number of iterations; every use below passes a bound that the
    loop cannot reach: [invert_loop_from], [grayscale_loop_from] and
    [avx_loop_from] give the result for that fuel and every larger one.
    Indices are [size_t] values; they stay below the size of a [std::vector]
    plus the increment and cannot wrap, so they are [nat]s. *)
Fixpoint for_loop {St : Type} (fuel : nat) (cond : nat -> St -> bool)
    (incr : nat) (body : nat -> St -> St) (i : nat) (s : St) : St :=
  match fuel with
  | O => s
  | S fuel' =>
      if cond i s then for_loop fuel' cond incr body (i + incr)%nat (body i s)
      else s
  end.

(** ** Floating point

    The running averages are [double]s.  The model is parametric in the
    carrier and in the operations the code uses; [Binary64.arith] below is
    the arithmetic of the programs, [Q_arith] its idealisation. *)
Class DoubleArith (double : Type) := {
  d_zero : double;
  d_add : double -> double -> double;
  d_mul : double -> double -> double;
  d_div : double -> double -> double;
  d_of_uint64 : Z -> double
}.

(** Exact rational arithmetic: the idealisation of [double] without rounding. *)
#[export] Instance Q_arith : DoubleArith Q := {
  d_zero := 0%Q;
  d_add := Qplus;
  d_mul := Qmult;
  d_div := Qdiv;
  d_of_uint64 := inject_Z
}.

(** * The gRPC service ([image_service.cc]) *)
Module Service.

(** [output[i] = 255 - output[i]].  (The loops only index below
    [output.size()]; the [None] cases here and below are not reached.) *)
Definition invert_body (i : nat) (output : list byte) : list byte :=
  match output !! i with
  | Some x => <[i := u8 (255 - byte_to_Z x)]> output
  | None => output
  end.

(** The body of the grayscale loop:
    [if (i + 2 < output.size()) { gray = (o[i] + o[i+1] + o[i+2]) / 3;
       o[i] = o[i+1] = o[i+2] = gray; }] *)
Definition grayscale_body (i : nat) (output : list byte) : list byte :=
  if (i + 2 <? length output)%nat then
    match output !! i, output !! (i + 1)%nat, output !! (i + 2)%nat with
    | Some r, Some g, Some b =>
        let gray := u8 ((byte_to_Z r + byte_to_Z g + byte_to_Z b) ÷ 3) in
        <[i := gray]> (<[(i + 1)%nat := gray]> (<[(i + 2)%nat := gray]> output))
    | _, _, _ => output
    end
  else output.

(** [i < output.size()] *)
Definition in_bounds (i : nat) (output : list byte) : bool :=
  (i <? length output)%nat.

(** [processImageData]: the transformed bytes and the lines printed. *)
Definition processImageData (input : list byte) (operation : string)
    : list byte * list string :=
  let output := input in
  if String.eqb operation "invert" then
    (for_loop (length output) in_bounds 1 invert_body 0%nat output, [])
  else if String.eqb operation "grayscale" then
    (for_loop (length output) in_bounds 3 grayscale_body 0%nat output, [])
  else if String.eqb operation "noop" then
    (output, [])
  else
    (output, [String.append "Unknown operation: " operation]).

(** *** Requests, responses and the metrics of the service *)

Record ImageRequest := {
  image_data : list byte;
  operation : string
}.

(** [grpc::Status]: the handlers only ever return [Status::OK]. *)
Inductive Status :=
  | OK
  | Failed (code : Z) (message : string).

Section WithDouble.
Context {double : Type} `{DoubleArith double}.

Record ImageResponse := {
  processed_data : list byte;
  status : string;
  processing_time : double
}.

Record ServiceMetrics := {
  total_processed : Z;
  average_processing_time : double;
  active_connections : Z;
  operation_counts : gmap string Z
}.

(** The members' default initialisers. *)
Definition metrics_init : ServiceMetrics :=
  {| total_processed := 0;
     average_processing_time := d_zero;
     active_connections := 0;
     operation_counts := ∅ |}.

(** The block guarded by [metrics_mutex_]: one completion of [operation]
    that took [elapsed] milliseconds.  [operation_counts[operation]++]
    creates the entry at 0 when it is missing. *)
Definition update_metrics (m : ServiceMetrics) (operation : string)
    (elapsed : double) : ServiceMetrics :=
  let total := wrap64 (total_processed m + 1) in
  let average :=
    d_div (d_add (d_mul (average_processing_time m)
                        (d_of_uint64 (wrap64 (total - 1))))
                 elapsed)
          (d_of_uint64 total) in
  {| total_processed := total;
     average_processing_time := average;
     active_connections := active_connections m;
     operation_counts :=
       <[operation := wrap64 (default 0 (operation_counts m !! operation) + 1)]>
         (operation_counts m) |}.

Record Reply (R : Type) := {
  reply_status : Status;
  reply_response : R;
  reply_metrics : ServiceMetrics;
  reply_stdout : list string
}.
Arguments reply_status {R} _.
Arguments reply_response {R} _.
Arguments reply_metrics {R} _.
Arguments reply_stdout {R} _.

(** [ProcessImage].  [elapsed] is the time the two clock readings measure;
    all three fields of the response are written. *)
Definition ProcessImage (m : ServiceMetrics) (request : ImageRequest)
    (elapsed : double) : Reply ImageResponse :=
  let input := image_data request in
  let operation := operation request in
  let '(result, out) := processImageData input operation in
  {| reply_status := OK;
     reply_response :=
       {| processed_data := result; status := "success";
          processing_time := elapsed |};
     reply_metrics := update_metrics m operation elapsed;
     reply_stdout := out |}.

Record BatchResponse := {
  responses : list ImageResponse;
  total_time : double
}.

(** One turn of the loop of [BatchProcess]: a response is appended and the
    metrics are updated once. *)
Definition batch_step (acc : list ImageResponse * ServiceMetrics * list string)
    (item : ImageRequest * double)
    : list ImageResponse * ServiceMetrics * list string :=
  let '(resps, m, out) := acc in
  let '(image_request, elapsed) := item in
  let r := ProcessImage m image_request elapsed in
  (resps ++ [reply_response r], reply_metrics r, out ++ reply_stdout r).

(** [BatchProcess]: every request comes with its measured time, the batch
    with its total. *)
Definition BatchProcess (m : ServiceMetrics)
    (requests : list (ImageRequest * double)) (total : double)
    : Reply BatchResponse :=
  let '(resps, m', out) := foldl batch_step ([], m, []) requests in
  {| reply_status := OK;
     reply_response := {| responses := resps; total_time := total |};
     reply_metrics := m';
     reply_stdout := out |}.

Record MetricsResponse := {
  r_total_processed : Z;
  r_average_processing_time : double;
  r_active_connections : Z;
  r_operation_counts : gmap string Z
}.

(** [GetMetrics] fills the caller's [response]: three scalar fields, and one
    entry of its map per entry of [operation_counts]. *)
Definition GetMetrics (m : ServiceMetrics) (response : MetricsResponse)
    : Reply MetricsResponse :=
  {| reply_status := OK;
     reply_response :=
       {| r_total_processed := total_processed m;
          r_average_processing_time := average_processing_time m;
          r_active_connections := active_connections m;
          r_operation_counts :=
            foldl (fun acc pair => <[pair.1 := pair.2]> acc)
                  (r_operation_counts response)
                  (map_to_list (operation_counts m)) |};
     reply_metrics := m;
     reply_stdout := [] |}.

End WithDouble.

Arguments reply_status {double R} _.
Arguments reply_response {double R} _.
Arguments reply_metrics {double R} _.
Arguments reply_stdout {double R} _.

End Service.

(** * The N-API addon ([image_processor.cc]) *)
Module Napi.

(** ** Matrices

    A [cv::Mat] as far as the addon uses it: geometry, element type and the
    bytes of its (continuous) data block. *)
Inductive Depth := CV_8U | CV_32F.

Definition elemSize1 (d : Depth) : Z :=
  match d with CV_8U => 1 | CV_32F => 4 end.

Record Mat := mkMat {
  rows : Z;
  cols : Z;
  depth : Depth;
  channels : Z;
  data : list byte
}.

(** [mat.total()] *)
Definition total (m : Mat) : Z := rows m * cols m.

(** The result of code that can leave defined behaviour: [memcpy] outside
    the allocation of its source or destination is [Undefined]. *)
Inductive outcome (A : Type) :=
  | Ok (a : A)
  | Undefined.
Arguments Ok {A} a.
Arguments Undefined {A}.

(** What a run writes to [std::cout], and one ghost event, [VectorPath],
    recorded where [vectorizedColorConversion] passes its guard and runs its
    AVX loop. *)
Inductive event :=
  | Print (line : string)
  | VectorPath.

(** ** AVX2 intrinsics on 32-byte vectors *)

(** [_mm256_set_epi8(e31, ..., e0)]: the arguments are given from the
    highest byte down. *)
Definition _mm256_set_epi8 (args : list Z) : list Z := rev args.

(** [_mm256_shuffle_epi8(a, b)]: byte [i] of the result is 0 when bit 7 of
    [b[i]] is set, and otherwise the byte of [a] that the low four bits of
    [b[i]] select within the 128-bit lane of [i]. *)
Definition shuffle_byte (a : list byte) (b : list Z) (i : nat) : byte :=
  let m := nth i b 0 in
  if Z.testbit m 7 then Byte.x00
  else nth ((i / 16) * 16 + Z.to_nat (Z.land m 15))%nat a Byte.x00.

Definition _mm256_shuffle_epi8 (a : list byte) (b : list Z) : list byte :=
  map (shuffle_byte a b) (seq 0 32).

(** [_mm256_loadu_si256((__m256i* )&data[i])] *)
Definition _mm256_loadu_si256 (data : list byte) (i : nat) : list byte :=
  take 32 (drop i data).

(** [_mm256_storeu_si256((__m256i* )&data[i], v)] *)
Definition _mm256_storeu_si256 (data : list byte) (i : nat) (v : list byte)
    : list byte :=
  take i data ++ v ++ drop (i + 32) data.

Definition shuffle_mask : list Z :=
  _mm256_set_epi8
    [15; 12; 13; 14; 11; 8; 9; 10; 7; 4; 5; 6; 3; 0; 1; 2;
     15; 12; 13; 14; 11; 8; 9; 10; 7; 4; 5; 6; 3; 0; 1; 2].

(** The body of the loop of [vectorizedColorConversion]. *)
Definition shuffle_chunk (i : nat) (data : list byte) : list byte :=
  let pixels := _mm256_loadu_si256 data i in
  let shuffled := _mm256_shuffle_epi8 pixels shuffle_mask in
  _mm256_storeu_si256 data i shuffled.

(** [vectorizedColorConversion(data, size)], on the [size] bytes at [data]:
    [for (i = 0; i + 31 < size; i += 32)].  Its one caller passes the number
    of bytes of the block at [data]; each turn needs [i + 31 < size], so
    [size] turns are never reached. *)
Definition vectorizedColorConversion (avx_supported_ : bool)
    (data : list byte) (size : nat) : list byte * list event :=
  if negb avx_supported_ then (data, [])
  else
    (for_loop size (fun i _ => (i + 31 <? size)%nat) 32 shuffle_chunk 0%nat data,
     [VectorPath]).

(** [avxImageProcessing] *)
Definition avxImageProcessing (avx_supported_ : bool) (image : Mat)
    : Mat * list event :=
  if channels image =? 3 then
    let '(d, out) :=
      vectorizedColorConversion avx_supported_ (data image)
        (Z.to_nat (total image * channels image)) in
    (mkMat (rows image) (cols image) (depth image) (channels image) d, out)
  else (image, []).

(** [applySIMDOptimization] *)
Definition applySIMDOptimization (avx_supported_ : bool) (image : Mat)
    : Mat * list event :=
  if negb avx_supported_ then
    (image, [Print "AVX not supported, skipping SIMD optimization"])
  else avxImageProcessing avx_supported_ image.

(** ** Buffers and matrices *)

Section Bridge.

(** The content of freshly allocated, not yet written memory: byte [k] of a
    new [cv::Mat] block holds [fresh k]. *)
Variable fresh : nat -> byte.

(** [bufferToMat]: a matrix of [height] x [width] elements of type [CV_8UC3]
    (when [channels == 3]) or [CV_8UC1] is allocated, then
    [memcpy(mat.data, buffer.data(), buffer.size())] copies the whole buffer
    whatever its size: a shorter buffer leaves the end of the block as it was
    allocated, a longer one writes past the block. *)
Definition bufferToMat (buffer : list byte) (width height channels : Z)
    : outcome Mat :=
  let cn := if channels =? 3 then 3 else 1 in
  let capacity := Z.to_nat (height * width * cn) in
  if (length buffer <=? capacity)%nat then
    Ok (mkMat height width CV_8U cn
          (buffer ++ map fresh (seq (length buffer) (capacity - length buffer))))
  else Undefined.

(** [matToBuffer]: [mat.total() * mat.channels()] bytes are copied from the
    data block (for a floating-point matrix these are not all its bytes). *)
Definition matToBuffer (mat : Mat) : outcome (list byte) :=
  let n := Z.to_nat (total mat * channels mat) in
  if (n <=? length (data mat))%nat then Ok (take n (data mat))
  else Undefined.

End Bridge.

(** [createZeroCopyMat]: a matrix header of [height] x [width] elements of
    type [CV_8UC3] or [CV_8UC1] over the bytes of [data] themselves; nothing
    is allocated and nothing is copied, whatever the size of [data]. *)
Definition createZeroCopyMat (data : list byte) (width height channels : Z)
    : Mat :=
  mkMat height width CV_8U (if channels =? 3 then 3 else 1) data.

(** [extractDataFromMat]: the vector built from the range
    [mat.data, mat.data + mat.total() * mat.channels()); a range that ends
    past the block is read out of bounds. *)
Definition extractDataFromMat (mat : Mat) : outcome (list byte) :=
  let n := Z.to_nat (total mat * channels mat) in
  if (n <=? length (data mat))%nat then Ok (take n (data mat))
  else Undefined.

(** ** The image algorithm library (OpenCV)

    The algorithms are not part of the repository.  Those whose result the
    properties below depend on are written out ([bitwise_not], the shapes of
    [cvtColor]); the others are the fields of [CvLibrary]. *)
Record CvLibrary := {
  KeyPoint : Type;
  (** the gray level [cvtColor] computes for a pixel [(b, g, r)] *)
  gray_level : byte -> byte -> byte -> byte;
  (** [m.convertTo(dst, CV_MAKETYPE(depth, cn), alpha)] *)
  convertTo : Mat -> Depth -> Z -> Q -> Mat;
  (** [cv::pow(m, power, dst)] *)
  pow : Mat -> Q -> Mat;
  (** [cv::normalize(m, dst, alpha, beta, cv::NORM_MINMAX)] *)
  normalize_minmax : Mat -> Q -> Q -> Mat;
  (** [cv::createTonemapReinhard(gamma, intensity, light, color)->process] *)
  TonemapReinhard : Q -> Q -> Q -> Q -> Mat -> Mat;
  (** [cv::createTonemapDrago(gamma, saturation)->process] *)
  TonemapDrago : Q -> Q -> Mat -> Mat;
  (** [cv::createTonemapMantiuk(gamma, scale, saturation)->process] *)
  TonemapMantiuk : Q -> Q -> Q -> Mat -> Mat;
  (** [cv::createMergeMertens()->process] *)
  MergeMertens : list Mat -> Mat;
  (** the matrix expression [m * factor] *)
  scaled : Mat -> Q -> Mat;
  (** [cv::Canny(m, edges, threshold1, threshold2)] *)
  Canny : Mat -> Q -> Q -> Mat;
  (** [feature_detectors_["ORB"]->detectAndCompute(m, noArray(), kp, desc)] *)
  ORB_detectAndCompute : Mat -> list KeyPoint * Mat;
  (** [cv::drawKeypoints(m, keypoints, dst, color)] *)
  drawKeypoints : Mat -> list KeyPoint -> Z * Z * Z -> Mat
}.

(** [cv::bitwise_not]: every bit of every byte is flipped. *)
Definition bitwise_not (m : Mat) : Mat :=
  mkMat (rows m) (cols m) (depth m) (channels m)
        (map (fun x => u8 (Z.lxor (byte_to_Z x) 255)) (data m)).

(** [m.clone()] *)
Definition clone (m : Mat) : Mat :=
  mkMat (rows m) (cols m) (depth m) (channels m) (data m).

Fixpoint bgr2gray_data (level : byte -> byte -> byte -> byte) (d : list byte)
    : list byte :=
  match d with
  | b :: g :: r :: rest => level b g r :: bgr2gray_data level rest
  | _ => []
  end.

Fixpoint gray2bgr_data (d : list byte) : list byte :=
  match d with
  | y :: rest => y :: y :: y :: gray2bgr_data rest
  | [] => []
  end.

Inductive ColorConversionCode := COLOR_BGR2GRAY | COLOR_GRAY2BGR.

(** [cv::cvtColor(src, dst, code)]: [COLOR_BGR2GRAY] yields a one-channel
    matrix of the size and depth of [src], one gray level per pixel;
    [COLOR_GRAY2BGR] yields a three-channel matrix that repeats each gray
    level.  (The sources this program passes are 8-bit with three channels,
    respectively one.) *)
Definition cvtColor (cv : CvLibrary) (src : Mat) (code : ColorConversionCode)
    : Mat :=
  match code with
  | COLOR_BGR2GRAY =>
      mkMat (rows src) (cols src) (depth src) 1
            (bgr2gray_data (gray_level cv) (data src))
  | COLOR_GRAY2BGR =>
      mkMat (rows src) (cols src) (depth src) 3 (gray2bgr_data (data src))
  end.

Section Processing.

Variable fresh : nat -> byte.
Variable cv : CvLibrary.

(** [processHDR] *)
Definition processHDR (input : Mat) : Mat :=
  let hdr := convertTo cv input CV_32F 3 (1 / 255) in
  let hdr := pow cv hdr (8 / 10) in
  normalize_minmax cv hdr 0 1.

(** [applyToneMapping] *)
Definition applyToneMapping (hdrImage : Mat) (algorithm : string) : Mat :=
  if String.eqb algorithm "reinhard" then
    TonemapReinhard cv (15 / 10) 0 0 0 hdrImage
  else if String.eqb algorithm "drago" then
    TonemapDrago cv 1 (7 / 10) hdrImage
  else if String.eqb algorithm "durand" then
    TonemapMantiuk cv (22 / 10) (85 / 100) (12 / 10) hdrImage
  else convertTo cv hdrImage CV_8U 3 255.

(** [applyExposureFusion] *)
Definition applyExposureFusion (images : list Mat) : Mat :=
  MergeMertens cv images.

(** [applyComputerVision] *)
Definition applyComputerVision (input : Mat) (operation : string) : Mat :=
  let result := clone input in
  if String.eqb operation "canny" then
    let gray := cvtColor cv input COLOR_BGR2GRAY in
    let edges := Canny cv gray 50 150 in
    cvtColor cv edges COLOR_GRAY2BGR
  else if String.eqb operation "orb_features" then
    let '(keypoints, descriptors) := ORB_detectAndCompute cv input in
    drawKeypoints cv input keypoints (0, 255, 0)
  else result.

(** The chain of comparisons of [processImageData]: the result matrix and
    what is printed. *)
Definition dispatch (avx_supported_ : bool) (inputMat : Mat)
    (operation : string) : Mat * list event :=
  if String.eqb operation "invert" then
    (bitwise_not inputMat, [])
  else if String.eqb operation "grayscale" then
    (cvtColor cv inputMat COLOR_BGR2GRAY, [])
  else if String.eqb operation "hdr" then
    (processHDR inputMat, [])
  else if String.eqb operation "tone_mapping" then
    let hdrImage := processHDR inputMat in
    (applyToneMapping hdrImage "reinhard", [])
  else if String.eqb operation "exposure_fusion" then
    let exposures :=
      [inputMat; scaled cv inputMat (1 / 2); scaled cv inputMat 2] in
    (applyExposureFusion exposures, [])
  else if String.eqb operation "edge_detection" then
    (applyComputerVision inputMat "canny", [])
  else if String.eqb operation "feature_detection" then
    (applyComputerVision inputMat "orb_features", [])
  else if String.eqb operation "simd_optimize" then
    applySIMDOptimization avx_supported_ (clone inputMat)
  else if String.eqb operation "noop" then
    (inputMat, [])
  else
    (inputMat, [Print (String.append "Unknown operation: " operation)]).

(** [processImageData]: the geometry is fixed, [width = height = 256] and
    [channels = 3]. *)
Definition processImageData (avx_supported_ : bool) (input : list byte)
    (operation : string) : outcome (list byte * list event) :=
  let width := 256 in
  let height := 256 in
  let channels := 3 in
  match bufferToMat fresh input width height channels with
  | Undefined => Undefined
  | Ok inputMat =>
      let '(resultMat, out) := dispatch avx_supported_ inputMat operation in
      match matToBuffer resultMat with
      | Undefined => Undefined
      | Ok buffer => Ok (buffer, out)
      end
  end.

End Processing.

(** ** The JavaScript side

    Values of the caller, and its heap: buffers and objects live in the heap
    and are passed by reference.  A location is an index into the heap, and
    allocation appends. *)
Section Addon.

Context {double : Type} `{DoubleArith double}.

Inductive JsValue :=
  | JsNull
  | JsNumber (d : double)
  | JsBoolean (b : bool)
  | JsString (s : string)
  | JsRef (l : nat).

Inductive JsObject :=
  | JsBuffer (bytes : list byte)
  | JsObj (props : gmap string JsValue).

(** [Napi::Object::New], [Napi::Buffer::Copy]: a new heap cell. *)
Definition js_alloc (h : list JsObject) (o : JsObject) : nat * list JsObject :=
  (length h, h ++ [o]).

(** [object.Set(key, value)] on the object at [l]. *)
Definition js_set (h : list JsObject) (l : nat) (key : string) (v : JsValue)
    : list JsObject :=
  match h !! l with
  | Some (JsObj props) => <[l := JsObj (<[key := v]> props)]> h
  | _ => h
  end.

(** [value.IsBuffer()], with the bytes of the buffer. *)
Definition as_buffer (h : list JsObject) (v : JsValue) : option (list byte) :=
  match v with
  | JsRef l =>
      match h !! l with
      | Some (JsBuffer bytes) => Some bytes
      | _ => None
      end
  | _ => None
  end.

(** ** Metrics and the state of the processor *)
Record Metrics := {
  total_processed : Z;
  average_time : double;
  operation_count : gmap string Z;
  operation_avg_time : gmap string double;
  avx_used : bool;
  memory_allocated : Z
}.

Record ImageProcessor := {
  metrics_ : Metrics;
  initialized_ : bool;
  avx_supported_ : bool
}.

(** The members' default initialisers. *)
Definition metrics_init : Metrics :=
  {| total_processed := 0;
     average_time := d_zero;
     operation_count := ∅;
     operation_avg_time := ∅;
     avx_used := false;
     memory_allocated := 0 |}.

(** [initializeProcessor], from the [ecx] that [__get_cpuid(1, ...)] gives:
    bit 28 is the AVX bit.  (The detectors it creates are the library's, see
    [CvLibrary].) *)
Definition initializeProcessor (ecx : Z) : ImageProcessor * list event :=
  let avx := negb (Z.land ecx (Z.shiftl 1 28) =? 0) in
  ({| metrics_ := metrics_init; initialized_ := true; avx_supported_ := avx |},
   [Print (String.append "C++ ImageProcessor initialized with AVX support: "
                         (if avx then "YES" else "NO"))]).

(** The part of [ProcessImage] under "Update metrics", "Update
    operation-specific metrics" and "Track AVX usage".  [operator[]] of the
    two maps creates a missing entry with value 0. *)
Definition update_metrics (m : Metrics) (avx_supported : bool)
    (operation : string) (processing_time : double) : Metrics :=
  let total := wrap64 (total_processed m + 1) in
  let average :=
    d_div (d_add (d_mul (average_time m) (d_of_uint64 (wrap64 (total - 1))))
                 processing_time)
          (d_of_uint64 total) in
  let counts :=
    <[operation := wrap64 (default 0 (operation_count m !! operation) + 1)]>
      (operation_count m) in
  let op_count := default 0 (counts !! operation) in
  let op_avg_time := default d_zero (operation_avg_time m !! operation) in
  let averages :=
    <[operation :=
        d_div (d_add (d_mul op_avg_time (d_of_uint64 (wrap64 (op_count - 1))))
                     processing_time)
              (d_of_uint64 op_count)]>
      (operation_avg_time m) in
  {| total_processed := total;
     average_time := average;
     operation_count := counts;
     operation_avg_time := averages;
     avx_used :=
       if String.eqb operation "simd_optimize" && avx_supported then true
       else avx_used m;
     memory_allocated := memory_allocated m |}.

(** What a call of a method of the addon leaves behind: the value returned,
    the exception left pending if one was thrown, the processor, the heap,
    and the events of the call (the lines printed and [VectorPath]). *)
Record CallResult := {
  returned : JsValue;
  pending_exception : option string;
  self : ImageProcessor;
  js_heap : list JsObject;
  events : list event
}.

(** [Napi::TypeError::New(env, message).ThrowAsJavaScriptException();
    return env.Null();] *)
Definition throw_TypeError (this : ImageProcessor) (h : list JsObject)
    (message : string) : CallResult :=
  {| returned := JsNull; pending_exception := Some message;
     self := this; js_heap := h; events := [] |}.

Variable fresh : nat -> byte.
Variable cv : CvLibrary.

(** [ProcessImage]; [processing_time] is what the clock measured. *)
Definition ProcessImage (this : ImageProcessor) (h : list JsObject)
    (info : list JsValue) (processing_time : double) : outcome CallResult :=
  if (length info <? 2)%nat then
    Ok (throw_TypeError this h "Wrong number of arguments")
  else
    match info !! 0%nat ≫= as_buffer h with
    | None => Ok (throw_TypeError this h "First argument must be a Buffer")
    | Some input =>
        match info !! 1%nat with
        | Some (JsString operation) =>
            match processImageData fresh cv (avx_supported_ this) input operation with
            | Undefined => Undefined
            | Ok (result, out) =>
                let m := update_metrics (metrics_ this) (avx_supported_ this)
                           operation processing_time in
                let '(l, h') := js_alloc h (JsBuffer result) in
                Ok {| returned := JsRef l;
                      pending_exception := None;
                      self := {| metrics_ := m;
                                 initialized_ := initialized_ this;
                                 avx_supported_ := avx_supported_ this |};
                      js_heap := h';
                      events := out |}
            end
        | _ =>
            Ok (throw_TypeError this h
                  "Second argument must be a string (operation)")
        end
    end.

(** [map[key]] used as a value: a missing entry is created with value 0. *)
Definition index_or_insert (averages : gmap string double) (key : string)
    : double * gmap string double :=
  match averages !! key with
  | Some v => (v, averages)
  | None => (d_zero, <[key := d_zero]> averages)
  end.

(** One turn of the loop of [GetMetrics] over [operation_count], for the
    entry [op]; [operations] is the location of the object being filled. *)
Definition getmetrics_step (operations : nat)
    (acc : list JsObject * gmap string double) (op : string * Z)
    : list JsObject * gmap string double :=
  let '(h, averages) := acc in
  let '(opMetrics, h) := js_alloc h (JsObj ∅) in
  let h := js_set h opMetrics "count" (JsNumber (d_of_uint64 op.2)) in
  let '(avg, averages) := index_or_insert averages op.1 in
  let h := js_set h opMetrics "averageTime" (JsNumber avg) in
  let h := js_set h operations op.1 (JsRef opMetrics) in
  (h, averages).

(** [GetMetrics] *)
Definition GetMetrics (this : ImageProcessor) (h : list JsObject)
    (info : list JsValue) : CallResult :=
  let m := metrics_ this in
  let '(metrics, h) := js_alloc h (JsObj ∅) in
  let h := js_set h metrics "totalProcessed"
             (JsNumber (d_of_uint64 (total_processed m))) in
  let h := js_set h metrics "averageTime" (JsNumber (average_time m)) in
  let h := js_set h metrics "avxSupported" (JsBoolean (avx_supported_ this)) in
  let h := js_set h metrics "avxUsed" (JsBoolean (avx_used m)) in
  let h := js_set h metrics "memoryAllocated"
             (JsNumber (d_of_uint64 (memory_allocated m))) in
  let '(operations, h) := js_alloc h (JsObj ∅) in
  let '(h, averages) :=
    foldl (getmetrics_step operations) (h, operation_avg_time m)
          (map_to_list (operation_count m)) in
  let h := js_set h metrics "operations" (JsRef operations) in
  {| returned := JsRef metrics;
     pending_exception := None;
     self := {| metrics_ :=
                  {| total_processed := total_processed m;
                     average_time := average_time m;
                     operation_count := operation_count m;
                     operation_avg_time := averages;
                     avx_used := avx_used m;
                     memory_allocated := memory_allocated m |};
                initialized_ := initialized_ this;
                avx_supported_ := avx_supported_ this |};
     js_heap := h;
     events := [] |}.

(** ** Sessions

    A caller makes a sequence of calls on one processor; each call starts
    from the processor and the heap the previous one left.  Nothing is said
    of what follows a call whose behaviour is undefined. *)
Inductive call :=
  | CallProcessImage (info : list JsValue) (processing_time : double)
  | CallGetMetrics (info : list JsValue).

Definition do_call (this : ImageProcessor) (h : list JsObject) (c : call)
    : outcome CallResult :=
  match c with
  | CallProcessImage info processing_time =>
      ProcessImage this h info processing_time
  | CallGetMetrics info => Ok (GetMetrics this h info)
  end.

Fixpoint run (this : ImageProcessor) (h : list JsObject) (calls : list call)
    : outcome (ImageProcessor * list JsObject) :=
  match calls with
  | [] => Ok (this, h)
  | c :: calls =>
      match do_call this h c with
      | Undefined => Undefined
      | Ok r => run (self r) (js_heap r) calls
      end
  end.

(** The property [key] of the object a call returned, read in the heap
    [h]. *)
Definition property_in (h : list JsObject) (v : JsValue) (key : string)
    : option JsValue :=
  match v with
  | JsRef l =>
      match h !! l with
      | Some (JsObj props) => props !! key
      | _ => None
      end
  | _ => None
  end.

End Addon.

End Napi.

(** * Reference functions

    What the loops compute, written by recursion on the data; the properties
    state the code of the two front ends against them. *)

(** [255 - x] on a byte. *)
Definition invert_byte (x : byte) : byte := u8 (255 - byte_to_Z x).

(** The floor of the mean of three bytes. *)
Definition mean3 (r g b : byte) : byte :=
  u8 ((byte_to_Z r + byte_to_Z g + byte_to_Z b) / 3).

(** A pixel with its three channels set to their mean. *)
Definition gray_pixel (p : byte * byte * byte) : byte * byte * byte :=
  let m := mean3 p.1.1 p.1.2 p.2 in (m, m, m).

(** The interleaved bytes of a list of three-channel pixels. *)
Definition pixel_bytes (px : list (byte * byte * byte)) : list byte :=
  flat_map (fun p => [p.1.1; p.1.2; p.2]) px.

(** A buffer cut into its complete groups of three bytes and the zero, one
    or two bytes that remain. *)
Fixpoint group3 (b : list byte) : list (byte * byte * byte) * list byte :=
  match b with
  | r :: g :: bl :: rest =>
      let '(px, tail) := group3 rest in ((r, g, bl) :: px, tail)
  | tail => ([], tail)
  end.

(** Bytes 0 and 2 of every group of four exchanged (BGRA to RGBA). *)
Fixpoint swap_red_blue (d : list byte) : list byte :=
  match d with
  | x0 :: x1 :: x2 :: x3 :: rest => x2 :: x1 :: x0 :: x3 :: swap_red_blue rest
  | tail => tail
  end.

(** The complete 32-byte chunks of a buffer, and the remainder after them. *)
Definition chunks32 (data : list byte) : list (list byte) :=
  reshape (replicate (length data / 32) 32%nat) data.

Definition tail32 (data : list byte) : list byte :=
  drop (32 * (length data / 32)) data.

(** ** What the addon relies on from OpenCV

    [shaped m r c d cn]: [m] has [r] rows, [c] columns, depth [d], [cn]
    channels, and a data block of exactly that many bytes. *)
Definition shaped (m : Napi.Mat) (r c : Z) (d : Napi.Depth) (cn : Z) : Prop :=
  Napi.rows m = r /\ Napi.cols m = c /\ Napi.depth m = d /\
  Napi.channels m = cn /\
  length (Napi.data m) = Z.to_nat (r * c * cn * Napi.elemSize1 d).

(** The output types OpenCV documents for the algorithms of [CvLibrary]:
    the size of the source is kept; conversions set the requested type, the
    tone mappers and the exposure fusion return 32-bit float images with
    three channels, [Canny] an 8-bit edge map with one channel,
    [drawKeypoints] an 8-bit colour image. *)
Record CvContract (cv : Napi.CvLibrary) : Prop := {
  convertTo_shaped : forall m d cn alpha,
    shaped (Napi.convertTo cv m d cn alpha) (Napi.rows m) (Napi.cols m) d cn;
  pow_shaped : forall m p,
    shaped (Napi.pow cv m p) (Napi.rows m) (Napi.cols m) (Napi.depth m)
           (Napi.channels m);
  normalize_shaped : forall m a b,
    shaped (Napi.normalize_minmax cv m a b) (Napi.rows m) (Napi.cols m)
           (Napi.depth m) (Napi.channels m);
  TonemapReinhard_shaped : forall g i l c m,
    shaped (Napi.TonemapReinhard cv g i l c m) (Napi.rows m) (Napi.cols m)
           Napi.CV_32F 3;
  TonemapDrago_shaped : forall g s m,
    shaped (Napi.TonemapDrago cv g s m) (Napi.rows m) (Napi.cols m)
           Napi.CV_32F 3;
  TonemapMantiuk_shaped : forall g sc s m,
    shaped (Napi.TonemapMantiuk cv g sc s m) (Napi.rows m) (Napi.cols m)
           Napi.CV_32F 3;
  MergeMertens_shaped : forall m ms,
    shaped (Napi.MergeMertens cv (m :: ms)) (Napi.rows m) (Napi.cols m)
           Napi.CV_32F 3;
  Canny_shaped : forall m t1 t2,
    shaped (Napi.Canny cv m t1 t2) (Napi.rows m) (Napi.cols m) Napi.CV_8U 1;
  drawKeypoints_shaped : forall m kp color,
    shaped (Napi.drawKeypoints cv m kp color) (Napi.rows m) (Napi.cols m)
           Napi.CV_8U 3
}.

(** A matrix of the given type filled with zero bytes. *)
Definition zeros (r c : Z) (d : Napi.Depth) (cn : Z) : Napi.Mat :=
  Napi.mkMat r c d cn
    (replicate (Z.to_nat (r * c * cn * Napi.elemSize1 d)) Byte.x00).

(** An instance of the library for closed examples: every algorithm returns
    the zero matrix of its documented output type, no key point is found,
    and the gray level of a pixel is its green channel. *)
Definition zero_library : Napi.CvLibrary :=
  {| Napi.KeyPoint := unit;
     Napi.gray_level := fun b g r => g;
     Napi.convertTo := fun m d cn _ => zeros (Napi.rows m) (Napi.cols m) d cn;
     Napi.pow := fun m _ =>
       zeros (Napi.rows m) (Napi.cols m) (Napi.depth m) (Napi.channels m);
     Napi.normalize_minmax := fun m _ _ =>
       zeros (Napi.rows m) (Napi.cols m) (Napi.depth m) (Napi.channels m);
     Napi.TonemapReinhard := fun _ _ _ _ m =>
       zeros (Napi.rows m) (Napi.cols m) Napi.CV_32F 3;
     Napi.TonemapDrago := fun _ _ m =>
       zeros (Napi.rows m) (Napi.cols m) Napi.CV_32F 3;
     Napi.TonemapMantiuk := fun _ _ _ m =>
       zeros (Napi.rows m) (Napi.cols m) Napi.CV_32F 3;
     Napi.MergeMertens := fun ms =>
       match ms with
       | m :: _ => zeros (Napi.rows m) (Napi.cols m) Napi.CV_32F 3
       | [] => zeros 0 0 Napi.CV_32F 3
       end;
     Napi.scaled := fun m _ =>
       zeros (Napi.rows m) (Napi.cols m) (Napi.depth m) (Napi.channels m);
     Napi.Canny := fun m _ _ => zeros (Napi.rows m) (Napi.cols m) Napi.CV_8U 1;
     Napi.ORB_detectAndCompute := fun m => ([], zeros 0 0 Napi.CV_8U 1);
     Napi.drawKeypoints := fun m _ _ =>
       zeros (Napi.rows m) (Napi.cols m) Napi.CV_8U 3 |}.

(** Memory that reads as zero when freshly allocated. *)
Definition zero_memory : nat -> byte := fun _ => Byte.x00.

(** The strings the chain of comparisons of the addon's [processImageData]
    recognises, and those of the service's. *)
Definition known_operations : list string :=
  ["invert"; "grayscale"; "hdr"; "tone_mapping"; "exposure_fusion";
   "edge_detection"; "feature_detection"; "simd_optimize"; "noop"]%string.

Definition service_operations : list string :=
  ["invert"; "grayscale"; "noop"]%string.

(** The size in bytes of the geometry the addon assumes: 256 x 256 x 3. *)
Definition frame_bytes : Z := 256 * 256 * 3.

Abbreviation frame_size := (Z.to_nat frame_bytes).

(** An image of [n] pixels, all of them [(100, 100, 100)]. *)
Definition uniform_gray (n : nat) : list (byte * byte * byte) :=
  replicate n (u8 100, u8 100, u8 100).

(** Every operation that has a count has a running average: what
    [ProcessImage] maintains, and what makes the [operator[]] in
    [GetMetrics] a pure read. *)
Definition metrics_inv {double : Type} (m : @Napi.Metrics double) : Prop :=
  forall key, is_Some (Napi.operation_count m !! key) ->
              is_Some (Napi.operation_avg_time m !! key).

(** ** Batches and sessions *)

(** The number of requests of a batch that name [op]. *)
Definition requests_with (op : string)
    {double : Type} (requests : list (Service.ImageRequest * double)) : nat :=
  length (filter (fun item => Service.operation item.1 = op) requests).

(** The response [ProcessImage] and [BatchProcess] build for one request
    that took [elapsed]. *)
Definition response_of {double : Type}
    (item : Service.ImageRequest * double) : @Service.ImageResponse double :=
  {| Service.processed_data :=
       (Service.processImageData (Service.image_data item.1)
          (Service.operation item.1)).1;
     Service.status := "success";
     Service.processing_time := item.2 |}.

(** What holds of a processor of the addon throughout a session: the two
    per-operation maps have the same keys, the AVX flag is only set on a
    processor that supports AVX, and the members no method writes keep their
    initial values. *)
Definition processor_inv {double : Type} (this : @Napi.ImageProcessor double)
    : Prop :=
  dom (Napi.operation_count (Napi.metrics_ this))
  = dom (Napi.operation_avg_time (Napi.metrics_ this)) /\
  (Napi.avx_used (Napi.metrics_ this) = true ->
   Napi.avx_supported_ this = true) /\
  Napi.initialized_ this = true /\
  Napi.memory_allocated (Napi.metrics_ this) = 0.

(** The sum of the per-operation counts. *)
Definition count_sum (counts : gmap string Z) : Z :=
  map_fold (fun _ count acc => count + acc) 0 counts.

(** What a session of at most [k] calls keeps, beside [processor_inv]: the
    per-operation counts add up to [total_processed], which is at most
    [k]. *)
Definition session_inv {double : Type} (this : @Napi.ImageProcessor double)
    (k : Z) : Prop :=
  processor_inv this /\
  map_Forall (fun _ count => 0 <= count)
    (Napi.operation_count (Napi.metrics_ this)) /\
  count_sum (Napi.operation_count (Napi.metrics_ this))
  = Napi.total_processed (Napi.metrics_ this) /\
  0 <= Napi.total_processed (Napi.metrics_ this) <= k.

(** The properties of the object [GetMetrics] of the addon builds for one
    operation. *)
Definition opMetrics_of {double : Type} `{DoubleArith double}
    (count : Z) (average : double) : gmap string (@Napi.JsValue double) :=
  <["averageTime"%string := Napi.JsNumber average]>
    (<["count"%string := Napi.JsNumber (d_of_uint64 count)]> ∅).

(** ** Exact running means

    The completions recorded one after the other in the metrics of the
    addon, with [double] read as exact rational arithmetic ([Q_arith]). *)
Definition Qsum (ts : list Q) : Q := foldr Qplus 0%Q ts.

Definition record_all (avx : bool) (m : @Napi.Metrics Q)
    (recs : list (string * Q)) : @Napi.Metrics Q :=
  foldl (fun m r => Napi.update_metrics m avx r.1 r.2) m recs.

(** The times recorded for one operation. *)
Definition times_of (operation : string) (recs : list (string * Q)) : list Q :=
  map snd (filter (fun r => r.1 = operation) recs).

(** The same for the metrics of the service. *)
Definition service_record_all (m : @Service.ServiceMetrics Q)
    (recs : list (string * Q)) : @Service.ServiceMetrics Q :=
  foldl (fun m r => Service.update_metrics m r.1 r.2) m recs.

(** ** IEEE 754 binary64

    The [double] of the two front ends: the primitive floats of the kernel,
    whose operations are specified by [SpecFloat] (round to nearest, ties to
    even). *)
Module Binary64.

Import Reals Floats.

(** [(double) n] for a [uint64_t] [n]: the nearest [double].  The
    conversion of the kernel takes 63 bits; a larger number is halved first,
    its last bit kept as a sticky bit, and the result doubled. *)
Definition of_uint64 (n : Z) : float :=
  if n <? 2 ^ 63 then of_uint63 (Uint63.of_Z n)
  else (of_uint63 (Uint63.of_Z (Z.lor (Z.shiftr n 1) (Z.land n 1))) * 2)%float.

Definition arith : DoubleArith float := {|
  d_zero := 0%float;
  d_add := PrimFloat.add;
  d_mul := PrimFloat.mul;
  d_div := PrimFloat.div;
  d_of_uint64 := of_uint64
|}.

(** The completions recorded one after the other, in [double]
    arithmetic. *)
Definition record_all (avx : bool) (m : @Napi.Metrics float)
    (recs : list (string * float)) : @Napi.Metrics float :=
  foldl (fun m r => Napi.update_metrics (H := arith) m avx r.1 r.2) m recs.

Definition service_record_all (m : @Service.ServiceMetrics float)
    (recs : list (string * float)) : @Service.ServiceMetrics float :=
  foldl (fun m r => Service.update_metrics (H := arith) m r.1 r.2) m recs.

(** The times recorded for one operation. *)
Definition times_of (operation : string) (recs : list (string * float))
    : list float :=
  map snd (filter (fun r => r.1 = operation) recs).

(** ** Real values *)

Local Open Scope R_scope.

Definition bpow (e : Z) : R := powerRZ 2 e.

(** The real number a finite [double] stands for. *)
Definition SF2R (x : spec_float) : R :=
  match x with
  | S754_finite s m e =>
      if s then - (IZR (Zpos m) * bpow e) else IZR (Zpos m) * bpow e
  | _ => 0
  end.

Definition value (x : float) : R := SF2R (Prim2SF x).

Definition Rsum (l : list R) : R := foldr Rplus 0 l.

(** The mean of a list of times. *)
Definition mean (ts : list float) : R :=
  Rsum (map value ts) / INR (length ts).

(** ** Numbers and results without overflow or underflow *)

(** Zero or a positive finite number: an elapsed time. *)
Definition SFnonneg (x : spec_float) : bool :=
  match x with
  | S754_zero _ => true
  | S754_finite s _ _ => negb s
  | _ => false
  end.

Definition SFis_zero (x : spec_float) : bool :=
  match x with
  | S754_zero _ => true
  | _ => false
  end.

(** A positive normal number: its mantissa has all its [prec] bits. *)
Definition SFnormal (prec : Z) (x : spec_float) : bool :=
  match x with
  | S754_finite s m _ => negb s && (2 ^ (prec - 1) <=? Zpos m)%Z
  | _ => false
  end.

Definition nonneg (x : float) : bool := SFnonneg (Prim2SF x).
Definition is_zero (x : float) : bool := SFis_zero (Prim2SF x).
Definition normal (x : float) : bool := SFnormal prec (Prim2SF x).

(** One update of a running mean,
    [(avg * (count + 1 - 1) + t) / (count + 1)], rounds five times: the two
    conversions of the counts, the product, the sum and the quotient.
    [step_ok] holds when none of them overflows, underflows to a subnormal
    number or to zero, or gives a NaN: each result is a positive normal
    number, or is zero because an operand is. *)
Definition step_ok (avg : float) (count : Z) (t : float) : bool :=
  let c := of_uint64 count in
  let p := (avg * c)%float in
  let s := (p + t)%float in
  let n := of_uint64 (count + 1) in
  let q := (s / n)%float in
  ((count =? 0)%Z || normal c)
  && (is_zero avg || is_zero c || normal p)
  && (is_zero p || is_zero t || normal s)
  && normal n
  && (is_zero s || normal q).

(** The same for an update of the metrics of the addon, where the global
    mean and the mean of the operation are updated, and for a whole run. *)
Definition update_ok (m : @Napi.Metrics float) (operation : string)
    (t : float) : bool :=
  nonneg t
  && step_ok (Napi.average_time m) (Napi.total_processed m) t
  && step_ok (default 0%float (Napi.operation_avg_time m !! operation))
             (default 0%Z (Napi.operation_count m !! operation)) t.

Fixpoint run_ok (avx : bool) (m : @Napi.Metrics float)
    (recs : list (string * float)) : bool :=
  match recs with
  | [] => true
  | r :: recs =>
      update_ok m r.1 r.2
      && run_ok avx (Napi.update_metrics (H := arith) m avx r.1 r.2) recs
  end.

(** ** Rounding *)

(** [x] lies in [[m, m + 1)], at the place [l] says. *)
Definition inbetween (m : Z) (x : R) (l : location) : Prop :=
  match l with
  | loc_Exact => x = IZR m
  | loc_Inexact Lt => IZR m < x < IZR m + / 2
  | loc_Inexact Eq => x = IZR m + / 2
  | loc_Inexact Gt => IZR m + / 2 < x < IZR m + 1
  end.

Definition represents (mrs : shr_record) (x : R) : Prop :=
  (0 <= shr_m mrs)%Z /\ inbetween (shr_m mrs) x (loc_of_shr_record mrs).

(** The result [z] is within [2^-prec], relative to itself, of the exact
    result [r]. *)
Definition close (prec : Z) (z : spec_float) (r : R) : Prop :=
  Rabs (SF2R z - r) <= bpow (- prec) * SF2R z.

(** Two numbers that differ by at most a factor [a]. *)
Definition near (a z r : R) : Prop := a * r <= z /\ a * z <= r.

(** After [j] updates, each within [a^5]: the mean [A] of samples of sum
    [tot]. *)
Definition within (a : R) (j : nat) (tot A : R) : Prop :=
  a ^ (5 * j) * tot <= INR j * A /\ a ^ (5 * j) * (INR j * A) <= tot.

(** The unit roundoff of binary64, [2^-53]. *)
Definition u64 : R := bpow (- 53).

(** ** Elapsed times

    An elapsed time on which the updates neither overflow nor underflow:
    zero, or a positive normal number from [2^-500] to below [2^500] (a
    mantissa of 53 bits, at an exponent from -552 to 447). *)
Definition SFelapsed (x : spec_float) : bool :=
  match x with
  | S754_zero _ => true
  | S754_finite s m e =>
      negb s && (2 ^ 52 <=? Zpos m)%Z && (Zpos m <? 2 ^ 53)%Z
      && (-552 <=? e)%Z && (e <=? 447)%Z
  | _ => false
  end.

Definition elapsed (t : float) : bool := SFelapsed (Prim2SF t).

(** A number between two powers of two. *)
Definition rng (l h : Z) (v : R) : Prop := bpow l <= v <= bpow h.

(** Zero, or a positive normal number between two powers of two. *)
Definition good (l h : Z) (x : float) : Prop :=
  is_zero x = true \/ (normal x = true /\ rng l h (value x)).

(** What a running mean [A] of [j] samples of sum [tot] keeps through the
    updates. *)
Definition kept (j : nat) (tot : R) (A : float) : Prop :=
  good (-549) 501 A /\ within (1 - u64) j tot (value A) /\
  (tot = 0 \/ bpow (-500) <= tot) /\ tot <= INR j * bpow 500.

(** One update of a running mean of [count] samples with the sample [t]. *)
Definition mean_step (avg : float) (count : Z) (t : float) : float :=
  (((avg * of_uint64 count) + t) / of_uint64 (count + 1))%float.

(** After [j] completions: the count, the global mean and the mean of every
    operation of the addon. *)
Definition kept_all (m : @Napi.Metrics float) (j : nat) : Prop :=
  Napi.total_processed m = Z.of_nat j /\
  (exists tot, kept j tot (Napi.average_time m)) /\
  forall operation, exists (jo : nat) (tot : R),
    (jo <= j)%nat /\
    default 0%Z (Napi.operation_count m !! operation) = Z.of_nat jo /\
    kept jo tot (default 0%float (Napi.operation_avg_time m !! operation)).

End Binary64.

(** * Properties *)

(** ** Bytes *)

Lemma byte_to_Z_range (b : byte) : 0 <= byte_to_Z b < 256.
Proof.
  unfold byte_to_Z. pose proof (Byte.to_N_bounded b). lia.
Qed.

Lemma u8_byte_to_Z (b : byte) : u8 (byte_to_Z b) = b.
Proof.
  unfold u8. pose proof (byte_to_Z_range b) as Hb.
  rewrite Z.mod_small by exact Hb.
  unfold byte_to_Z. rewrite N2Z.id, Byte.of_to_N. reflexivity.
Qed.

Lemma byte_to_Z_u8 (z : Z) : 0 <= z < 256 -> byte_to_Z (u8 z) = z.
Proof.
  intros Hz. unfold u8. rewrite Z.mod_small by exact Hz.
  destruct (Byte.of_N (Z.to_N z)) as [b|] eqn:E.
  - apply Byte.to_of_N in E. unfold byte_to_Z. rewrite E. lia.
  - apply Byte.of_N_None_iff in E. lia.
Qed.

(** [255 - x] twice is [x]. *)
Lemma invert_byte_involutive (x : byte) :
  u8 (255 - byte_to_Z (u8 (255 - byte_to_Z x))) = x.
Proof.
  pose proof (byte_to_Z_range x) as Hx.
  rewrite byte_to_Z_u8 by lia.
  replace (255 - (255 - byte_to_Z x)) with (byte_to_Z x) by lia.
  apply u8_byte_to_Z.
Qed.

(** ** The loops of the service *)

(** The loop of "invert", started at the end of [pre], rewrites the rest. *)
Lemma invert_loop_from (suf : list byte) :
  forall (fuel : nat) (pre : list byte),
    (length suf <= fuel)%nat ->
    for_loop fuel Service.in_bounds 1 Service.invert_body (length pre) (pre ++ suf)
    = pre ++ map invert_byte suf.
Proof.
  induction suf as [|x suf IH]; intros fuel pre Hfuel.
  - destruct fuel as [|fuel]; simpl; [reflexivity|].
    unfold Service.in_bounds. rewrite app_nil_r.
    rewrite (proj2 (Nat.ltb_ge _ _)) by lia. reflexivity.
  - destruct fuel as [|fuel]; simpl in Hfuel; [lia|].
    simpl. unfold Service.in_bounds at 1.
    rewrite (proj2 (Nat.ltb_lt _ _)) by (rewrite length_app; simpl; lia).
    unfold Service.invert_body at 2.
    rewrite list_lookup_middle by reflexivity.
    replace (<[length pre:=u8 (255 - byte_to_Z x)]> (pre ++ x :: suf))
      with ((pre ++ [invert_byte x]) ++ suf).
    + replace (length pre + 1)%nat with (length (pre ++ [invert_byte x]))
        by (rewrite length_app; simpl; lia).
      rewrite IH by lia. rewrite <- app_assoc. reflexivity.
    + rewrite <- app_assoc. simpl.
      rewrite insert_app_r_alt by lia.
      rewrite Nat.sub_diag. reflexivity.
Qed.

Lemma invert_loop_map (b : list byte) :
  for_loop (length b) Service.in_bounds 1 Service.invert_body 0%nat b
  = map invert_byte b.
Proof. exact (invert_loop_from b (length b) [] (le_n _)). Qed.

(** More fuel does not change the result: the loop has stopped. *)
Lemma invert_loop_fuel (b : list byte) (fuel : nat) :
  (length b <= fuel)%nat ->
  for_loop fuel Service.in_bounds 1 Service.invert_body 0%nat b
  = for_loop (length b) Service.in_bounds 1 Service.invert_body 0%nat b.
Proof.
  intros Hf. rewrite invert_loop_map.
  exact (invert_loop_from b fuel [] Hf).
Qed.

Lemma mean3_value (r g b : byte) :
  byte_to_Z (mean3 r g b) = (byte_to_Z r + byte_to_Z g + byte_to_Z b) / 3.
Proof.
  pose proof (byte_to_Z_range r). pose proof (byte_to_Z_range g).
  pose proof (byte_to_Z_range b).
  unfold mean3. apply byte_to_Z_u8.
  split; [apply Z.div_pos; lia | apply Z.div_lt_upper_bound; lia].
Qed.

(** C's truncating division is the floor on the sum of three bytes. *)
Lemma quot_mean3 (r g b : byte) :
  u8 ((byte_to_Z r + byte_to_Z g + byte_to_Z b) ÷ 3) = mean3 r g b.
Proof.
  pose proof (byte_to_Z_range r). pose proof (byte_to_Z_range g).
  pose proof (byte_to_Z_range b).
  unfold mean3. rewrite Z.quot_div_nonneg by lia. reflexivity.
Qed.

(** One turn of the loop of "grayscale" on a complete group. *)
Lemma grayscale_body_group (pre : list byte) (r g b : byte) (rest : list byte) :
  Service.grayscale_body (length pre) (pre ++ r :: g :: b :: rest)
  = pre ++ mean3 r g b :: mean3 r g b :: mean3 r g b :: rest.
Proof.
  unfold Service.grayscale_body.
  rewrite (proj2 (Nat.ltb_lt _ _)) by (rewrite length_app; simpl; lia).
  rewrite list_lookup_middle by reflexivity.
  rewrite (lookup_app_r pre) by lia.
  replace (length pre + 1 - length pre)%nat with 1%nat by lia.
  rewrite (lookup_app_r pre) by lia.
  replace (length pre + 2 - length pre)%nat with 2%nat by lia.
  simpl. rewrite quot_mean3.
  rewrite !insert_app_r_alt by lia.
  replace (length pre + 2 - length pre)%nat with 2%nat by lia.
  replace (length pre + 1 - length pre)%nat with 1%nat by lia.
  rewrite Nat.sub_diag. reflexivity.
Qed.

(** One turn of the loop on an incomplete group changes nothing. *)
Lemma grayscale_body_tail (pre tail : list byte) :
  (length tail < 3)%nat ->
  Service.grayscale_body (length pre) (pre ++ tail) = pre ++ tail.
Proof.
  intros Ht. unfold Service.grayscale_body.
  rewrite (proj2 (Nat.ltb_ge _ _)) by (rewrite length_app; lia).
  reflexivity.
Qed.

Lemma grayscale_loop_from (px : list (byte * byte * byte)) :
  forall (fuel : nat) (pre tail : list byte),
    (length tail < 3)%nat ->
    (3 * length px + length tail <= fuel)%nat ->
    for_loop fuel Service.in_bounds 3 Service.grayscale_body (length pre)
      (pre ++ pixel_bytes px ++ tail)
    = pre ++ pixel_bytes (map gray_pixel px) ++ tail.
Proof.
  induction px as [|[[r g] b] px IH]; intros fuel pre tail Ht Hfuel.
  - simpl. destruct fuel as [|fuel]; [reflexivity|].
    simpl. destruct (Service.in_bounds (length pre) (pre ++ tail)); [|reflexivity].
    rewrite grayscale_body_tail by exact Ht.
    destruct fuel as [|fuel]; [reflexivity|].
    simpl. unfold Service.in_bounds.
    rewrite (proj2 (Nat.ltb_ge _ _)) by (rewrite length_app; lia).
    reflexivity.
  - simpl in Hfuel. destruct fuel as [|fuel]; [lia|].
    cbn [for_loop pixel_bytes flat_map map gray_pixel fst snd app].
    unfold Service.in_bounds at 1.
    rewrite (proj2 (Nat.ltb_lt _ _)) by (rewrite length_app; simpl; lia).
    rewrite grayscale_body_group.
    set (m := mean3 r g b).
    change (pre ++ m :: m :: m :: flat_map (fun p => [p.1.1; p.1.2; p.2]) px ++ tail)
      with (pre ++ [m; m; m] ++ pixel_bytes px ++ tail).
    rewrite (app_assoc pre [m; m; m]).
    replace (length pre + 3)%nat with (length (pre ++ [m; m; m]))
      by (rewrite length_app; simpl; lia).
    rewrite IH by lia.
    rewrite <- app_assoc. reflexivity.
Qed.

(** ** The AVX loop *)

Lemma length_mm256_shuffle_epi8 (a : list byte) (b : list Z) :
  length (Napi._mm256_shuffle_epi8 a b) = 32%nat.
Proof. unfold Napi._mm256_shuffle_epi8. rewrite length_map, length_seq. reflexivity. Qed.

(** On a full vector the shuffle with [shuffle_mask] exchanges bytes 0 and 2
    of each group of four. *)
Lemma shuffle_is_swap (c : list byte) :
  length c = 32%nat ->
  Napi._mm256_shuffle_epi8 c Napi.shuffle_mask = swap_red_blue c.
Proof.
  intros Hc.
  do 32 (destruct c as [|? c]; [discriminate Hc|]).
  destruct c; [reflexivity | discriminate Hc].
Qed.

Lemma length_swap_red_blue (d : list byte) :
  length (swap_red_blue d) = length d.
Proof.
  induction d as [d IH] using (induction_ltof1 _ (@length byte)).
  unfold ltof in IH.
  destruct d as [|x0 [|x1 [|x2 [|x3 rest]]]]; try reflexivity.
  simpl. rewrite IH by (simpl; lia). reflexivity.
Qed.

(** One turn of the loop, at the chunk that follows [pre]. *)
Lemma shuffle_chunk_at (pre c rest : list byte) :
  length c = 32%nat ->
  Napi.shuffle_chunk (length pre) (pre ++ c ++ rest)
  = pre ++ swap_red_blue c ++ rest.
Proof.
  intros Hc. unfold Napi.shuffle_chunk, Napi._mm256_loadu_si256,
    Napi._mm256_storeu_si256.
  rewrite drop_app_length.
  rewrite (take_app_length' c rest 32) by (symmetry; exact Hc).
  rewrite take_app_length, shuffle_is_swap by exact Hc.
  rewrite drop_app_add, <- Hc, drop_app_length. reflexivity.
Qed.

Lemma avx_loop_from (chunks : list (list byte)) :
  forall (fuel : nat) (pre tail : list byte) (size : nat),
    Forall (fun c => length c = 32%nat) chunks ->
    (length tail < 32)%nat ->
    size = (length pre + 32 * length chunks + length tail)%nat ->
    (length chunks <= fuel)%nat ->
    for_loop fuel (fun i _ => (i + 31 <? size)%nat) 32 Napi.shuffle_chunk
      (length pre) (pre ++ concat chunks ++ tail)
    = pre ++ concat (map swap_red_blue chunks) ++ tail.
Proof.
  induction chunks as [|c chunks IH]; intros fuel pre tail size Hall Ht Hsize Hfuel.
  - simpl. destruct fuel as [|fuel]; [reflexivity|]. simpl.
    rewrite (proj2 (Nat.ltb_ge _ _)) by (simpl in Hsize; lia). reflexivity.
  - apply Forall_cons in Hall as [Hc Hall'].
    destruct fuel as [|fuel]; [simpl in Hfuel; lia|].
    cbn [for_loop concat map].
    rewrite (proj2 (Nat.ltb_lt _ _)) by (simpl in Hsize; lia).
    rewrite <- (app_assoc c), shuffle_chunk_at by exact Hc.
    rewrite (app_assoc pre (swap_red_blue c)).
    replace (length pre + 32)%nat with (length (pre ++ swap_red_blue c))
      by (rewrite length_app, length_swap_red_blue; lia).
    rewrite (IH fuel (pre ++ swap_red_blue c) tail size Hall' Ht).
    + rewrite <- !app_assoc. reflexivity.
    + rewrite length_app, length_swap_red_blue. simpl in Hsize. lia.
    + simpl in Hfuel. lia.
Qed.

(** Every buffer is its complete chunks followed by its remainder. *)
Lemma reshape_chunks (k : nat) :
  forall data : list byte,
    (32 * k <= length data)%nat ->
    concat (reshape (replicate k 32%nat) data) = take (32 * k) data /\
    Forall (fun c => length c = 32%nat) (reshape (replicate k 32%nat) data).
Proof.
  induction k as [|k IH]; intros data Hlen.
  - split; [reflexivity | constructor].
  - cbn [replicate reshape concat].
    destruct (IH (drop 32 data)) as [Hcat Hall].
    { rewrite length_drop. lia. }
    split.
    + rewrite Hcat. replace (32 * S k)%nat with (32 + 32 * k)%nat by lia.
      apply take_take_drop.
    + constructor; [|exact Hall]. rewrite length_take. lia.
Qed.

Lemma chunks32_spec (data : list byte) :
  concat (chunks32 data) ++ tail32 data = data /\
  Forall (fun c => length c = 32%nat) (chunks32 data) /\
  (length (tail32 data) < 32)%nat /\
  length (chunks32 data) = (length data / 32)%nat.
Proof.
  unfold chunks32, tail32.
  pose proof (Nat.div_mod_eq (length data) 32) as Hdm.
  pose proof (Nat.mod_upper_bound (length data) 32 ltac:(lia)) as Hmod.
  destruct (reshape_chunks (length data / 32) data) as [Hcat Hall]; [lia|].
  repeat split.
  - rewrite Hcat. apply take_drop.
  - exact Hall.
  - rewrite length_drop. lia.
  - rewrite length_reshape, length_replicate. reflexivity.
Qed.

(** The AVX path on a whole buffer: the chunks are shuffled and the
    remainder is left as it is. *)
Lemma vectorized_avx (data : list byte) :
  Napi.vectorizedColorConversion true data (length data)
  = (concat (map swap_red_blue (chunks32 data)) ++ tail32 data,
     [Napi.VectorPath]).
Proof.
  destruct (chunks32_spec data) as (Hdata & Hall & Ht & Hlen).
  unfold Napi.vectorizedColorConversion. cbn [negb]. f_equal.
  pose proof (avx_loop_from (chunks32 data) (length data) [] (tail32 data)
    (length data) Hall Ht) as Hloop.
  cbn [app length] in Hloop. rewrite Hdata in Hloop. apply Hloop.
  - rewrite <- Hdata at 1. rewrite length_app. f_equal.
    clear -Hall. induction Hall as [|c cs Hc _ IH]; [reflexivity|].
    cbn [concat length]. rewrite length_app, IH, Hc. lia.
  - rewrite Hlen. pose proof (Nat.div_mod_eq (length data) 32). lia.
Qed.

(** ** Buffers, matrices and the shapes of the results of the addon *)

Lemma bufferToMat_fits (fresh : nat -> byte) (input : list byte) :
  (length input <= frame_size)%nat ->
  Napi.bufferToMat fresh input 256 256 3
  = Napi.Ok (Napi.mkMat 256 256 Napi.CV_8U 3
       (input ++ map fresh (seq (length input) (frame_size - length input)))).
Proof.
  intros Hlen. unfold Napi.bufferToMat.
  change (256 * 256 * (if 3 =? 3 then 3 else 1)) with frame_bytes.
  rewrite (proj2 (Nat.leb_le _ _)) by exact Hlen. reflexivity.
Qed.

Lemma bufferToMat_overflow (fresh : nat -> byte) (input : list byte) :
  (frame_size < length input)%nat ->
  Napi.bufferToMat fresh input 256 256 3 = Napi.Undefined.
Proof.
  intros Hlen. unfold Napi.bufferToMat.
  change (256 * 256 * (if 3 =? 3 then 3 else 1)) with frame_bytes.
  rewrite (proj2 (Nat.leb_gt _ _)) by exact Hlen. reflexivity.
Qed.

Lemma bufferToMat_shaped (fresh : nat -> byte) (input : list byte) :
  (length input <= frame_size)%nat ->
  shaped (Napi.mkMat 256 256 Napi.CV_8U 3
            (input ++ map fresh (seq (length input) (frame_size - length input))))
         256 256 Napi.CV_8U 3.
Proof.
  intros Hlen. unfold shaped. cbn [Napi.rows Napi.cols Napi.depth Napi.channels
    Napi.data Napi.elemSize1].
  repeat split.
  rewrite length_app, length_map, length_seq.
  unfold frame_bytes in *. lia.
Qed.

(** [matToBuffer] of a matrix of 256 x 256 elements: [256 * 256 * cn]
    bytes, the first ones of the data block. *)
Lemma matToBuffer_shaped (m : Napi.Mat) (d : Napi.Depth) (cn : Z) :
  0 <= cn ->
  shaped m 256 256 d cn ->
  Napi.matToBuffer m = Napi.Ok (take (Z.to_nat (256 * 256 * cn)) (Napi.data m)) /\
  length (take (Z.to_nat (256 * 256 * cn)) (Napi.data m))
  = Z.to_nat (256 * 256 * cn).
Proof.
  intros Hcn (Hr & Hc & Hd & Hch & Hlen).
  assert (Z.to_nat (256 * 256 * cn) <= length (Napi.data m))%nat as Hle.
  { rewrite Hlen. destruct d; cbn [Napi.elemSize1]; lia. }
  unfold Napi.matToBuffer, Napi.total. rewrite Hr, Hc, Hch.
  rewrite (proj2 (Nat.leb_le _ _)) by exact Hle.
  split; [reflexivity|]. rewrite length_take. lia.
Qed.

Lemma length_bgr2gray_data (level : byte -> byte -> byte -> byte) (n : nat) :
  forall d : list byte,
    length d = (3 * n)%nat -> length (Napi.bgr2gray_data level d) = n.
Proof.
  induction n as [|n IH]; intros d Hd.
  - destruct d; [reflexivity | simpl in Hd; lia].
  - destruct d as [|b [|g [|r rest]]]; simpl in Hd; try lia.
    simpl. rewrite IH by lia. reflexivity.
Qed.

Lemma length_gray2bgr_data (d : list byte) :
  length (Napi.gray2bgr_data d) = (3 * length d)%nat.
Proof. induction d as [|y d IH]; simpl; [reflexivity | rewrite IH; lia]. Qed.

Lemma bitwise_not_shaped (m : Napi.Mat) r c d cn :
  shaped m r c d cn -> shaped (Napi.bitwise_not m) r c d cn.
Proof.
  intros (Hr & Hc & Hd & Hch & Hlen). unfold shaped, Napi.bitwise_not.
  cbn [Napi.rows Napi.cols Napi.depth Napi.channels Napi.data].
  rewrite length_map. auto.
Qed.

Lemma clone_eq (m : Napi.Mat) : Napi.clone m = m.
Proof. destruct m; reflexivity. Qed.

Lemma cvtColor_BGR2GRAY_shaped (cv : Napi.CvLibrary) (m : Napi.Mat) :
  shaped m 256 256 Napi.CV_8U 3 ->
  shaped (Napi.cvtColor cv m Napi.COLOR_BGR2GRAY) 256 256 Napi.CV_8U 1.
Proof.
  intros (Hr & Hc & Hd & Hch & Hlen). unfold shaped, Napi.cvtColor.
  cbn [Napi.rows Napi.cols Napi.depth Napi.channels Napi.data].
  repeat split; try assumption.
  apply length_bgr2gray_data. rewrite Hlen. cbn [Napi.elemSize1]. lia.
Qed.

Lemma cvtColor_GRAY2BGR_shaped (cv : Napi.CvLibrary) (m : Napi.Mat) :
  shaped m 256 256 Napi.CV_8U 1 ->
  shaped (Napi.cvtColor cv m Napi.COLOR_GRAY2BGR) 256 256 Napi.CV_8U 3.
Proof.
  intros (Hr & Hc & Hd & Hch & Hlen). unfold shaped, Napi.cvtColor.
  cbn [Napi.rows Napi.cols Napi.depth Napi.channels Napi.data].
  repeat split; try assumption.
  rewrite length_gray2bgr_data, Hlen. cbn [Napi.elemSize1]. lia.
Qed.

(** Both paths of [vectorizedColorConversion] keep the number of bytes. *)
Lemma length_vectorized (avx : bool) (data : list byte) :
  length (Napi.vectorizedColorConversion avx data (length data)).1 = length data.
Proof.
  destruct avx; [|reflexivity].
  rewrite vectorized_avx. cbn [fst].
  destruct (chunks32_spec data) as (Hdata & Hall & _ & _).
  transitivity (length (concat (chunks32 data) ++ tail32 data));
    [|rewrite Hdata; reflexivity].
  rewrite !length_app. f_equal.
  clear -Hall. induction Hall as [|c cs Hc _ IH]; [reflexivity|].
  cbn [map concat]. rewrite !length_app, IH, length_swap_red_blue. reflexivity.
Qed.

Lemma applySIMDOptimization_shaped (avx : bool) (m : Napi.Mat) :
  shaped m 256 256 Napi.CV_8U 3 ->
  shaped (Napi.applySIMDOptimization avx m).1 256 256 Napi.CV_8U 3.
Proof.
  intros Hm. pose proof Hm as (Hr & Hc & Hd & Hch & Hlen).
  unfold Napi.applySIMDOptimization, Napi.avxImageProcessing.
  destruct avx; cbn [negb fst]; [|exact Hm].
  rewrite Hch. change (3 =? 3) with true. cbv iota.
  unfold Napi.total. rewrite Hr, Hc.
  replace (Z.to_nat (256 * 256 * 3)) with (length (Napi.data m))
    by (rewrite Hlen; cbn [Napi.elemSize1]; lia).
  pose proof (length_vectorized true (Napi.data m)) as Hv.
  destruct (Napi.vectorizedColorConversion true (Napi.data m)
              (length (Napi.data m))) as [d out].
  cbn [fst] in *. unfold shaped.
  cbn [Napi.rows Napi.cols Napi.depth Napi.channels Napi.data].
  rewrite Hv. auto.
Qed.

Lemma shaped_from (m m' : Napi.Mat) r c d cn d' cn' :
  shaped m r c d cn ->
  shaped m' (Napi.rows m) (Napi.cols m) d' cn' ->
  shaped m' r c d' cn'.
Proof. intros (Hr & Hc & _) Hm'. rewrite Hr, Hc in Hm'. exact Hm'. Qed.

Lemma shaped_same (m m' : Napi.Mat) r c d cn :
  shaped m r c d cn ->
  shaped m' (Napi.rows m) (Napi.cols m) (Napi.depth m) (Napi.channels m) ->
  shaped m' r c d cn.
Proof.
  intros (Hr & Hc & Hd & Hch & _) Hm'. rewrite Hr, Hc, Hd, Hch in Hm'. exact Hm'.
Qed.

Section WithContract.

Variable cv : Napi.CvLibrary.
Hypothesis contract : CvContract cv.

Lemma processHDR_shaped (m : Napi.Mat) r c d cn :
  shaped m r c d cn -> shaped (Napi.processHDR cv m) r c Napi.CV_32F 3.
Proof.
  intros Hm. unfold Napi.processHDR.
  pose proof (shaped_from _ _ _ _ _ _ _ _ Hm
    (convertTo_shaped cv contract m Napi.CV_32F 3 (1 / 255)%Q)) as H1.
  pose proof (shaped_same _ _ _ _ _ _ H1 (pow_shaped cv contract _ (8 / 10)%Q)) as H2.
  exact (shaped_same _ _ _ _ _ _ H2 (normalize_shaped cv contract _ 0%Q 1%Q)).
Qed.

Lemma applyToneMapping_reinhard_shaped (m : Napi.Mat) r c d cn :
  shaped m r c d cn ->
  shaped (Napi.applyToneMapping cv m "reinhard") r c Napi.CV_32F 3.
Proof.
  intros Hm. unfold Napi.applyToneMapping. cbn [String.eqb Ascii.eqb Bool.eqb].
  exact (shaped_from _ _ _ _ _ _ _ _ Hm (TonemapReinhard_shaped cv contract _ _ _ _ m)).
Qed.

Lemma applyComputerVision_canny_shaped (m : Napi.Mat) :
  shaped m 256 256 Napi.CV_8U 3 ->
  shaped (Napi.applyComputerVision cv m "canny") 256 256 Napi.CV_8U 3.
Proof.
  intros Hm. unfold Napi.applyComputerVision. cbn [String.eqb Ascii.eqb Bool.eqb].
  apply cvtColor_GRAY2BGR_shaped.
  apply (shaped_from _ _ _ _ _ _ _ _ (cvtColor_BGR2GRAY_shaped cv m Hm)).
  apply (Canny_shaped cv contract).
Qed.

Lemma applyComputerVision_orb_shaped (m : Napi.Mat) r c d cn :
  shaped m r c d cn ->
  shaped (Napi.applyComputerVision cv m "orb_features") r c Napi.CV_8U 3.
Proof.
  intros Hm. unfold Napi.applyComputerVision. cbn [String.eqb Ascii.eqb Bool.eqb].
  destruct (Napi.ORB_detectAndCompute cv m) as [keypoints descriptors].
  exact (shaped_from _ _ _ _ _ _ _ _ Hm (drawKeypoints_shaped cv contract m _ _)).
Qed.

(** The matrix every branch of the chain produces from a 256 x 256 colour
    image: 256 x 256 again, with one channel after "grayscale" and three
    otherwise. *)
Lemma dispatch_shaped (avx : bool) (m : Napi.Mat) (operation : string) :
  shaped m 256 256 Napi.CV_8U 3 ->
  exists d,
    shaped (Napi.dispatch cv avx m operation).1 256 256 d
           (if String.eqb operation "grayscale" then 1 else 3).
Proof.
  intros Hm. unfold Napi.dispatch.
  destruct (String.eqb_spec operation "invert") as [->|_].
  { exists Napi.CV_8U. apply bitwise_not_shaped, Hm. }
  destruct (String.eqb_spec operation "grayscale") as [->|_].
  { exists Napi.CV_8U. apply cvtColor_BGR2GRAY_shaped, Hm. }
  destruct (String.eqb_spec operation "hdr") as [->|_].
  { exists Napi.CV_32F. apply (processHDR_shaped _ _ _ _ _ Hm). }
  destruct (String.eqb_spec operation "tone_mapping") as [->|_].
  { exists Napi.CV_32F.
    apply (applyToneMapping_reinhard_shaped _ _ _ _ _ (processHDR_shaped _ _ _ _ _ Hm)). }
  destruct (String.eqb_spec operation "exposure_fusion") as [->|_].
  { exists Napi.CV_32F. unfold Napi.applyExposureFusion.
    exact (shaped_from _ _ _ _ _ _ _ _ Hm (MergeMertens_shaped cv contract m _)). }
  destruct (String.eqb_spec operation "edge_detection") as [->|_].
  { exists Napi.CV_8U. apply applyComputerVision_canny_shaped, Hm. }
  destruct (String.eqb_spec operation "feature_detection") as [->|_].
  { exists Napi.CV_8U. apply (applyComputerVision_orb_shaped _ _ _ _ _ Hm). }
  destruct (String.eqb_spec operation "simd_optimize") as [->|_].
  { exists Napi.CV_8U. rewrite clone_eq. apply applySIMDOptimization_shaped, Hm. }
  exists Napi.CV_8U.
  destruct (String.eqb_spec operation "noop") as [->|_]; exact Hm.
Qed.

(** [processImageData] on a buffer that fits the assumed geometry returns
    a buffer of 256 x 256 bytes per channel of the result. *)
Lemma processImageData_fits (fresh : nat -> byte) (avx : bool)
    (input : list byte) (operation : string) :
  (length input <= frame_size)%nat ->
  exists buffer out,
    Napi.processImageData fresh cv avx input operation = Napi.Ok (buffer, out) /\
    length buffer
    = Z.to_nat (256 * 256 * (if String.eqb operation "grayscale" then 1 else 3)).
Proof.
  intros Hlen. unfold Napi.processImageData.
  rewrite bufferToMat_fits by exact Hlen.
  destruct (dispatch_shaped avx _ operation (bufferToMat_shaped fresh input Hlen))
    as [d Hres].
  destruct (Napi.dispatch cv avx _ operation) as [resultMat out]. cbn [fst] in Hres.
  assert (0 <= (if String.eqb operation "grayscale" then 1 else 3)) as Hcn
    by (destruct (String.eqb operation "grayscale"); lia).
  destruct (matToBuffer_shaped resultMat d _ Hcn Hres) as [Hbuf Hlenbuf].
  rewrite Hbuf. eauto.
Qed.

End WithContract.

(** A buffer longer than the assumed geometry is copied past the end of the
    matrix: the behaviour of [processImageData] is undefined. *)
Lemma processImageData_overflow (fresh : nat -> byte) (cv : Napi.CvLibrary)
    (avx : bool) (input : list byte) (operation : string) :
  (frame_size < length input)%nat ->
  Napi.processImageData fresh cv avx input operation = Napi.Undefined.
Proof.
  intros Hlen. unfold Napi.processImageData.
  rewrite bufferToMat_overflow by exact Hlen. reflexivity.
Qed.

Lemma zero_library_contract : CvContract zero_library.
Proof.
  constructor; intros; unfold shaped, zeros; cbn;
    repeat split; apply length_replicate.
Qed.

(** ** The service's [processImageData] *)

Lemma service_invert (b : list byte) :
  Service.processImageData b "invert" = (map invert_byte b, []).
Proof.
  unfold Service.processImageData. cbn [String.eqb Ascii.eqb Bool.eqb].
  rewrite invert_loop_map. reflexivity.
Qed.

Lemma length_pixel_bytes (px : list (byte * byte * byte)) :
  length (pixel_bytes px) = (3 * length px)%nat.
Proof.
  induction px as [|p px IH]; [reflexivity|].
  unfold pixel_bytes in *. cbn [flat_map length app]. rewrite IH. lia.
Qed.

Lemma service_grayscale (px : list (byte * byte * byte)) (tail : list byte) :
  (length tail < 3)%nat ->
  Service.processImageData (pixel_bytes px ++ tail) "grayscale"
  = (pixel_bytes (map gray_pixel px) ++ tail, []).
Proof.
  intros Ht. unfold Service.processImageData.
  cbn [String.eqb Ascii.eqb Bool.eqb]. f_equal.
  apply (grayscale_loop_from px _ [] tail Ht).
  rewrite length_app, length_pixel_bytes. lia.
Qed.

(** A string that is none of the three the service compares against falls
    through to the last branch. *)
Lemma service_unknown (b : list byte) (operation : string) :
  operation ∉ service_operations ->
  Service.processImageData b operation
  = (b, [String.append "Unknown operation: " operation]).
Proof.
  intros Hop. unfold Service.processImageData.
  destruct (String.eqb_spec operation "invert") as [->|_].
  { exfalso. apply Hop. apply list_elem_of_here. }
  destruct (String.eqb_spec operation "grayscale") as [->|_].
  { exfalso. apply Hop. apply list_elem_of_further, list_elem_of_here. }
  destruct (String.eqb_spec operation "noop") as [->|_].
  { exfalso. apply Hop. do 2 apply list_elem_of_further. apply list_elem_of_here. }
  reflexivity.
Qed.

(** A loop keeps what each of its turns keeps. *)
Lemma for_loop_invariant {St : Type} (P : St -> Prop) (cond : nat -> St -> bool)
    (incr : nat) (body : nat -> St -> St) :
  (forall i s, P s -> P (body i s)) ->
  forall fuel i s, P s -> P (for_loop fuel cond incr body i s).
Proof.
  intros Hbody. induction fuel as [|fuel IH]; intros i s Hs; simpl; [exact Hs|].
  destruct (cond i s); [apply IH, Hbody, Hs | exact Hs].
Qed.

Lemma service_length (b : list byte) (operation : string) :
  length (Service.processImageData b operation).1 = length b.
Proof.
  unfold Service.processImageData.
  destruct (String.eqb operation "invert").
  { cbn [fst]. apply (for_loop_invariant (fun s => length s = length b));
      [|reflexivity].
    intros i s Hs. unfold Service.invert_body.
    destruct (s !! i); [rewrite length_insert|]; exact Hs. }
  destruct (String.eqb operation "grayscale").
  { cbn [fst]. apply (for_loop_invariant (fun s => length s = length b));
      [|reflexivity].
    intros i s Hs. unfold Service.grayscale_body.
    destruct (i + 2 <? length s)%nat; [|exact Hs].
    destruct (s !! i); [|exact Hs].
    destruct (s !! (i + 1)%nat); [|exact Hs].
    destruct (s !! (i + 2)%nat); [|exact Hs].
    rewrite !length_insert. exact Hs. }
  destruct (String.eqb operation "noop"); reflexivity.
Qed.

(** C9: in the gRPC service "invert" is an involution: for every byte
    buffer, of any length, applying [processImageData] with the operation
    "invert" twice gives the buffer back, each byte being mapped to 255
    minus itself. *)
Theorem service_invert_involution (b : list byte) :
  (Service.processImageData b "invert").1 = map invert_byte b /\
  (forall x : byte, byte_to_Z (invert_byte x) = 255 - byte_to_Z x) /\
  (Service.processImageData (Service.processImageData b "invert").1 "invert").1
  = b.
Proof.
  rewrite !service_invert. cbn [fst]. split; [reflexivity|]. split.
  - intros x. pose proof (byte_to_Z_range x). unfold invert_byte.
    apply byte_to_Z_u8. lia.
  - rewrite map_map. unfold invert_byte.
    induction b as [|x b IH]; [reflexivity|].
    cbn [map]. rewrite invert_byte_involutive, IH. reflexivity.
Qed.

(** Induction on a list three elements at a time. *)
Lemma list_ind3 {A : Type} (P : list A -> Prop) :
  P [] -> (forall a, P [a]) -> (forall a b, P [a; b]) ->
  (forall a b c l, P l -> P (a :: b :: c :: l)) ->
  forall l, P l.
Proof.
  intros H0 H1 H2 H3 l.
  enough (P l /\ (forall a, P (a :: l)) /\ (forall a b, P (a :: b :: l)))
    as [Hl _] by exact Hl.
  induction l as [|x l (IH0 & IH1 & IH2)]; [auto|].
  split; [apply IH1|]. split; [intros a; apply IH2|].
  intros a b. apply H3, IH0.
Qed.

(** [group3] cuts every buffer into complete groups and a remainder of
    [length b mod 3] bytes. *)
Lemma group3_spec (b : list byte) :
  b = pixel_bytes (group3 b).1 ++ (group3 b).2 /\
  length (group3 b).2 = (length b mod 3)%nat.
Proof.
  induction b as [|x|x y|r g bl rest [IHb IHlen]] using list_ind3;
    try (split; reflexivity).
  cbn [group3]. destruct (group3 rest) as [px tail]. cbn [fst snd] in *.
  split.
  - unfold pixel_bytes in *. cbn [flat_map app fst snd]. rewrite <- IHb.
    reflexivity.
  - rewrite IHlen. cbn [length].
    replace (S (S (S (length rest)))) with (length rest + 1 * 3)%nat by lia.
    rewrite Nat.Div0.mod_add. reflexivity.
Qed.

(** C10: in the gRPC service "grayscale" on a buffer whose length is not a
    multiple of 3 replaces only the complete groups of three bytes, each by
    the floor of the mean of its bytes; the [length b mod 3] bytes left over
    are returned as they are. *)
Theorem service_grayscale_keeps_remainder (b : list byte) :
  (length b mod 3 <> 0)%nat ->
  let px := (group3 b).1 in
  let tail := (group3 b).2 in
  b = pixel_bytes px ++ tail /\
  length tail = (length b mod 3)%nat /\
  (Service.processImageData b "grayscale").1
  = pixel_bytes (map gray_pixel px) ++ tail /\
  (forall r g bl, byte_to_Z (mean3 r g bl)
                  = (byte_to_Z r + byte_to_Z g + byte_to_Z bl) / 3).
Proof.
  intros _. cbv zeta. destruct (group3_spec b) as [Hb Hlen].
  split; [exact Hb|]. split; [exact Hlen|]. split; [|exact mean3_value].
  rewrite Hb at 1. rewrite service_grayscale; [reflexivity|].
  rewrite Hlen. apply Nat.mod_upper_bound. lia.
Qed.

Lemma service_grayscale_keeps_remainder_witness :
  (Service.processImageData
     [u8 10; u8 20; u8 33; u8 255; u8 255; u8 254; u8 7; u8 9] "grayscale").1
  = pixel_bytes (map gray_pixel [(u8 10, u8 20, u8 33); (u8 255, u8 255, u8 254)])
    ++ [u8 7; u8 9].
Proof.
  apply (service_grayscale_keeps_remainder
           [u8 10; u8 20; u8 33; u8 255; u8 255; u8 254; u8 7; u8 9]).
  vm_compute. discriminate.
Defined.

(** ** The addon's [processImageData] *)

(** A buffer of exactly the assumed size fills the matrix. *)
Lemma bufferToMat_exact (fresh : nat -> byte) (input : list byte) :
  length input = frame_size ->
  Napi.bufferToMat fresh input 256 256 3
  = Napi.Ok (Napi.mkMat 256 256 Napi.CV_8U 3 input).
Proof.
  intros Hlen. rewrite bufferToMat_fits by lia.
  rewrite Hlen, Nat.sub_diag. cbn [seq map]. rewrite app_nil_r. reflexivity.
Qed.

(** The branch of an unknown operation: the matrix is returned as it was
    filled, so a buffer shorter than the matrix comes back with the rest of
    the block behind it. *)
Lemma napi_unknown (fresh : nat -> byte) (cv : Napi.CvLibrary) (avx : bool)
    (input : list byte) (operation : string) :
  operation ∉ known_operations ->
  (length input <= frame_size)%nat ->
  Napi.processImageData fresh cv avx input operation
  = Napi.Ok (input ++ map fresh (seq (length input) (frame_size - length input)),
             [Napi.Print (String.append "Unknown operation: " operation)]).
Proof.
  intros Hop Hlen. unfold Napi.processImageData.
  rewrite bufferToMat_fits by exact Hlen.
  pose proof (bufferToMat_shaped fresh input Hlen) as Hm.
  set (m := Napi.mkMat _ _ _ _ _) in *.
  assert (Napi.dispatch cv avx m operation
          = (m, [Napi.Print (String.append "Unknown operation: " operation)]))
    as ->.
  { unfold Napi.dispatch, known_operations in *.
    repeat match goal with
    | |- context [String.eqb operation ?s] =>
        destruct (String.eqb_spec operation s) as [->|_];
        [exfalso; apply Hop;
         repeat first [apply list_elem_of_here | apply list_elem_of_further]|]
    end.
    reflexivity. }
  destruct (matToBuffer_shaped m Napi.CV_8U 3 ltac:(lia) Hm) as [-> _].
  rewrite take_ge; [reflexivity|].
  destruct Hm as (_ & _ & _ & _ & ->). cbn [Napi.elemSize1]. lia.
Qed.

Lemma bgr2gray_uniform (level : byte -> byte -> byte -> byte) (b g r : byte)
    (n : nat) :
  Napi.bgr2gray_data level (pixel_bytes (replicate n (b, g, r)))
  = replicate n (level b g r).
Proof.
  induction n as [|n IH]; [reflexivity|].
  unfold pixel_bytes in *. cbn [replicate flat_map app fst snd Napi.bgr2gray_data].
  rewrite IH. reflexivity.
Qed.

(** "grayscale" in the addon: one byte per pixel. *)
Lemma napi_grayscale (fresh : nat -> byte) (cv : Napi.CvLibrary) (avx : bool)
    (input : list byte) :
  length input = frame_size ->
  Napi.processImageData fresh cv avx input "grayscale"
  = Napi.Ok (Napi.bgr2gray_data (Napi.gray_level cv) input, []) /\
  length (Napi.bgr2gray_data (Napi.gray_level cv) input) = Z.to_nat (256 * 256).
Proof.
  intros Hlen.
  assert (length (Napi.bgr2gray_data (Napi.gray_level cv) input)
          = Z.to_nat (256 * 256)) as Hgray.
  { apply length_bgr2gray_data. rewrite Hlen. unfold frame_bytes. lia. }
  split; [|exact Hgray].
  unfold Napi.processImageData. rewrite bufferToMat_exact by exact Hlen.
  unfold Napi.dispatch. cbn [String.eqb Ascii.eqb Bool.eqb].
  unfold Napi.matToBuffer, Napi.cvtColor, Napi.total.
  cbn [Napi.rows Napi.cols Napi.channels Napi.data].
  rewrite (proj2 (Nat.leb_le _ _)) by lia.
  rewrite take_ge by lia. reflexivity.
Qed.

Lemma Ok_pair_inj {A B : Type} (a a' : A) (b b' : B) :
  Napi.Ok (a, b) = Napi.Ok (a', b') -> a = a' /\ b = b'.
Proof. intros H. injection H. auto. Qed.

Lemma not_a_real_op_unknown : "not_a_real_op"%string ∉ known_operations.
Proof.
  unfold known_operations. intros H.
  repeat (apply elem_of_cons in H as [H|H]; [discriminate H|]).
  exact (proj1 (elem_of_nil _) H).
Qed.

(** ** C2: unknown operations *)

(** C2, as stated, fails in the addon: a three-byte buffer and the unknown
    operation "not_a_real_op" do not give the buffer back, whatever the
    library and the content of fresh memory (the result is the 196608-byte
    block of the matrix). *)
Lemma passthrough_counterexample :
  ~ (exists fresh cv avx out,
       Napi.processImageData fresh cv avx [u8 1; u8 2; u8 3] "not_a_real_op"
       = Napi.Ok ([u8 1; u8 2; u8 3], out)).
Proof.
  intros (fresh & cv & avx & out & H).
  rewrite (napi_unknown fresh cv avx _ _ not_a_real_op_unknown) in H
    by (cbn [length]; unfold frame_bytes; lia).
  apply Ok_pair_inj in H as [H _]. apply (f_equal length) in H.
  rewrite length_app, length_map, length_seq in H. cbn [length] in H.
  unfold frame_bytes in H. lia.
Qed.

(** C2 (amended): for an operation string that is not in the known set, the
    gRPC service returns every buffer unchanged, and the addon returns a
    buffer unchanged when it has exactly the 256 x 256 x 3 bytes of the
    geometry the addon assumes; no error is raised and the only other effect
    is the line "Unknown operation: ..." on the standard output. *)
Theorem unknown_operation_passthrough (operation : string) :
  operation ∉ known_operations ->
  (forall b : list byte,
     Service.processImageData b operation
     = (b, [String.append "Unknown operation: " operation])) /\
  (forall (fresh : nat -> byte) (cv : Napi.CvLibrary) (avx : bool) (b : list byte),
     length b = frame_size ->
     Napi.processImageData fresh cv avx b operation
     = Napi.Ok (b, [Napi.Print (String.append "Unknown operation: " operation)])).
Proof.
  intros Hop. split.
  - intros b. apply service_unknown. intros Hin. apply Hop.
    unfold service_operations, known_operations in *.
    repeat (apply elem_of_cons in Hin as [->|Hin];
            [repeat first [apply list_elem_of_here | apply list_elem_of_further]|]).
    destruct (proj1 (elem_of_nil _) Hin).
  - intros fresh cv avx b Hlen.
    rewrite napi_unknown by (exact Hop || lia).
    rewrite Hlen, Nat.sub_diag. cbn [seq map]. rewrite app_nil_r. reflexivity.
Qed.

Lemma unknown_operation_passthrough_witness :
  (forall b : list byte,
     Service.processImageData b "not_a_real_op"
     = (b, [String.append "Unknown operation: " "not_a_real_op"])) /\
  (forall (fresh : nat -> byte) (cv : Napi.CvLibrary) (avx : bool) (b : list byte),
     length b = frame_size ->
     Napi.processImageData fresh cv avx b "not_a_real_op"
     = Napi.Ok (b, [Napi.Print (String.append "Unknown operation: " "not_a_real_op")])).
Proof.
  apply (unknown_operation_passthrough "not_a_real_op").
  unfold known_operations. intros H.
  repeat (apply elem_of_cons in H as [H|H]; [discriminate H|]).
  exact (proj1 (elem_of_nil _) H).
Defined.

(** ** C8: a uniform gray image *)

Lemma gray_pixel_uniform (n : nat) :
  map gray_pixel (uniform_gray n) = uniform_gray n.
Proof.
  unfold uniform_gray. induction n as [|n IH]; [reflexivity|].
  cbn [replicate map]. rewrite IH. reflexivity.
Qed.

(** C8, as stated, fails in the addon: for the 256 x 256 image whose pixels
    are all (100, 100, 100), "grayscale" does not return the three-channel
    buffer, whatever the library. *)
Lemma grayscale_shape_counterexample :
  ~ (exists fresh cv avx out,
       Napi.processImageData fresh cv avx
         (pixel_bytes (uniform_gray (Z.to_nat (256 * 256)))) "grayscale"
       = Napi.Ok (pixel_bytes (uniform_gray (Z.to_nat (256 * 256))), out)).
Proof.
  intros (fresh & cv & avx & out & H).
  assert (length (pixel_bytes (uniform_gray (Z.to_nat (256 * 256)))) = frame_size)
    as Hlen.
  { rewrite length_pixel_bytes. unfold uniform_gray.
    rewrite length_replicate. unfold frame_bytes. lia. }
  destruct (napi_grayscale fresh cv avx _ Hlen) as [Heq Hgray].
  rewrite Heq in H. apply Ok_pair_inj in H as [H _].
  rewrite H, Hlen in Hgray. unfold frame_bytes in Hgray. lia.
Qed.

(** What the addon's "grayscale" returns for the 256 x 256 image whose pixels
    are all (100, 100, 100): one byte per pixel, the gray level the library
    gives to (100, 100, 100). *)
Lemma napi_grayscale_uniform (fresh : nat -> byte) (cv : Napi.CvLibrary)
    (avx : bool) :
  Napi.processImageData fresh cv avx
    (pixel_bytes (uniform_gray (Z.to_nat (256 * 256)))) "grayscale"
  = Napi.Ok (replicate (Z.to_nat (256 * 256))
               (Napi.gray_level cv (u8 100) (u8 100) (u8 100)), []).
Proof.
  assert (length (pixel_bytes (uniform_gray (Z.to_nat (256 * 256)))) = frame_size)
    as Hlen.
  { rewrite length_pixel_bytes. unfold uniform_gray.
    rewrite length_replicate. unfold frame_bytes. lia. }
  destruct (napi_grayscale fresh cv avx _ Hlen) as [-> _].
  unfold uniform_gray. rewrite bgr2gray_uniform. reflexivity.
Qed.

(** The mean of three equal channels is the channel. *)
Lemma mean3_equal (x : byte) : mean3 x x x = x.
Proof.
  unfold mean3.
  replace (byte_to_Z x + byte_to_Z x + byte_to_Z x) with (byte_to_Z x * 3) by lia.
  rewrite Z.div_mul by lia. apply u8_byte_to_Z.
Qed.

(** C8 (amended): in the gRPC service, for a buffer in which every pixel is
    (100, 100, 100), "grayscale" returns a buffer in which every pixel is
    (100, 100, 100): the mean of equal channels is itself, and the output
    keeps the three-channel shape of the input. *)
Theorem grayscale_of_uniform_gray (n : nat) :
  (Service.processImageData (pixel_bytes (uniform_gray n)) "grayscale").1
  = pixel_bytes (uniform_gray n) /\
  (forall x : byte, gray_pixel (x, x, x) = (x, x, x)).
Proof.
  split.
  - pose proof (service_grayscale (uniform_gray n) [] ltac:(simpl; lia)) as H.
    rewrite !app_nil_r, gray_pixel_uniform in H. rewrite H. reflexivity.
  - intros x. unfold gray_pixel. cbn [fst snd]. rewrite mean3_equal. reflexivity.
Qed.

(** ** C5: the length of the output *)

(** C5, as stated, fails in the addon: on a buffer of the assumed geometry
    (196608 bytes) "grayscale" cannot return as many bytes as it was given,
    whatever the library. *)
Lemma size_invariant_counterexample :
  ~ (exists fresh cv avx buffer out,
       Napi.processImageData fresh cv avx (replicate frame_size Byte.x00)
         "grayscale" = Napi.Ok (buffer, out) /\
       length buffer = length (replicate frame_size Byte.x00)).
Proof.
  intros (fresh & cv & avx & buffer & out & H & Hsame).
  destruct (napi_grayscale fresh cv avx (replicate frame_size Byte.x00)
              (length_replicate _ _)) as [Heq Hgray].
  rewrite Heq in H. apply Ok_pair_inj in H as [H _]. subst buffer.
  rewrite Hgray, length_replicate in Hsame. unfold frame_bytes in Hsame. lia.
Qed.

(** C5 (amended): in the gRPC service the output of [processImageData] has
    the byte length of the input, for every buffer and every operation.  In
    the addon, on a buffer of the assumed 256 x 256 x 3 geometry, every
    operation other than "grayscale" returns as many bytes as it was
    given. *)
Theorem output_length (cv : Napi.CvLibrary) (operation : string) :
  CvContract cv ->
  (forall b : list byte,
     length (Service.processImageData b operation).1 = length b) /\
  (forall (fresh : nat -> byte) (avx : bool) (b : list byte),
     length b = frame_size ->
     operation <> "grayscale"%string ->
     exists buffer out,
       Napi.processImageData fresh cv avx b operation = Napi.Ok (buffer, out) /\
       length buffer = length b).
Proof.
  intros contract. split; [intros b; apply service_length|].
  intros fresh avx b Hlen Hop.
  destruct (processImageData_fits cv contract fresh avx b operation ltac:(lia))
    as (buffer & out & Heq & Hbuf).
  exists buffer, out. split; [exact Heq|].
  rewrite Hbuf, Hlen. unfold frame_bytes.
  destruct (String.eqb_spec operation "grayscale"); [contradiction | lia].
Qed.

Lemma output_length_witness :
  (forall b : list byte,
     length (Service.processImageData b "hdr").1 = length b) /\
  (forall (fresh : nat -> byte) (avx : bool) (b : list byte),
     length b = frame_size ->
     "hdr"%string <> "grayscale"%string ->
     exists buffer out,
       Napi.processImageData fresh zero_library avx b "hdr"
       = Napi.Ok (buffer, out) /\
       length buffer = length b).
Proof.
  apply (output_length zero_library "hdr").
  constructor; intros; unfold shaped, zeros; cbn;
    repeat split; apply length_replicate.
Defined.

(** ** C1: the two paths of the byte reordering *)

(** C1, as stated, fails: on the 32 bytes 0, 1, ..., 31 the AVX path and the
    path taken without AVX give different buffers. *)
Lemma simd_paths_counterexample :
  (Napi.vectorizedColorConversion true
     (map (fun k => u8 (Z.of_nat k)) (seq 0 32)) 32).1
  <> (Napi.vectorizedColorConversion false
        (map (fun k => u8 (Z.of_nat k)) (seq 0 32)) 32).1.
Proof. vm_compute. discriminate. Qed.

Lemma length_shuffled_chunks (chunks : list (list byte)) :
  Forall (fun c => length c = 32%nat) chunks ->
  length (concat (map swap_red_blue chunks)) = (32 * length chunks)%nat /\
  length (concat chunks) = (32 * length chunks)%nat.
Proof.
  induction 1 as [|c cs Hc _ [IH1 IH2]]; [split; reflexivity|].
  cbn [map concat length]. rewrite !length_app, length_swap_red_blue, IH1, IH2, Hc.
  lia.
Qed.

(** C1 (amended): the byte reordering has no scalar implementation of the
    shuffle.  Without AVX the buffer is left as it is
    ([vectorizedColorConversion] returns at once, [applySIMDOptimization]
    prints that it skips the optimization).  With AVX every complete chunk
    of 32 bytes has bytes 0 and 2 of each group of four exchanged, and the
    final remainder shorter than a chunk is left as it is.  So the two paths
    give outputs of the length of the input that agree on the remainder, and
    on the whole of any buffer shorter than 32 bytes. *)
Theorem simd_paths_agree_on_remainder (data : list byte) :
  let vector := (Napi.vectorizedColorConversion true data (length data)).1 in
  let scalar := (Napi.vectorizedColorConversion false data (length data)).1 in
  scalar = data /\
  (forall image : Napi.Mat,
     Napi.applySIMDOptimization false image
     = (image, [Napi.Print "AVX not supported, skipping SIMD optimization"])) /\
  vector = concat (map swap_red_blue (chunks32 data)) ++ tail32 data /\
  data = concat (chunks32 data) ++ tail32 data /\
  length vector = length data /\
  drop (32 * (length data / 32)) vector = drop (32 * (length data / 32)) scalar /\
  ((length data < 32)%nat -> vector = scalar).
Proof.
  cbv zeta. rewrite vectorized_avx. cbn [fst].
  destruct (chunks32_spec data) as (Hdata & Hall & Ht & Hlen).
  destruct (length_shuffled_chunks _ Hall) as [Hshuf Hplain].
  change (Napi.vectorizedColorConversion false data (length data)).1 with data.
  repeat split.
  - symmetry. exact Hdata.
  - rewrite length_app, Hshuf, <- Hplain, <- length_app, Hdata. reflexivity.
  - rewrite <- Hdata at 5. rewrite <- Hlen.
    rewrite !drop_app_length' by (symmetry; assumption). reflexivity.
  - intros Hshort. rewrite <- Hdata at 3.
    destruct (chunks32 data) as [|c cs]; [reflexivity|].
    cbn [length] in Hlen. rewrite Nat.div_small in Hlen by exact Hshort.
    discriminate Hlen.
Qed.

(** ** The heap of the caller *)

Section Heap.

Context {double : Type} `{DoubleArith double}.

Implicit Types (h : list (@Napi.JsObject double)) (v : @Napi.JsValue double).

Lemma length_js_set h l key v : length (Napi.js_set h l key v) = length h.
Proof.
  unfold Napi.js_set. destruct (h !! l) as [[bytes|props]|]; try reflexivity.
  apply length_insert.
Qed.

Lemma js_set_other h l key v l' :
  l <> l' -> Napi.js_set h l key v !! l' = h !! l'.
Proof.
  intros Hne. unfold Napi.js_set.
  destruct (h !! l) as [[bytes|props]|]; try reflexivity.
  apply list_lookup_insert_ne, Hne.
Qed.

(** [Set] on the object allocated last. *)
Lemma js_set_last h props key v :
  Napi.js_set (h ++ [Napi.JsObj props]) (length h) key v
  = h ++ [Napi.JsObj (<[key := v]> props)].
Proof.
  unfold Napi.js_set. rewrite list_lookup_middle by reflexivity.
  rewrite insert_app_r_alt, Nat.sub_diag by lia. reflexivity.
Qed.

Lemma js_set_same h l props key v :
  h !! l = Some (Napi.JsObj props) ->
  Napi.js_set h l key v !! l = Some (Napi.JsObj (<[key := v]> props)).
Proof.
  intros Hl. unfold Napi.js_set. rewrite Hl.
  apply list_lookup_insert_eq. eapply lookup_lt_Some, Hl.
Qed.

(** One turn of the loop of [GetMetrics] allocates one object and writes
    only to it and to [operations]. *)
Lemma getmetrics_step_frame (operations : nat) h
    (averages : gmap string double) (op : string * Z) :
  let acc := Napi.getmetrics_step operations (h, averages) op in
  (length h <= length acc.1)%nat /\
  (forall l, (l < length h)%nat -> l <> operations -> acc.1 !! l = h !! l) /\
  (is_Some (averages !! op.1) -> acc.2 = averages).
Proof.
  cbv zeta. unfold Napi.getmetrics_step, Napi.js_alloc, Napi.index_or_insert.
  rewrite js_set_last.
  destruct (averages !! op.1) as [avg|] eqn:Havg; rewrite js_set_last; cbn [fst snd].
  - rewrite length_js_set, length_app. cbn [length]. split; [lia|split].
    + intros l Hl Hne. rewrite js_set_other by congruence.
      apply lookup_app_l, Hl.
    + reflexivity.
  - rewrite length_js_set, length_app. cbn [length]. split; [lia|split].
    + intros l Hl Hne. rewrite js_set_other by congruence.
      apply lookup_app_l, Hl.
    + intros [x Hx]. discriminate Hx.
Qed.

Lemma getmetrics_loop_frame (operations : nat) (ops : list (string * Z)) :
  forall h (averages : gmap string double),
    let acc := foldl (Napi.getmetrics_step operations) (h, averages) ops in
    (length h <= length acc.1)%nat /\
    (forall l, (l < length h)%nat -> l <> operations -> acc.1 !! l = h !! l) /\
    ((forall op, op ∈ ops -> is_Some (averages !! op.1)) -> acc.2 = averages).
Proof.
  induction ops as [|op ops IH]; intros h averages; cbv zeta.
  - cbn [foldl fst snd]. split; [lia|split]; reflexivity.
  - cbn [foldl].
    pose proof (getmetrics_step_frame operations h averages op) as Hstep.
    cbv zeta in Hstep.
    destruct (Napi.getmetrics_step operations (h, averages) op) as [h1 a1].
    cbn [fst snd] in Hstep. destruct Hstep as (Hlen1 & Hframe1 & Havg1).
    specialize (IH h1 a1). cbv zeta in IH. destruct IH as (Hlen & Hframe & Havg).
    split; [|split].
    + lia.
    + intros l Hl Hne. rewrite Hframe by (lia || exact Hne).
      apply Hframe1; assumption.
    + intros Hall.
      assert (a1 = averages) as -> by (apply Havg1, Hall; left).
      apply Havg. intros op' Hin. apply Hall. right. exact Hin.
Qed.

End Heap.

(** ** What the operations print *)

Lemma dispatch_trace (cv : Napi.CvLibrary) (avx : bool) (m : Napi.Mat)
    (operation : string) :
  Napi.channels m = 3 ->
  Napi.VectorPath ∈ (Napi.dispatch cv avx m operation).2 <->
  String.eqb operation "simd_optimize" && avx = true.
Proof.
  intros Hch. unfold Napi.dispatch.
  repeat match goal with
  | |- context [if String.eqb operation ?s then _ else _] =>
      lazymatch s with
      | "simd_optimize"%string => fail
      | _ => destruct (String.eqb_spec operation s) as [->|_];
             [cbn; split; [intros Hin; apply elem_of_nil in Hin; contradiction
                          | discriminate]|]
      end
  end.
  destruct (String.eqb operation "simd_optimize").
  - unfold Napi.applySIMDOptimization, Napi.avxImageProcessing.
    rewrite clone_eq, Hch. change (3 =? 3) with true.
    destruct avx; cbn [negb andb].
    + unfold Napi.vectorizedColorConversion. cbn [negb snd].
      split; [reflexivity | intros _; apply list_elem_of_here].
    + cbn [snd]. split; [|discriminate].
      intros Hin. apply list_elem_of_singleton in Hin. discriminate Hin.
  - cbn [andb snd]. split; [|discriminate].
    intros Hin. apply list_elem_of_singleton in Hin. discriminate Hin.
Qed.

(** The AVX loop has run in a call of [processImageData] exactly when the
    operation is "simd_optimize" and the processor supports AVX. *)
Lemma processImageData_trace (fresh : nat -> byte) (cv : Napi.CvLibrary)
    (avx : bool) (input : list byte) (operation : string)
    (buffer : list byte) (out : list Napi.event) :
  Napi.processImageData fresh cv avx input operation = Napi.Ok (buffer, out) ->
  Napi.VectorPath ∈ out <-> String.eqb operation "simd_optimize" && avx = true.
Proof.
  unfold Napi.processImageData, Napi.bufferToMat.
  change (if 3 =? 3 then 3 else 1) with 3.
  destruct (length input <=? _)%nat; [|discriminate].
  pose proof (dispatch_trace cv avx
    (Napi.mkMat 256 256 Napi.CV_8U 3
       (input ++ map fresh (seq (length input)
                              (Z.to_nat (256 * 256 * 3) - length input))))
    operation eq_refl) as Htrace.
  destruct (Napi.dispatch cv avx _ operation) as [resultMat out'].
  destruct (Napi.matToBuffer resultMat); [|discriminate].
  intros Heq. apply Ok_pair_inj in Heq as [_ <-]. exact Htrace.
Qed.

(** ** The methods of the addon *)

Section Methods.

Context {double : Type} `{DoubleArith double}.
Variable fresh : nat -> byte.
Variable cv : Napi.CvLibrary.

Implicit Types (this : @Napi.ImageProcessor double)
  (h : list (@Napi.JsObject double)) (info : list (@Napi.JsValue double)).

(** [GetMetrics]: a new object is returned; no object of the heap is
    written; the object reports the flags and counters of the processor;
    and the processor is left as it was when every counted operation has an
    average. *)
Lemma GetMetrics_spec this h info :
  let r := Napi.GetMetrics this h info in
  Napi.returned r = Napi.JsRef (length h) /\
  (forall l o, h !! l = Some o -> Napi.js_heap r !! l = Some o) /\
  Napi.property_in (Napi.js_heap r) (Napi.returned r) "avxUsed"
  = Some (Napi.JsBoolean (Napi.avx_used (Napi.metrics_ this))) /\
  Napi.property_in (Napi.js_heap r) (Napi.returned r) "totalProcessed"
  = Some (Napi.JsNumber (d_of_uint64 (Napi.total_processed (Napi.metrics_ this)))) /\
  (metrics_inv (Napi.metrics_ this) -> Napi.self r = this) /\
  Napi.avx_used (Napi.metrics_ (Napi.self r)) = Napi.avx_used (Napi.metrics_ this) /\
  Napi.avx_supported_ (Napi.self r) = Napi.avx_supported_ this.
Proof.
  cbv zeta. unfold Napi.GetMetrics, Napi.js_alloc. rewrite !js_set_last.
  set (props := <["memoryAllocated"%string := _]> _).
  pose proof (getmetrics_loop_frame (length (h ++ [Napi.JsObj props]))
    (map_to_list (Napi.operation_count (Napi.metrics_ this)))
    ((h ++ [Napi.JsObj props]) ++ [Napi.JsObj ∅])
    (Napi.operation_avg_time (Napi.metrics_ this))) as Hloop.
  cbv zeta in Hloop.
  destruct (foldl _ _ _) as [h' averages]. cbn [fst snd] in Hloop.
  destruct Hloop as (Hlen & Hframe & Havg).
  rewrite !length_app in Hlen, Hframe. cbn [length] in Hlen, Hframe.
  cbn [Napi.returned Napi.js_heap Napi.self].
  assert (h' !! length h = Some (Napi.JsObj props)) as Hmetrics.
  { rewrite Hframe by (rewrite ?length_app; cbn [length]; lia).
    rewrite lookup_app_l by (rewrite length_app; cbn [length]; lia).
    apply list_lookup_middle. reflexivity. }
  split; [reflexivity|]. split; [|split; [|split; [|split; [|split; reflexivity]]]].
  - intros l o Hl. pose proof (lookup_lt_Some _ _ _ Hl) as Hlt.
    rewrite js_set_other by lia.
    rewrite Hframe by (rewrite ?length_app; cbn [length]; lia).
    rewrite !lookup_app_l by (rewrite ?length_app; cbn [length]; lia).
    exact Hl.
  - unfold Napi.property_in.
    rewrite (js_set_same _ _ _ _ _ Hmetrics). unfold props.
    rewrite !lookup_insert_ne by discriminate. apply lookup_insert_eq.
  - unfold Napi.property_in.
    rewrite (js_set_same _ _ _ _ _ Hmetrics). unfold props.
    rewrite !lookup_insert_ne by discriminate. apply lookup_insert_eq.
  - intros Hinv. rewrite Havg.
    + destruct this as [[] ? ?]. reflexivity.
    + intros [key count] Hin. apply elem_of_map_to_list in Hin.
      apply Hinv. cbn [fst]. eauto.
Qed.

(** The update of the metrics keeps the invariant, and sets the AVX flag
    exactly for a "simd_optimize" on a processor that supports AVX. *)
Lemma update_metrics_spec (m : @Napi.Metrics double) (avx : bool)
    (operation : string) (t : double) :
  let m' := Napi.update_metrics m avx operation t in
  (metrics_inv m -> metrics_inv m') /\
  Napi.avx_used m'
  = (String.eqb operation "simd_optimize" && avx) || Napi.avx_used m /\
  Napi.total_processed m' = wrap64 (Napi.total_processed m + 1).
Proof.
  cbv zeta. unfold Napi.update_metrics.
  cbn [Napi.avx_used Napi.total_processed]. split; [|split].
  - intros Hinv key. cbn [Napi.operation_count Napi.operation_avg_time].
    destruct (decide (operation = key)) as [->|Hne].
    + rewrite !lookup_insert_eq. eauto.
    + rewrite !lookup_insert_ne by exact Hne. apply Hinv.
  - destruct (String.eqb operation "simd_optimize" && avx); reflexivity.
  - reflexivity.
Qed.

(** [ProcessImage], when its behaviour is defined: no object of the heap is
    written, the invariant of the metrics is kept, and the AVX flag is set
    when the AVX loop has run and otherwise keeps its value. *)
Lemma ProcessImage_spec this h info (t : double) (r : Napi.CallResult) :
  Napi.ProcessImage fresh cv this h info t = Napi.Ok r ->
  (forall l o, h !! l = Some o -> Napi.js_heap r !! l = Some o) /\
  (metrics_inv (Napi.metrics_ this) -> metrics_inv (Napi.metrics_ (Napi.self r))) /\
  (Napi.avx_used (Napi.metrics_ (Napi.self r)) = true <->
   Napi.VectorPath ∈ Napi.events r \/ Napi.avx_used (Napi.metrics_ this) = true) /\
  Napi.avx_supported_ (Napi.self r) = Napi.avx_supported_ this.
Proof.
  assert (forall message,
    let r := Napi.throw_TypeError this h message in
    (forall l o, h !! l = Some o -> Napi.js_heap r !! l = Some o) /\
    (metrics_inv (Napi.metrics_ this) -> metrics_inv (Napi.metrics_ (Napi.self r))) /\
    (Napi.avx_used (Napi.metrics_ (Napi.self r)) = true <->
     Napi.VectorPath ∈ Napi.events r \/ Napi.avx_used (Napi.metrics_ this) = true) /\
    Napi.avx_supported_ (Napi.self r) = Napi.avx_supported_ this) as Hthrow.
  { intros message. cbv zeta. cbn. repeat split; auto.
    intros [Hin|Hflag]; [apply elem_of_nil in Hin; contradiction | exact Hflag]. }
  unfold Napi.ProcessImage.
  destruct (length info <? 2)%nat.
  { intros Heq. injection Heq as <-. apply Hthrow. }
  destruct (info !! 0%nat ≫= Napi.as_buffer h) as [input|].
  2:{ intros Heq. injection Heq as <-. apply Hthrow. }
  destruct (info !! 1%nat) as [[| | |operation|]|];
    try (intros Heq; injection Heq as <-; apply Hthrow).
  destruct (Napi.processImageData fresh cv (Napi.avx_supported_ this) input operation)
    as [[result out]|] eqn:Hdata; [|discriminate].
  apply processImageData_trace in Hdata.
  unfold Napi.js_alloc. intros Heq. injection Heq as <-.
  cbn [Napi.js_heap Napi.self Napi.metrics_ Napi.events Napi.avx_supported_].
  destruct (update_metrics_spec (Napi.metrics_ this) (Napi.avx_supported_ this)
              operation t) as (Hinv & Hflag & _).
  repeat split; try assumption.
  - intros l o Hl. rewrite lookup_app_l by (eapply lookup_lt_Some, Hl). exact Hl.
  - rewrite Hflag, orb_true_iff, <- Hdata. tauto.
  - rewrite Hflag, orb_true_iff, <- Hdata. tauto.
Qed.

(** A session keeps every object of the heap, the invariant of the metrics,
    the capability of the processor and, once set, the AVX flag. *)
Lemma run_spec (calls : list Napi.call) :
  forall this h this' h',
    Napi.run fresh cv this h calls = Napi.Ok (this', h') ->
    (forall l o, h !! l = Some o -> h' !! l = Some o) /\
    (metrics_inv (Napi.metrics_ this) -> metrics_inv (Napi.metrics_ this')) /\
    (Napi.avx_used (Napi.metrics_ this) = true ->
     Napi.avx_used (Napi.metrics_ this') = true) /\
    Napi.avx_supported_ this' = Napi.avx_supported_ this.
Proof.
  induction calls as [|c calls IH]; intros this h this' h' Hrun.
  - cbn [Napi.run] in Hrun. injection Hrun as <- <-. auto.
  - cbn [Napi.run] in Hrun.
    destruct (Napi.do_call fresh cv this h c) as [r|] eqn:Hcall; [|discriminate].
    destruct (IH _ _ _ _ Hrun) as (Hheap & Hinv & Hflag & Hcap).
    assert ((forall l o, h !! l = Some o -> Napi.js_heap r !! l = Some o) /\
            (metrics_inv (Napi.metrics_ this) ->
             metrics_inv (Napi.metrics_ (Napi.self r))) /\
            (Napi.avx_used (Napi.metrics_ this) = true ->
             Napi.avx_used (Napi.metrics_ (Napi.self r)) = true) /\
            Napi.avx_supported_ (Napi.self r) = Napi.avx_supported_ this)
      as (Hheap1 & Hinv1 & Hflag1 & Hcap1).
    { destruct c as [info t|info]; cbn [Napi.do_call] in Hcall.
      - destruct (ProcessImage_spec _ _ _ _ _ Hcall) as (Hh & Hi & Hf & Hc).
        repeat split; try assumption. intros Hset. apply Hf. right. exact Hset.
      - injection Hcall as <-.
        pose proof (GetMetrics_spec this h info) as Hget. cbv zeta in Hget.
        destruct Hget as (_ & Hh & _ & _ & Hself & Hf & Hc).
        split; [exact Hh|]. split; [|split; [|exact Hc]].
        + intros Hinv0. rewrite (Hself Hinv0). exact Hinv0.
        + intros Hset. rewrite Hf. exact Hset. }
    repeat split; try rewrite Hcap; auto.
Qed.

End Methods.

(** [ProcessImage] on a buffer that fits the assumed geometry, whatever its
    length: a result buffer is allocated and returned, nothing is thrown,
    and the completion is recorded. *)
Lemma ProcessImage_accepts {double : Type} `{DoubleArith double}
    (cv : Napi.CvLibrary) (contract : CvContract cv) (fresh : nat -> byte)
    (this : Napi.ImageProcessor) (h : list Napi.JsObject) (l : nat)
    (input : list byte) (operation : string) (rest : list Napi.JsValue)
    (t : double) :
  h !! l = Some (Napi.JsBuffer input) ->
  (length input <= frame_size)%nat ->
  exists result out,
    Napi.ProcessImage fresh cv this h
      (Napi.JsRef l :: Napi.JsString operation :: rest) t
    = Napi.Ok
        {| Napi.returned := Napi.JsRef (length h);
           Napi.pending_exception := None;
           Napi.self :=
             {| Napi.metrics_ :=
                  Napi.update_metrics (Napi.metrics_ this)
                    (Napi.avx_supported_ this) operation t;
                Napi.initialized_ := Napi.initialized_ this;
                Napi.avx_supported_ := Napi.avx_supported_ this |};
           Napi.js_heap := h ++ [Napi.JsBuffer result];
           Napi.events := out |} /\
    Napi.processImageData fresh cv (Napi.avx_supported_ this) input operation
    = Napi.Ok (result, out).
Proof.
  intros Hl Hlen.
  destruct (processImageData_fits cv contract fresh (Napi.avx_supported_ this)
              input operation Hlen) as (result & out & Hdata & _).
  exists result, out. split; [|exact Hdata]. unfold Napi.ProcessImage.
  cbn [length Nat.ltb Nat.leb lookup list_lookup mbind option_bind Napi.as_buffer].
  rewrite Hl, Hdata. reflexivity.
Qed.

(** On a processor that supports AVX a "simd_optimize" runs the AVX loop and
    sets the flag; any other operation leaves the flag as it was, whether
    AVX is supported or not. *)
Lemma simd_optimize_sets_flag {double : Type} `{DoubleArith double}
    (cv : Napi.CvLibrary) (contract : CvContract cv) (fresh : nat -> byte)
    (this : Napi.ImageProcessor) (h : list Napi.JsObject) (l : nat)
    (input : list byte) (rest : list Napi.JsValue) (t : double) :
  h !! l = Some (Napi.JsBuffer input) ->
  (length input <= frame_size)%nat ->
  Napi.avx_supported_ this = true ->
  exists r,
    Napi.ProcessImage fresh cv this h
      (Napi.JsRef l :: Napi.JsString "simd_optimize" :: rest) t = Napi.Ok r /\
    Napi.VectorPath ∈ Napi.events r /\
    Napi.avx_used (Napi.metrics_ (Napi.self r)) = true.
Proof.
  intros Hl Hlen Havx.
  destruct (ProcessImage_accepts cv contract fresh this h l input "simd_optimize"
              rest t Hl Hlen) as (result & out & Hcall & Hdata).
  eexists. split; [exact Hcall|].
  apply processImageData_trace in Hdata. rewrite Havx in Hdata.
  cbn [Napi.events Napi.self Napi.metrics_]. split; [apply Hdata; reflexivity|].
  unfold Napi.update_metrics. cbn [Napi.avx_used]. rewrite Havx. reflexivity.
Qed.

Lemma other_operation_keeps_flag {double : Type} `{DoubleArith double}
    (fresh : nat -> byte) (cv : Napi.CvLibrary)
    (this : Napi.ImageProcessor) (h : list Napi.JsObject)
    (l : nat) (operation : string) (rest : list Napi.JsValue) (t : double)
    (r : Napi.CallResult) :
  operation <> "simd_optimize"%string ->
  Napi.ProcessImage fresh cv this h
    (Napi.JsRef l :: Napi.JsString operation :: rest) t = Napi.Ok r ->
  (Napi.VectorPath ∉ Napi.events r) /\
  Napi.avx_used (Napi.metrics_ (Napi.self r))
  = Napi.avx_used (Napi.metrics_ this).
Proof.
  intros Hop. unfold Napi.ProcessImage.
  cbn [length Nat.ltb Nat.leb lookup list_lookup mbind option_bind].
  destruct (Napi.as_buffer h (Napi.JsRef l)) as [input|].
  2:{ intros Heq. injection Heq as <-. cbn. split; [apply not_elem_of_nil|reflexivity]. }
  destruct (Napi.processImageData fresh cv (Napi.avx_supported_ this) input operation)
    as [[result out]|] eqn:Hdata; [|discriminate].
  apply processImageData_trace in Hdata.
  unfold Napi.js_alloc. intros Heq. injection Heq as <-.
  cbn [Napi.events Napi.self Napi.metrics_].
  destruct (String.eqb_spec operation "simd_optimize") as [Heq|_];
    [contradiction|].
  cbn [andb] in Hdata. split.
  - intros Hin. apply Hdata in Hin. discriminate Hin.
  - unfold Napi.update_metrics. cbn [Napi.avx_used].
    destruct (String.eqb_spec operation "simd_optimize") as [Heq|_];
      [contradiction | reflexivity].
Qed.

(** ** C6: the AVX flag *)

(** C6: the flag [avx_used] is set by a completion exactly when the AVX loop
    has run in it (and not when AVX is merely supported); once a completion
    has set it, the snapshot [GetMetrics] returns reports it as true after
    any further calls, whatever path they take. *)
Theorem avx_flag_monotone {double : Type} `{DoubleArith double}
    (fresh : nat -> byte) (cv : Napi.CvLibrary) :
  (forall this h info (t : double) r,
     Napi.ProcessImage fresh cv this h info t = Napi.Ok r ->
     (Napi.avx_used (Napi.metrics_ (Napi.self r)) = true <->
      Napi.VectorPath ∈ Napi.events r \/
      Napi.avx_used (Napi.metrics_ this) = true)) /\
  (forall this h info (t : double) r calls this' h' info',
     Napi.ProcessImage fresh cv this h info t = Napi.Ok r ->
     Napi.VectorPath ∈ Napi.events r ->
     Napi.run fresh cv (Napi.self r) (Napi.js_heap r) calls = Napi.Ok (this', h') ->
     Napi.avx_used (Napi.metrics_ this') = true /\
     let snapshot := Napi.GetMetrics this' h' info' in
     Napi.property_in (Napi.js_heap snapshot) (Napi.returned snapshot) "avxUsed"
     = Some (Napi.JsBoolean true)).
Proof.
  split.
  - intros this h info t r Hcall.
    exact (proj1 (proj2 (proj2 (ProcessImage_spec fresh cv _ _ _ _ _ Hcall)))).
  - intros this h info t r calls this' h' info' Hcall Hvec Hrun.
    destruct (ProcessImage_spec fresh cv _ _ _ _ _ Hcall) as (_ & _ & Hflag & _).
    destruct (run_spec fresh cv calls _ _ _ _ Hrun) as (_ & _ & Hkeep & _).
    assert (Napi.avx_used (Napi.metrics_ this') = true) as Hset
      by (apply Hkeep, Hflag; left; exact Hvec).
    split; [exact Hset|]. cbv zeta.
    pose proof (GetMetrics_spec this' h' info') as Hget. cbv zeta in Hget.
    destruct Hget as (_ & _ & Hprop & _). rewrite Hprop, Hset. reflexivity.
Qed.

(** ** C7: [GetMetrics] *)

Lemma initializeProcessor_inv {double : Type} `{DoubleArith double} (ecx : Z) :
  metrics_inv (Napi.metrics_ (Napi.initializeProcessor (double := double) ecx).1).
Proof.
  intros key [count Hcount]. cbn in Hcount.
  rewrite lookup_empty in Hcount. discriminate Hcount.
Qed.

(** C7: [GetMetrics] leaves the metrics as they are, in the addon (in every
    state a processor can reach from its initialisation) and in the gRPC
    service, and it prints and throws nothing; the snapshot it returns is a
    copy: the calls made afterwards write to none of the objects that exist
    when it returns, so the properties of the returned object read the same
    after them. *)
Theorem getMetrics_read_only {double : Type} `{DoubleArith double}
    (fresh : nat -> byte) (cv : Napi.CvLibrary) :
  (forall ecx h0 calls this h info,
     Napi.run fresh cv (Napi.initializeProcessor (double := double) ecx).1 h0 calls
     = Napi.Ok (this, h) ->
     let snapshot := Napi.GetMetrics this h info in
     Napi.self snapshot = this /\
     Napi.events snapshot = [] /\
     Napi.pending_exception snapshot = None) /\
  (forall this h info calls this' h',
     let snapshot := Napi.GetMetrics (double := double) this h info in
     Napi.run fresh cv (Napi.self snapshot) (Napi.js_heap snapshot) calls
     = Napi.Ok (this', h') ->
     (forall l o, Napi.js_heap snapshot !! l = Some o -> h' !! l = Some o) /\
     (forall key,
        is_Some (Napi.property_in (Napi.js_heap snapshot) (Napi.returned snapshot) key) ->
        Napi.property_in h' (Napi.returned snapshot) key
        = Napi.property_in (Napi.js_heap snapshot) (Napi.returned snapshot) key)) /\
  (forall (m : Service.ServiceMetrics) (response : Service.MetricsResponse (double := double)),
     let reply := Service.GetMetrics m response in
     Service.reply_metrics reply = m /\
     Service.reply_stdout reply = [] /\
     Service.reply_status reply = Service.OK).
Proof.
  split; [|split].
  - intros ecx h0 calls this h info Hrun. cbv zeta.
    destruct (run_spec fresh cv calls _ _ _ _ Hrun) as (_ & Hinv & _).
    pose proof (GetMetrics_spec this h info) as Hget. cbv zeta in Hget.
    destruct Hget as (_ & _ & _ & _ & Hself & _).
    split; [apply Hself, Hinv, initializeProcessor_inv|].
    unfold Napi.GetMetrics.
    destruct (Napi.js_alloc _ _) as [metrics h1].
    destruct (Napi.js_alloc _ _) as [operations h2].
    destruct (foldl _ _ _) as [h3 averages]. split; reflexivity.
  - intros this h info calls this' h'. cbv zeta. intros Hrun.
    destruct (run_spec fresh cv calls _ _ _ _ Hrun) as (Hheap & _).
    split; [exact Hheap|].
    intros key [v Hv]. rewrite Hv. unfold Napi.property_in in *.
    destruct (Napi.returned (Napi.GetMetrics this h info)) as [| | | |l];
      try discriminate Hv.
    destruct (Napi.js_heap (Napi.GetMetrics this h info) !! l) as [o|] eqn:Hl;
      [|discriminate Hv].
    rewrite (Hheap _ _ Hl). exact Hv.
  - intros m response. cbv zeta. repeat split.
Qed.

(** ** C3: the length of the buffer is not checked *)

(** C3, as stated, fails: a buffer of three bytes disagrees with
    256 x 256 x 3, and [ProcessImage] neither fails nor throws on it; the
    request is counted in the metrics. *)
Lemma size_mismatch_counterexample :
  exists r,
    Napi.ProcessImage (double := Q) zero_memory zero_library
      (Napi.initializeProcessor 0).1 [Napi.JsBuffer [u8 1; u8 2; u8 3]]
      [Napi.JsRef 0; Napi.JsString "noop"] 5%Q = Napi.Ok r /\
    Napi.pending_exception r = None /\
    Napi.total_processed (Napi.metrics_ (Napi.self r)) = 1 /\
    Z.of_nat (length [u8 1; u8 2; u8 3]) <> 256 * 256 * 3.
Proof.
  destruct (ProcessImage_accepts (double := Q) zero_library zero_library_contract
              zero_memory (Napi.initializeProcessor 0).1
              [Napi.JsBuffer [u8 1; u8 2; u8 3]] 0 [u8 1; u8 2; u8 3] "noop" [] 5%Q
              eq_refl ltac:(cbn [length]; unfold frame_bytes; lia))
    as (result & out & Hcall & _).
  eexists. split; [exact Hcall|].
  cbn [Napi.pending_exception Napi.self Napi.metrics_]. split; [reflexivity|].
  split; [reflexivity | cbn [length]; lia].
Qed.

(** C3 (amended): no size check exists, and nothing fails with a size
    mismatch.  In the addon a buffer of at most 256 x 256 x 3 bytes, equal to
    that size or not, is processed: [ProcessImage] throws nothing, returns a
    new buffer, and records the completion in the metrics.  In the gRPC
    service every request, whatever the length of its buffer, is answered
    with [Status::OK] and the status "success", and is recorded. *)
Theorem no_size_validation {double : Type} `{DoubleArith double}
    (cv : Napi.CvLibrary) (fresh : nat -> byte)
    (this : Napi.ImageProcessor) (h : list Napi.JsObject) (l : nat)
    (input : list byte) (operation : string) (rest : list Napi.JsValue)
    (t : double) :
  CvContract cv ->
  h !! l = Some (Napi.JsBuffer input) ->
  (length input <= frame_size)%nat ->
  (exists r,
     Napi.ProcessImage fresh cv this h
       (Napi.JsRef l :: Napi.JsString operation :: rest) t = Napi.Ok r /\
     Napi.pending_exception r = None /\
     (exists result,
        Napi.returned r = Napi.JsRef (length h) /\
        Napi.js_heap r !! length h = Some (Napi.JsBuffer result)) /\
     Napi.total_processed (Napi.metrics_ (Napi.self r))
     = wrap64 (Napi.total_processed (Napi.metrics_ this) + 1)) /\
  (forall (m : Service.ServiceMetrics) (request : Service.ImageRequest)
          (elapsed : double),
     let reply := Service.ProcessImage m request elapsed in
     Service.reply_status reply = Service.OK /\
     Service.status (Service.reply_response reply) = "success"%string /\
     Service.total_processed (Service.reply_metrics reply)
     = wrap64 (Service.total_processed m + 1)).
Proof.
  intros contract Hl Hlen. split.
  - destruct (ProcessImage_accepts cv contract fresh this h l input operation
                rest t Hl Hlen) as (result & out & Hcall & _).
    eexists. split; [exact Hcall|].
    cbn [Napi.pending_exception Napi.returned Napi.js_heap Napi.self Napi.metrics_].
    split; [reflexivity|]. split.
    + exists result. split; [reflexivity|]. apply list_lookup_middle. reflexivity.
    + reflexivity.
  - intros m request elapsed. cbv zeta. unfold Service.ProcessImage.
    destruct (Service.processImageData _ _) as [result out].
    repeat split.
Qed.

Lemma no_size_validation_witness :
  exists r,
    Napi.ProcessImage (double := Q) zero_memory zero_library
      (Napi.initializeProcessor 0).1 [Napi.JsBuffer [u8 1; u8 2; u8 3]]
      [Napi.JsRef 0; Napi.JsString "invert"] 5%Q = Napi.Ok r /\
    Napi.pending_exception r = None /\
    (exists result,
       Napi.returned r = Napi.JsRef 1 /\
       Napi.js_heap r !! 1%nat = Some (Napi.JsBuffer result)) /\
    Napi.total_processed (Napi.metrics_ (Napi.self r)) = wrap64 (0 + 1).
Proof.
  apply (no_size_validation (double := Q) zero_library zero_memory
           (Napi.initializeProcessor 0).1 [Napi.JsBuffer [u8 1; u8 2; u8 3]]
           0%nat [u8 1; u8 2; u8 3] "invert" [] 5%Q).
  - constructor; intros; unfold shaped, zeros; cbn;
      repeat split; apply length_replicate.
  - reflexivity.
  - cbn [length]. unfold frame_bytes. lia.
Defined.

(** ** The running means in exact arithmetic

    With exact rational arithmetic in place of [double], and below 2^64
    completions, the weighted update keeps [average * count] equal to the sum
    of the recorded times: the averages are the means.  (Nothing is claimed
    here about the rounding of [double].) *)

Lemma weighted_update_exact (avg t sum : Q) (n : Z) :
  0 <= n ->
  (avg * inject_Z n == sum)%Q ->
  ((avg * inject_Z n + t) / inject_Z (n + 1) * inject_Z (n + 1) == sum + t)%Q.
Proof.
  intros Hn Hsum.
  assert (~ (inject_Z (n + 1) == 0)%Q) as Hnz.
  { intros Heq. unfold Qeq in Heq. cbn [inject_Z Qnum Qden] in Heq. lia. }
  rewrite Hsum. field. exact Hnz.
Qed.

Lemma wrap64_small (z : Z) : 0 <= z < 2 ^ 64 -> wrap64 z = z.
Proof. intros Hz. unfold wrap64. apply Z.mod_small, Hz. Qed.

Lemma record_all_global (avx : bool) (recs : list (string * Q)) :
  forall m : @Napi.Metrics Q,
    0 <= Napi.total_processed m ->
    Napi.total_processed m + Z.of_nat (length recs) < 2 ^ 64 ->
    let m' := record_all avx m recs in
    Napi.total_processed m' = Napi.total_processed m + Z.of_nat (length recs) /\
    (Napi.average_time m' * inject_Z (Napi.total_processed m')
     == Napi.average_time m * inject_Z (Napi.total_processed m)
        + Qsum (map snd recs))%Q.
Proof.
  induction recs as [|[op t] recs IH]; intros m Hpos Hbound; cbv zeta.
  - cbn [record_all foldl length map Qsum foldr]. split; [lia|]. ring.
  - cbn [length] in Hbound.
    unfold record_all. cbn [foldl fst snd]. fold (record_all avx).
    set (m1 := Napi.update_metrics m avx op t).
    assert (Napi.total_processed m1 = Napi.total_processed m + 1) as Htotal.
    { unfold m1, Napi.update_metrics. cbn [Napi.total_processed].
      apply wrap64_small. lia. }
    assert (Napi.average_time m1 * inject_Z (Napi.total_processed m1)
            == Napi.average_time m * inject_Z (Napi.total_processed m) + t)%Q
      as Havg.
    { rewrite Htotal. unfold m1, Napi.update_metrics. cbn [Napi.average_time].
      rewrite !(wrap64_small (Napi.total_processed m + 1)) by lia.
      replace (Napi.total_processed m + 1 - 1) with (Napi.total_processed m) by lia.
      rewrite wrap64_small by lia.
      cbn [d_div d_add d_mul d_of_uint64 Q_arith].
      apply weighted_update_exact; [exact Hpos | reflexivity]. }
    clearbody m1.
    destruct (IH m1) as [Hcount Hmean];
      [clear IH Havg; lia | clear IH Havg; lia |].
    unfold record_all in Hcount, Hmean.
    split; [clear IH Havg Hmean; cbn [length]; lia|].
    rewrite Hmean, Havg. cbn [map snd].
    change (Qsum (t :: map snd recs)) with (t + Qsum (map snd recs))%Q. ring.
Qed.

Lemma record_all_operation (avx : bool) (operation : string)
    (recs : list (string * Q)) :
  forall m : @Napi.Metrics Q,
    let count := default 0 (Napi.operation_count m !! operation) in
    let avg := default 0%Q (Napi.operation_avg_time m !! operation) in
    0 <= count ->
    count + Z.of_nat (length (times_of operation recs)) < 2 ^ 64 ->
    let m' := record_all avx m recs in
    let count' := default 0 (Napi.operation_count m' !! operation) in
    count' = count + Z.of_nat (length (times_of operation recs)) /\
    (default 0%Q (Napi.operation_avg_time m' !! operation) * inject_Z count'
     == avg * inject_Z count + Qsum (times_of operation recs))%Q.
Proof.
  induction recs as [|[op t] recs IH]; intros m; cbv zeta; intros Hpos Hbound.
  - cbn [record_all foldl times_of filter list_filter map length Qsum foldr].
    split; [lia|]. ring.
  - unfold record_all. cbn [foldl fst snd]. fold (record_all avx).
    set (m1 := Napi.update_metrics m avx op t).
    destruct (decide (op = operation)) as [->|Hne].
    + assert (times_of operation ((operation, t) :: recs)
              = t :: times_of operation recs) as Htimes.
      { unfold times_of. rewrite filter_cons_True by reflexivity. reflexivity. }
      rewrite Htimes in *. cbn [length] in Hbound.
      set (count := default 0 (Napi.operation_count m !! operation)) in *.
      assert (default 0 (Napi.operation_count m1 !! operation) = count + 1)
        as Hcount1.
      { unfold m1, Napi.update_metrics. cbn [Napi.operation_count].
        rewrite lookup_insert_eq. cbn [from_option id]. apply wrap64_small.
        fold count. lia. }
      assert (default 0%Q (Napi.operation_avg_time m1 !! operation)
                * inject_Z (count + 1)
              == default 0%Q (Napi.operation_avg_time m !! operation)
                   * inject_Z count + t)%Q as Havg1.
      { unfold m1, Napi.update_metrics. cbn [Napi.operation_avg_time].
        rewrite !lookup_insert_eq. cbn [from_option id]. fold count.
        rewrite !(wrap64_small (count + 1)) by lia.
        replace (count + 1 - 1) with count by lia.
        rewrite wrap64_small by lia.
        cbn [d_div d_add d_mul d_of_uint64 Q_arith d_zero].
        apply weighted_update_exact; [exact Hpos | reflexivity]. }
      clearbody m1.
      destruct (IH m1) as [Hcount Hmean];
        [rewrite Hcount1; clear IH Havg1; lia
        |rewrite Hcount1; clear IH Havg1; lia|].
      cbv zeta in Hcount, Hmean. unfold record_all in Hcount, Hmean. split.
      * rewrite Hcount, Hcount1. clear IH Havg1 Hmean. cbn [length]. lia.
      * rewrite Hmean, Hcount1, Havg1.
        change (Qsum (t :: times_of operation recs))
          with (t + Qsum (times_of operation recs))%Q. ring.
    + assert (times_of operation ((op, t) :: recs) = times_of operation recs)
        as Htimes.
      { unfold times_of. rewrite filter_cons_False by exact Hne. reflexivity. }
      rewrite Htimes in *.
      assert (Napi.operation_count m1 !! operation
              = Napi.operation_count m !! operation) as Hc.
      { unfold m1, Napi.update_metrics. cbn [Napi.operation_count].
        apply lookup_insert_ne, Hne. }
      assert (Napi.operation_avg_time m1 !! operation
              = Napi.operation_avg_time m !! operation) as Ha.
      { unfold m1, Napi.update_metrics. cbn [Napi.operation_avg_time].
        apply lookup_insert_ne, Hne. }
      clearbody m1. specialize (IH m1). cbv zeta in IH. unfold record_all in IH.
      rewrite Hc, Ha in IH. apply IH; assumption.
Qed.

(** X18: In exact arithmetic, after [N] completions (0 < N < 2^64) recorded
    from the initial metrics the global average is the mean of the recorded
    times, and the average of every operation that was recorded is the mean
    of the times recorded for it. *)
Lemma addon_means_exact (avx : bool) (recs : list (string * Q)) :
  Z.of_nat (length recs) < 2 ^ 64 ->
  let m := record_all avx Napi.metrics_init recs in
  (recs <> [] ->
   (Napi.average_time m
    == Qsum (map snd recs) / inject_Z (Z.of_nat (length recs)))%Q) /\
  (forall operation,
     times_of operation recs <> [] ->
     (default 0%Q (Napi.operation_avg_time m !! operation)
      == Qsum (times_of operation recs)
         / inject_Z (Z.of_nat (length (times_of operation recs))))%Q).
Proof.
  intros Hbound. cbv zeta. split.
  - intros Hne.
    destruct (record_all_global avx recs Napi.metrics_init) as [Hcount Hmean];
      [cbn; lia | cbn [Napi.metrics_init Napi.total_processed]; lia |].
    cbv zeta in Hcount, Hmean.
    cbn [Napi.metrics_init Napi.total_processed Napi.average_time d_zero Q_arith]
      in Hcount, Hmean.
    rewrite Hcount, Z.add_0_l in Hmean.
    assert (~ (inject_Z (Z.of_nat (length recs)) == 0)%Q) as Hnz.
    { intros Heq. unfold Qeq in Heq. cbn [inject_Z Qnum Qden] in Heq.
      destruct recs; [contradiction | cbn [length] in Heq; lia]. }
    apply (Qmult_inj_r _ _ _ Hnz). rewrite Hmean. field. exact Hnz.
  - intros operation Hne.
    assert (length (times_of operation recs) <= length recs)%nat as Hle.
    { unfold times_of. rewrite length_map. apply length_filter. }
    destruct (record_all_operation avx operation recs Napi.metrics_init)
      as [Hcount Hmean];
      [cbn [Napi.metrics_init Napi.operation_count]; rewrite lookup_empty;
       cbn [from_option id]; lia
      |cbn [Napi.metrics_init Napi.operation_count]; rewrite lookup_empty;
       cbn [from_option id]; lia|].
    cbv zeta in Hcount, Hmean.
    cbn [Napi.metrics_init Napi.operation_count Napi.operation_avg_time]
      in Hcount, Hmean.
    rewrite !lookup_empty in Hcount, Hmean. cbn [from_option id] in Hcount, Hmean.
    rewrite Hcount, Z.add_0_l in Hmean.
    assert (~ (inject_Z (Z.of_nat (length (times_of operation recs))) == 0)%Q)
      as Hnz.
    { intros Heq. unfold Qeq in Heq. cbn [inject_Z Qnum Qden] in Heq.
      destruct (times_of operation recs); [contradiction | cbn [length] in Heq; lia]. }
    apply (Qmult_inj_r _ _ _ Hnz). rewrite Hmean. field. exact Hnz.
Qed.

Lemma service_record_all_global (recs : list (string * Q)) :
  forall m : @Service.ServiceMetrics Q,
    0 <= Service.total_processed m ->
    Service.total_processed m + Z.of_nat (length recs) < 2 ^ 64 ->
    let m' := service_record_all m recs in
    Service.total_processed m'
    = Service.total_processed m + Z.of_nat (length recs) /\
    (Service.average_processing_time m' * inject_Z (Service.total_processed m')
     == Service.average_processing_time m * inject_Z (Service.total_processed m)
        + Qsum (map snd recs))%Q.
Proof.
  induction recs as [|[op t] recs IH]; intros m Hpos Hbound; cbv zeta.
  - cbn [service_record_all foldl length map Qsum foldr]. split; [lia|]. ring.
  - cbn [length] in Hbound. unfold service_record_all. cbn [foldl fst snd].
    set (m1 := Service.update_metrics m op t).
    assert (Service.total_processed m1 = Service.total_processed m + 1) as Htotal.
    { unfold m1, Service.update_metrics. cbn [Service.total_processed].
      apply wrap64_small. lia. }
    assert (Service.average_processing_time m1
              * inject_Z (Service.total_processed m1)
            == Service.average_processing_time m
                 * inject_Z (Service.total_processed m) + t)%Q as Havg.
    { rewrite Htotal. unfold m1, Service.update_metrics.
      cbn [Service.average_processing_time].
      rewrite !(wrap64_small (Service.total_processed m + 1)) by lia.
      replace (Service.total_processed m + 1 - 1)
        with (Service.total_processed m) by lia.
      rewrite wrap64_small by lia.
      cbn [d_div d_add d_mul d_of_uint64 Q_arith].
      apply weighted_update_exact; [exact Hpos | reflexivity]. }
    clearbody m1.
    destruct (IH m1) as [Hcount Hmean];
      [clear IH Havg; lia | clear IH Havg; lia |].
    unfold service_record_all in Hcount, Hmean.
    split; [clear IH Havg Hmean; cbn [length]; lia|].
    rewrite Hmean, Havg. cbn [map snd].
    change (Qsum (t :: map snd recs)) with (t + Qsum (map snd recs))%Q. ring.
Qed.

(** X19: In exact arithmetic, after [N] completions (0 < N < 2^64) recorded
    from the initial metrics of the service, [average_processing_time] is
    the mean of the recorded times. *)
Lemma service_mean_exact (recs : list (string * Q)) :
  Z.of_nat (length recs) < 2 ^ 64 ->
  recs <> [] ->
  (Service.average_processing_time (service_record_all Service.metrics_init recs)
   == Qsum (map snd recs) / inject_Z (Z.of_nat (length recs)))%Q.
Proof.
  intros Hbound Hne.
  destruct (service_record_all_global recs Service.metrics_init)
    as [Hcount Hmean];
    [cbn; lia | cbn [Service.metrics_init Service.total_processed]; lia |].
  cbv zeta in Hcount, Hmean.
  cbn [Service.metrics_init Service.total_processed
       Service.average_processing_time d_zero Q_arith] in Hcount, Hmean.
  rewrite Hcount, Z.add_0_l in Hmean.
  assert (~ (inject_Z (Z.of_nat (length recs)) == 0)%Q) as Hnz.
  { intros Heq. unfold Qeq in Heq. cbn [inject_Z Qnum Qden] in Heq.
    destruct recs; [contradiction | cbn [length] in Heq; lia]. }
  apply (Qmult_inj_r _ _ _ Hnz). rewrite Hmean. field. exact Hnz.
Qed.

(** ** The snapshot of the service *)

Lemma foldl_insert_union (l : list (string * Z)) :
  NoDup l.*1 ->
  forall init : gmap string Z,
    foldl (fun acc pair => <[pair.1 := pair.2]> acc) init l
    = list_to_map l ∪ init.
Proof.
  induction l as [|[k v] l IH]; intros Hnd init.
  - cbn [foldl]. rewrite list_to_map_nil, (left_id_L ∅ (∪)). reflexivity.
  - cbn [fmap list_fmap fst] in Hnd. apply NoDup_cons in Hnd as [Hk Hnd].
    cbn [foldl fst snd]. rewrite (IH Hnd), list_to_map_cons.
    rewrite <- insert_union_l. symmetry. apply insert_union_r.
    apply not_elem_of_list_to_map_1, Hk.
Qed.

(** X17: The response of [GetMetrics] holds the metrics at the time of the call:
    the three scalars, and, over the entries the response already had, the
    counts of all operations. *)
Lemma service_GetMetrics_snapshot {double : Type}
    (m : @Service.ServiceMetrics double)
    (response : @Service.MetricsResponse double) :
  let r := Service.reply_response (Service.GetMetrics m response) in
  Service.r_total_processed r = Service.total_processed m /\
  Service.r_average_processing_time r = Service.average_processing_time m /\
  Service.r_active_connections r = Service.active_connections m /\
  Service.r_operation_counts r
  = Service.operation_counts m ∪ Service.r_operation_counts response.
Proof.
  cbv zeta. unfold Service.GetMetrics.
  cbn [Service.reply_response Service.r_total_processed
       Service.r_average_processing_time Service.r_active_connections
       Service.r_operation_counts].
  repeat split.
  rewrite foldl_insert_union by apply NoDup_fst_map_to_list.
  rewrite list_to_map_to_list. reflexivity.
Qed.

(** ** The scenarios of the specification, run on the model *)

(** "invert" of zero bytes gives bytes of value 255 (service). *)
Example scenario_invert_zeros :
  (Service.processImageData (replicate 12 (u8 0)) "invert").1
  = replicate 12 (u8 255).
Proof. vm_compute. reflexivity. Qed.

(** An unknown operation returns the input and prints one line (service). *)
Example scenario_unknown_operation :
  Service.processImageData [u8 4; u8 5] "not_a_real_op"
  = ([u8 4; u8 5], ["Unknown operation: not_a_real_op"%string]).
Proof. vm_compute. reflexivity. Qed.

(** Three completions of one operation with times 10, 20 and 30: the count
    is 3 and, in exact arithmetic, the averages are 20. *)
Example scenario_three_requests :
  let m := record_all false Napi.metrics_init
             [("invert"%string, 10%Q); ("invert"%string, 20%Q);
              ("invert"%string, 30%Q)] in
  Napi.total_processed m = 3 /\
  Napi.operation_count m !! "invert"%string = Some 3 /\
  (Napi.average_time m == 20)%Q /\
  (default 0%Q (Napi.operation_avg_time m !! "invert"%string) == 20)%Q.
Proof. vm_compute. repeat split; reflexivity. Qed.

(** A batch of two "invert" and three "grayscale" requests: the counts are
    2 and 3, and the total grows by 5. *)
Example scenario_batch :
  let request op := ({| Service.image_data := [u8 1; u8 2; u8 3];
                        Service.operation := op |}, 1%Q) in
  let reply :=
    Service.BatchProcess Service.metrics_init
      [request "invert"%string; request "grayscale"%string;
       request "grayscale"%string; request "invert"%string;
       request "grayscale"%string] 7%Q in
  let m := Service.reply_metrics reply in
  Service.total_processed m = 5 /\
  Service.operation_counts m !! "invert"%string = Some 2 /\
  Service.operation_counts m !! "grayscale"%string = Some 3 /\
  length (Service.responses (Service.reply_response reply)) = 5%nat.
Proof. vm_compute. repeat split; reflexivity. Qed.

(** The AVX bit of [ecx]. *)
Example scenario_cpuid :
  Napi.avx_supported_ (Napi.initializeProcessor (double := Q) (2 ^ 28)).1 = true /\
  Napi.avx_supported_ (Napi.initializeProcessor (double := Q) (2 ^ 27)).1 = false.
Proof. split; reflexivity. Qed.

(** * Further properties of the code *)

(** ** The byte reordering *)

Lemma list_ind4 {A : Type} (P : list A -> Prop) :
  P [] -> (forall a, P [a]) -> (forall a b, P [a; b]) ->
  (forall a b c, P [a; b; c]) ->
  (forall a b c d l, P l -> P (a :: b :: c :: d :: l)) ->
  forall l, P l.
Proof.
  intros H0 H1 H2 H3 H4 l.
  enough (P l /\ (forall a, P (a :: l)) /\ (forall a b, P (a :: b :: l)) /\
          (forall a b c, P (a :: b :: c :: l))) as [Hl _] by exact Hl.
  induction l as [|x l (IH0 & IH1 & IH2 & IH3)]; [auto|].
  split; [apply IH1|]. split; [intros a; apply IH2|].
  split; [intros a b; apply IH3|]. intros a b c. apply H4, IH0.
Qed.

Lemma swap_red_blue_involutive (d : list byte) :
  swap_red_blue (swap_red_blue d) = d.
Proof.
  induction d as [|a|a b|a b c|a b c e l IH] using list_ind4; try reflexivity.
  cbn [swap_red_blue]. rewrite IH. reflexivity.
Qed.

(** The exchange goes through a chunk boundary: 32 is a multiple of 4. *)
Lemma swap_red_blue_chunk (c rest : list byte) :
  length c = 32%nat ->
  swap_red_blue (c ++ rest) = swap_red_blue c ++ swap_red_blue rest.
Proof.
  intros Hc.
  do 32 (destruct c as [|? c]; [discriminate Hc|]).
  destruct c; [reflexivity | discriminate Hc].
Qed.

Lemma swap_red_blue_chunks (chunks : list (list byte)) :
  Forall (fun c => length c = 32%nat) chunks ->
  concat (map swap_red_blue chunks) = swap_red_blue (concat chunks).
Proof.
  induction 1 as [|c cs Hc _ IH]; [reflexivity|].
  cbn [map concat]. rewrite swap_red_blue_chunk, IH by exact Hc. reflexivity.
Qed.

(** X1: The AVX path of [vectorizedColorConversion] undoes itself: run twice on
    a buffer, of any length, it gives the buffer back. *)
Theorem vectorized_twice (data : list byte) :
  let once := (Napi.vectorizedColorConversion true data (length data)).1 in
  length once = length data /\
  (Napi.vectorizedColorConversion true once (length once)).1 = data.
Proof.
  cbv zeta. pose proof (length_vectorized true data) as Hlen.
  split; [exact Hlen|]. rewrite Hlen, vectorized_avx. cbn [fst].
  destruct (chunks32_spec data) as (Hdata & Hall & Ht & Hk).
  assert (Forall (fun c => length c = 32%nat)
            (map swap_red_blue (chunks32 data))) as Hall'.
  { clear -Hall. induction Hall as [|c cs Hc _ IH]; constructor;
      [rewrite length_swap_red_blue; exact Hc | exact IH]. }
  destruct (length_shuffled_chunks _ Hall) as [Hshuf Hplain].
  unfold Napi.vectorizedColorConversion. cbn [negb fst].
  pose proof (avx_loop_from (map swap_red_blue (chunks32 data)) (length data) []
                (tail32 data) (length data) Hall' Ht) as Hloop.
  cbn [app length] in Hloop. rewrite Hloop.
  - rewrite map_map.
    rewrite (map_ext _ (fun c => c) swap_red_blue_involutive), map_id.
    exact Hdata.
  - rewrite length_map. rewrite <- Hdata at 1.
    rewrite length_app, Hplain. lia.
  - rewrite length_map, Hk.
    pose proof (Nat.div_mod_eq (length data) 32). lia.
Qed.

(** On a buffer made of complete chunks the AVX path is the exchange of
    bytes 0 and 2 in every group of four bytes of the buffer. *)
Lemma vectorized_whole (data : list byte) :
  (length data mod 32 = 0)%nat ->
  Napi.vectorizedColorConversion true data (length data)
  = (swap_red_blue data, [Napi.VectorPath]).
Proof.
  intros Hmod. rewrite vectorized_avx.
  destruct (chunks32_spec data) as (Hdata & Hall & Ht & Hk).
  assert (tail32 data = []) as Htail.
  { apply length_zero_iff_nil. unfold tail32. rewrite length_drop.
    pose proof (Nat.div_mod_eq (length data) 32). lia. }
  rewrite Htail, app_nil_r in *.
  rewrite swap_red_blue_chunks, Hdata by exact Hall. reflexivity.
Qed.

Lemma simd_optimize_frame_both (fresh : nat -> byte) (cv : Napi.CvLibrary)
    (b : list byte) :
  length b = frame_size ->
  Napi.processImageData fresh cv true b "simd_optimize"
  = Napi.Ok (swap_red_blue b, [Napi.VectorPath]) /\
  Napi.processImageData fresh cv false b "simd_optimize"
  = Napi.Ok (b, [Napi.Print "AVX not supported, skipping SIMD optimization"]).
Proof.
  intros Hlen.
  assert (length b mod 32 = 0)%nat as Hmod.
  { rewrite Hlen. unfold frame_bytes.
    replace (Z.to_nat (256 * 256 * 3)) with (Z.to_nat 6144 * 32)%nat by lia.
    apply Nat.Div0.mod_mul. }
  unfold Napi.processImageData. rewrite bufferToMat_exact by exact Hlen.
  unfold Napi.dispatch. cbn [String.eqb Ascii.eqb Bool.eqb].
  rewrite clone_eq. unfold Napi.applySIMDOptimization, Napi.avxImageProcessing.
  cbn [negb Napi.channels Napi.data Napi.rows Napi.cols Napi.depth].
  change (3 =? 3) with true. cbv iota. unfold Napi.total.
  cbn [Napi.rows Napi.cols].
  replace (Z.to_nat (256 * 256 * 3)) with (length b)
    by (rewrite Hlen; unfold frame_bytes; reflexivity).
  rewrite (vectorized_whole b Hmod).
  unfold Napi.matToBuffer, Napi.total.
  cbn [Napi.rows Napi.cols Napi.channels Napi.data].
  replace (Z.to_nat (256 * 256 * 3)) with (length b)
    by (rewrite Hlen; unfold frame_bytes; reflexivity).
  rewrite length_swap_red_blue, Nat.leb_refl.
  rewrite <- (length_swap_red_blue b) at 1. rewrite !firstn_all.
  split; reflexivity.
Qed.

(** X2: "simd_optimize" on a buffer of the assumed geometry.  With AVX the
    result is the buffer with bytes 0 and 2 of every group of four bytes
    exchanged (the groups are of four bytes although the image has three
    channels); without AVX the buffer comes back as it is and the skip is
    printed. *)
Theorem simd_optimize_frame (fresh : nat -> byte) (cv : Napi.CvLibrary)
    (b : list byte) :
  length b = frame_size ->
  Napi.processImageData fresh cv true b "simd_optimize"
  = Napi.Ok (swap_red_blue b, [Napi.VectorPath]) /\
  Napi.processImageData fresh cv false b "simd_optimize"
  = Napi.Ok (b, [Napi.Print "AVX not supported, skipping SIMD optimization"]).
Proof. apply simd_optimize_frame_both. Qed.

Lemma simd_optimize_frame_witness :
  Napi.processImageData zero_memory zero_library true
    (replicate frame_size Byte.x00) "simd_optimize"
  = Napi.Ok (swap_red_blue (replicate frame_size Byte.x00), [Napi.VectorPath]) /\
  Napi.processImageData zero_memory zero_library false
    (replicate frame_size Byte.x00) "simd_optimize"
  = Napi.Ok (replicate frame_size Byte.x00,
             [Napi.Print "AVX not supported, skipping SIMD optimization"]).
Proof.
  apply (simd_optimize_frame zero_memory zero_library
           (replicate frame_size Byte.x00)).
  apply length_replicate.
Defined.

(** ** "grayscale" and "invert" *)

Lemma gray_pixel_idempotent (p : byte * byte * byte) :
  gray_pixel (gray_pixel p) = gray_pixel p.
Proof. unfold gray_pixel. cbn [fst snd]. rewrite mean3_equal. reflexivity. Qed.

(** X3: The service's "grayscale" is idempotent: applied to its own output, on a
    buffer of any length, it changes nothing. *)
Theorem service_grayscale_idempotent (b : list byte) :
  (Service.processImageData (Service.processImageData b "grayscale").1
     "grayscale").1
  = (Service.processImageData b "grayscale").1.
Proof.
  destruct (group3_spec b) as [Hb Hlen].
  assert (length (group3 b).2 < 3)%nat as Ht
    by (rewrite Hlen; apply Nat.mod_upper_bound; lia).
  rewrite Hb. rewrite !service_grayscale by exact Ht. cbn [fst].
  rewrite !service_grayscale by exact Ht. cbn [fst].
  rewrite map_map.
  rewrite (map_ext _ gray_pixel gray_pixel_idempotent). reflexivity.
Qed.

Lemma lxor_255 (x : byte) : u8 (Z.lxor (byte_to_Z x) 255) = invert_byte x.
Proof. destruct x; reflexivity. Qed.

(** X4: On a buffer of the assumed geometry the addon's "invert"
    ([cv::bitwise_not]) and the service's "invert" ([255 - x] byte by byte)
    return the same bytes, and neither prints. *)
Theorem invert_same_in_both (fresh : nat -> byte) (cv : Napi.CvLibrary)
    (avx : bool) (b : list byte) :
  length b = frame_size ->
  Napi.processImageData fresh cv avx b "invert"
  = Napi.Ok ((Service.processImageData b "invert").1, []) /\
  Service.processImageData b "invert" = (map invert_byte b, []).
Proof.
  intros Hlen. rewrite service_invert. cbn [fst]. split; [|reflexivity].
  unfold Napi.processImageData. rewrite bufferToMat_exact by exact Hlen.
  unfold Napi.dispatch. cbn [String.eqb Ascii.eqb Bool.eqb].
  unfold Napi.matToBuffer, Napi.bitwise_not, Napi.total.
  cbn [Napi.rows Napi.cols Napi.channels Napi.data].
  rewrite (map_ext _ invert_byte lxor_255).
  rewrite length_map, Hlen. unfold frame_bytes. rewrite Nat.leb_refl.
  rewrite take_ge by (rewrite length_map, Hlen; unfold frame_bytes; lia).
  reflexivity.
Qed.

Lemma invert_same_in_both_witness :
  Napi.processImageData zero_memory zero_library false
    (replicate frame_size Byte.x00) "invert"
  = Napi.Ok ((Service.processImageData (replicate frame_size Byte.x00)
                "invert").1, []) /\
  Service.processImageData (replicate frame_size Byte.x00) "invert"
  = (map invert_byte (replicate frame_size Byte.x00), []).
Proof.
  apply (invert_same_in_both zero_memory zero_library false
           (replicate frame_size Byte.x00)).
  apply length_replicate.
Defined.

(** ** The calls of the addon *)

(** X5: [ProcessImage] checks its arguments before anything else.  It completes
    without an exception exactly when it is given at least two arguments, the
    first a buffer and the second a string.  Otherwise it throws a
    [TypeError] whose message says which check failed, returns [null], and
    leaves the processor, its metrics included, and the heap as they were. *)
Theorem ProcessImage_rejects {double : Type} `{DoubleArith double}
    (fresh : nat -> byte) (cv : Napi.CvLibrary) (this : Napi.ImageProcessor)
    (h : list Napi.JsObject) (info : list Napi.JsValue) (t : double)
    (r : Napi.CallResult) :
  Napi.ProcessImage fresh cv this h info t = Napi.Ok r ->
  (Napi.pending_exception r = None <->
   (2 <= length info)%nat /\
   is_Some (info !! 0%nat ≫= Napi.as_buffer h) /\
   exists operation, info !! 1%nat = Some (Napi.JsString operation)) /\
  (Napi.pending_exception r <> None ->
   Napi.returned r = Napi.JsNull /\ Napi.self r = this /\
   Napi.js_heap r = h /\ Napi.events r = []) /\
  ((length info < 2)%nat ->
   Napi.pending_exception r = Some "Wrong number of arguments"%string) /\
  ((2 <= length info)%nat -> info !! 0%nat ≫= Napi.as_buffer h = None ->
   Napi.pending_exception r = Some "First argument must be a Buffer"%string) /\
  ((2 <= length info)%nat -> is_Some (info !! 0%nat ≫= Napi.as_buffer h) ->
   (forall operation, info !! 1%nat <> Some (Napi.JsString operation)) ->
   Napi.pending_exception r
   = Some "Second argument must be a string (operation)"%string).
Proof.
  unfold Napi.ProcessImage.
  destruct (Nat.ltb_spec (length info) 2) as [Hshort|Hlong];
    [|destruct (info !! 0%nat ≫= Napi.as_buffer h) as [input|] eqn:Hbuf;
      [destruct (info !! 1%nat) as [[| | |operation|]|] eqn:Harg;
       [| | |destruct (Napi.processImageData fresh cv (Napi.avx_supported_ this)
                        input operation) as [[result out]|];
             [unfold Napi.js_alloc|discriminate]| |]|]];
    intros Heq; injection Heq as <-; cbn;
    repeat split; intros; try lia; try congruence; eauto;
    repeat match goal with
           | H0 : _ /\ _ |- _ => destruct H0
           | H0 : is_Some None |- _ => destruct H0 as [? H0]; discriminate H0
           | H0 : exists _, _ |- _ => destruct H0 as [? H0]; discriminate H0
           | H0 : forall _, Some _ <> Some _ |- _ => exfalso; eapply H0; reflexivity
           end; try lia.
Qed.

Lemma ProcessImage_rejects_witness :
  Napi.pending_exception
    (Napi.throw_TypeError (double := Q) (Napi.initializeProcessor 0).1 []
       "Wrong number of arguments")
  = Some "Wrong number of arguments"%string.
Proof.
  apply (ProcessImage_rejects (double := Q) zero_memory zero_library
           (Napi.initializeProcessor 0).1 [] [Napi.JsString "invert"] 1%Q).
  - reflexivity.
  - cbn [length]. lia.
Defined.

(** X6: A call of [ProcessImage] that throws nothing has processed the buffer
    and the operation it was given, and records exactly that: it allocates
    one object, the result buffer it returns, after the objects of the heap;
    it counts one more completion overall and one more of that operation;
    and it leaves the entries of every other operation, and the members
    [initialized_], [avx_supported_] and [memory_allocated], as they
    were. *)
Theorem ProcessImage_records_one {double : Type} `{DoubleArith double}
    (fresh : nat -> byte) (cv : Napi.CvLibrary) (this : Napi.ImageProcessor)
    (h : list Napi.JsObject) (info : list Napi.JsValue) (t : double)
    (r : Napi.CallResult) :
  Napi.ProcessImage fresh cv this h info t = Napi.Ok r ->
  Napi.pending_exception r = None ->
  exists input operation result,
    info !! 0%nat ≫= Napi.as_buffer h = Some input /\
    info !! 1%nat = Some (Napi.JsString operation) /\
    Napi.processImageData fresh cv (Napi.avx_supported_ this) input operation
    = Napi.Ok (result, Napi.events r) /\
    Napi.returned r = Napi.JsRef (length h) /\
    Napi.js_heap r = h ++ [Napi.JsBuffer result] /\
    Napi.total_processed (Napi.metrics_ (Napi.self r))
    = wrap64 (Napi.total_processed (Napi.metrics_ this) + 1) /\
    Napi.operation_count (Napi.metrics_ (Napi.self r)) !! operation
    = Some (wrap64 (default 0 (Napi.operation_count (Napi.metrics_ this)
                                 !! operation) + 1)) /\
    (forall other, other <> operation ->
       Napi.operation_count (Napi.metrics_ (Napi.self r)) !! other
       = Napi.operation_count (Napi.metrics_ this) !! other /\
       Napi.operation_avg_time (Napi.metrics_ (Napi.self r)) !! other
       = Napi.operation_avg_time (Napi.metrics_ this) !! other) /\
    Napi.initialized_ (Napi.self r) = Napi.initialized_ this /\
    Napi.avx_supported_ (Napi.self r) = Napi.avx_supported_ this /\
    Napi.memory_allocated (Napi.metrics_ (Napi.self r))
    = Napi.memory_allocated (Napi.metrics_ this).
Proof.
  unfold Napi.ProcessImage.
  destruct (length info <? 2)%nat; [intros Heq; injection Heq as <-; discriminate|].
  destruct (info !! 0%nat ≫= Napi.as_buffer h) as [input|] eqn:Hbuf;
    [|intros Heq; injection Heq as <-; discriminate].
  destruct (info !! 1%nat) as [[| | |operation|]|] eqn:Harg;
    try (intros Heq; injection Heq as <-; discriminate).
  destruct (Napi.processImageData fresh cv (Napi.avx_supported_ this) input operation)
    as [[result out]|] eqn:Hdata; [|discriminate].
  unfold Napi.js_alloc. intros Heq _. injection Heq as <-.
  exists input, operation, result.
  cbn [Napi.events Napi.returned Napi.js_heap Napi.self Napi.metrics_
       Napi.initialized_ Napi.avx_supported_].
  unfold Napi.update_metrics.
  cbn [Napi.total_processed Napi.operation_count Napi.operation_avg_time
       Napi.memory_allocated].
  repeat split.
  - exact Hdata.
  - apply lookup_insert_eq.
  - apply lookup_insert_ne. congruence.
  - apply lookup_insert_ne. congruence.
Qed.

Lemma ProcessImage_records_one_witness :
  exists r : Napi.CallResult,
    Napi.ProcessImage (double := Q) zero_memory zero_library
      (Napi.initializeProcessor 0).1 [Napi.JsBuffer []]
      [Napi.JsRef 0; Napi.JsString "invert"] 1%Q = Napi.Ok r /\
    Napi.pending_exception r = None /\
    exists result, Napi.js_heap r = [Napi.JsBuffer []] ++ [Napi.JsBuffer result].
Proof.
  destruct (ProcessImage_accepts (double := Q) zero_library zero_library_contract
              zero_memory (Napi.initializeProcessor 0).1 [Napi.JsBuffer []] 0
              [] "invert" [] 1%Q eq_refl) as (result & out & Hcall & _).
  { cbn [length]. lia. }
  eexists. split; [exact Hcall|]. split; [reflexivity|].
  destruct (ProcessImage_records_one (double := Q) _ _ _ _ _ _ _ Hcall eq_refl)
    as (input & operation & result' & _ & _ & _ & _ & Hheap & _).
  exists result'. exact Hheap.
Defined.

(** ** Sessions of the addon *)

Lemma count_sum_comm (j1 j2 : string) (z1 z2 y : Z) :
  z1 + (z2 + y) = z2 + (z1 + y).
Proof. lia. Qed.

Lemma count_sum_fresh (m : gmap string Z) (k : string) (v : Z) :
  m !! k = None -> count_sum (<[k := v]> m) = v + count_sum m.
Proof.
  intros Hk. unfold count_sum.
  apply (map_fold_insert_L (fun _ count acc => count + acc)); [|exact Hk].
  intros. apply count_sum_comm; assumption.
Qed.

Lemma count_sum_delete (m : gmap string Z) (k : string) (v : Z) :
  m !! k = Some v -> count_sum m = v + count_sum (delete k m).
Proof.
  intros Hk. unfold count_sum.
  apply (map_fold_delete_L (fun _ count acc => count + acc)); [|exact Hk].
  intros. apply count_sum_comm; assumption.
Qed.

Lemma count_sum_insert (m : gmap string Z) (k : string) (v : Z) :
  count_sum (<[k := v]> m) = count_sum m - default 0 (m !! k) + v.
Proof.
  destruct (m !! k) as [old|] eqn:Hk; cbn [from_option id].
  - rewrite <- insert_delete_eq.
    rewrite count_sum_fresh by apply lookup_delete_eq.
    rewrite (count_sum_delete m k old Hk). unfold id. lia.
  - rewrite count_sum_fresh by exact Hk. unfold id. lia.
Qed.

Lemma count_sum_nonneg (m : gmap string Z) :
  map_Forall (fun _ count => 0 <= count) m -> 0 <= count_sum m.
Proof.
  induction m as [|k v m Hk IH] using map_ind; intros Hall.
  - unfold count_sum. rewrite map_fold_empty. lia.
  - rewrite count_sum_fresh by exact Hk.
    apply map_Forall_insert in Hall as [Hv Hm]; [|exact Hk].
    specialize (IH Hm). lia.
Qed.

Lemma count_le_sum (m : gmap string Z) (k : string) :
  map_Forall (fun _ count => 0 <= count) m ->
  0 <= default 0 (m !! k) <= count_sum m.
Proof.
  intros Hall. destruct (m !! k) as [v|] eqn:Hk; cbn [from_option id]; unfold id.
  - rewrite (count_sum_delete m k v Hk).
    pose proof (Hall k v Hk) as Hv. cbn beta in Hv.
    assert (0 <= count_sum (delete k m)); [|lia].
    apply count_sum_nonneg. intros j w Hj.
    apply lookup_delete_Some in Hj as [_ Hj]. exact (Hall j w Hj).
  - pose proof (count_sum_nonneg m Hall). lia.
Qed.

Lemma processor_inv_metrics {double : Type} (this : @Napi.ImageProcessor double) :
  processor_inv this -> metrics_inv (Napi.metrics_ this).
Proof.
  intros (Hdom & _) key Hkey.
  apply elem_of_dom. rewrite <- Hdom. apply elem_of_dom. exact Hkey.
Qed.

Lemma update_metrics_session {double : Type} `{DoubleArith double}
    (this : Napi.ImageProcessor) (operation : string) (t : double) (k : Z) :
  session_inv this k -> k + 1 < 2 ^ 64 ->
  session_inv
    {| Napi.metrics_ :=
         Napi.update_metrics (Napi.metrics_ this) (Napi.avx_supported_ this)
           operation t;
       Napi.initialized_ := Napi.initialized_ this;
       Napi.avx_supported_ := Napi.avx_supported_ this |} (k + 1).
Proof.
  intros ((Hdom & Hflag & Hinit & Hmem) & Hall & Hsum & Htotal) Hk.
  pose proof (count_le_sum _ operation Hall) as Hold.
  unfold session_inv, processor_inv, Napi.update_metrics.
  cbn [Napi.metrics_ Napi.initialized_ Napi.avx_supported_ Napi.total_processed
       Napi.operation_count Napi.operation_avg_time Napi.avx_used
       Napi.memory_allocated].
  rewrite (wrap64_small (Napi.total_processed (Napi.metrics_ this) + 1)) by lia.
  rewrite (wrap64_small (default 0 _ + 1)) by lia.
  split; [split; [|split; [|split]]|split; [|split]].
  - rewrite !dom_insert_L, Hdom. reflexivity.
  - destruct (String.eqb operation "simd_optimize" && Napi.avx_supported_ this)
      eqn:Hsimd; [|exact Hflag].
    intros _. apply andb_true_iff in Hsimd as [_ Havx]. exact Havx.
  - exact Hinit.
  - exact Hmem.
  - apply map_Forall_insert_2; [lia | exact Hall].
  - rewrite count_sum_insert. lia.
  - lia.
Qed.

Lemma do_call_session {double : Type} `{DoubleArith double}
    (fresh : nat -> byte) (cv : Napi.CvLibrary) (this : Napi.ImageProcessor)
    (h : list Napi.JsObject) (c : Napi.call) (r : Napi.CallResult) (k : Z) :
  Napi.do_call fresh cv this h c = Napi.Ok r ->
  session_inv this k -> k + 1 < 2 ^ 64 ->
  session_inv (Napi.self r) (k + 1).
Proof.
  intros Hcall Hinv Hk.
  assert (session_inv this (k + 1)) as Hsame.
  { destruct Hinv as (Hp & Hall & Hsum & Htotal).
    split; [exact Hp|]. split; [exact Hall|]. split; [exact Hsum|]. lia. }
  destruct c as [info t|info]; cbn [Napi.do_call] in Hcall.
  - unfold Napi.ProcessImage in Hcall.
    destruct (length info <? 2)%nat; [injection Hcall as <-; exact Hsame|].
    destruct (info !! 0%nat ≫= Napi.as_buffer h) as [input|];
      [|injection Hcall as <-; exact Hsame].
    destruct (info !! 1%nat) as [[| | |operation|]|];
      try (injection Hcall as <-; exact Hsame).
    destruct (Napi.processImageData fresh cv (Napi.avx_supported_ this) input
                operation) as [[result out]|]; [|discriminate].
    unfold Napi.js_alloc in Hcall. injection Hcall as <-.
    cbn [Napi.self]. apply update_metrics_session; assumption.
  - injection Hcall as <-.
    pose proof (GetMetrics_spec this h info) as Hget. cbv zeta in Hget.
    destruct Hget as (_ & _ & _ & _ & Hself & _).
    rewrite Hself; [exact Hsame|].
    apply processor_inv_metrics. apply Hinv.
Qed.

Lemma run_session {double : Type} `{DoubleArith double}
    (fresh : nat -> byte) (cv : Napi.CvLibrary) (calls : list Napi.call) :
  forall (this : Napi.ImageProcessor) (h : list Napi.JsObject) (k : Z)
         (this' : Napi.ImageProcessor) (h' : list Napi.JsObject),
    Napi.run fresh cv this h calls = Napi.Ok (this', h') ->
    session_inv this k -> k + Z.of_nat (length calls) < 2 ^ 64 ->
    session_inv this' (k + Z.of_nat (length calls)).
Proof.
  induction calls as [|c calls IH]; intros this h k this' h' Hrun Hinv Hk.
  - cbn [Napi.run] in Hrun. injection Hrun as <- <-.
    cbn [length]. replace (k + Z.of_nat 0) with k by lia. exact Hinv.
  - cbn [Napi.run] in Hrun. cbn [length] in Hk |- *.
    destruct (Napi.do_call fresh cv this h c) as [r|] eqn:Hcall; [|discriminate].
    replace (k + Z.of_nat (S (length calls)))
      with (k + 1 + Z.of_nat (length calls)) in * by lia.
    apply (IH _ _ _ _ _ Hrun); [|lia].
    apply (do_call_session fresh cv this h c r k Hcall Hinv). lia.
Qed.

(** X7: In a session of fewer than 2^64 calls on a processor as
    [initializeProcessor] leaves it, whatever the calls and their arguments:
    the per-operation counts add up to [total_processed], which is at most
    the number of calls; the two per-operation maps keep the same keys; the
    AVX flag is set only on a processor that supports AVX;
    [memory_allocated] stays 0; and the answer of the AVX detection does not
    change. *)
Theorem session_counts_add_up {double : Type} `{DoubleArith double}
    (fresh : nat -> byte) (cv : Napi.CvLibrary) (ecx : Z)
    (h : list Napi.JsObject) (calls : list Napi.call)
    (this' : Napi.ImageProcessor) (h' : list Napi.JsObject) :
  Napi.run fresh cv (Napi.initializeProcessor ecx).1 h calls
  = Napi.Ok (this', h') ->
  Z.of_nat (length calls) < 2 ^ 64 ->
  count_sum (Napi.operation_count (Napi.metrics_ this'))
  = Napi.total_processed (Napi.metrics_ this') /\
  0 <= Napi.total_processed (Napi.metrics_ this') <= Z.of_nat (length calls) /\
  processor_inv this' /\
  Napi.avx_supported_ this'
  = Napi.avx_supported_ (Napi.initializeProcessor (double := double) ecx).1.
Proof.
  intros Hrun Hlen.
  assert (session_inv (Napi.initializeProcessor (double := double) ecx).1 0)
    as Hinit.
  { unfold session_inv, processor_inv. cbn.
    rewrite !dom_empty_L. unfold count_sum. rewrite map_fold_empty.
    repeat split; try lia; try discriminate; try apply map_Forall_empty. }
  destruct (run_session fresh cv calls _ _ 0 _ _ Hrun Hinit)
    as (Hp & _ & Hsum & Htotal); [lia|].
  destruct (run_spec fresh cv calls _ _ _ _ Hrun) as (_ & _ & _ & Hcap).
  split; [exact Hsum|]. split; [lia|]. split; [exact Hp|exact Hcap].
Qed.

Lemma session_counts_add_up_witness :
  exists (this' : Napi.ImageProcessor) (h' : list Napi.JsObject),
    Napi.run (double := Q) zero_memory zero_library
      (Napi.initializeProcessor 0).1 [Napi.JsBuffer []]
      [Napi.CallProcessImage [Napi.JsRef 0; Napi.JsString "invert"] 1%Q;
       Napi.CallProcessImage [] 1%Q;
       Napi.CallGetMetrics []]
    = Napi.Ok (this', h') /\
    count_sum (Napi.operation_count (Napi.metrics_ this'))
    = Napi.total_processed (Napi.metrics_ this').
Proof.
  destruct (ProcessImage_accepts (double := Q) zero_library zero_library_contract
              zero_memory (Napi.initializeProcessor 0).1 [Napi.JsBuffer []] 0
              [] "invert" [] 1%Q eq_refl) as (result & out & Hcall & _).
  { cbn [length]. lia. }
  assert (exists s,
            Napi.run (double := Q) zero_memory zero_library
              (Napi.initializeProcessor 0).1 [Napi.JsBuffer []]
              [Napi.CallProcessImage [Napi.JsRef 0; Napi.JsString "invert"] 1%Q;
               Napi.CallProcessImage [] 1%Q;
               Napi.CallGetMetrics []]
            = Napi.Ok s) as [[this1 h1] Hrun].
  { cbn [Napi.run Napi.do_call]. rewrite Hcall.
    cbn [Napi.self Napi.js_heap]. eexists. reflexivity. }
  exists this1, h1. split; [exact Hrun|].
  apply (session_counts_add_up (double := Q) _ _ _ _ _ _ _ Hrun).
  cbn [length]. lia.
Defined.

(** ** [BatchProcess] of the service *)

Section Batch.

Context {double : Type} `{DoubleArith double}.

Lemma wrap64_range (z : Z) : 0 <= wrap64 z < 2 ^ 64.
Proof. unfold wrap64. apply Z.mod_pos_bound. lia. Qed.

Lemma wrap64_succ (a : Z) (n : nat) :
  wrap64 (wrap64 (a + 1) + Z.of_nat n) = wrap64 (a + Z.of_nat (S n)).
Proof.
  unfold wrap64. rewrite Zplus_mod_idemp_l. f_equal. lia.
Qed.

Lemma requests_with_cons (op : string)
    (item : Service.ImageRequest * double)
    (requests : list (Service.ImageRequest * double)) :
  requests_with op (item :: requests)
  = ((if decide (Service.operation item.1 = op) then 1 else 0)
     + requests_with op requests)%nat.
Proof.
  unfold requests_with. rewrite filter_cons.
  destruct (decide (Service.operation item.1 = op)); reflexivity.
Qed.

(** The loop of [BatchProcess], from any responses, metrics and output. *)
Lemma batch_loop (requests : list (Service.ImageRequest * double)) :
  forall (resps : list Service.ImageResponse) (m : Service.ServiceMetrics)
         (out : list string),
    0 <= Service.total_processed m < 2 ^ 64 ->
    map_Forall (fun _ count => 0 <= count < 2 ^ 64) (Service.operation_counts m) ->
    let '(resps', m', out') :=
      foldl Service.batch_step (resps, m, out) requests in
    resps' = resps ++ map response_of requests /\
    Service.total_processed m'
    = wrap64 (Service.total_processed m + Z.of_nat (length requests)) /\
    Service.active_connections m' = Service.active_connections m /\
    forall op,
      default 0 (Service.operation_counts m' !! op)
      = wrap64 (default 0 (Service.operation_counts m !! op)
                + Z.of_nat (requests_with op requests)) /\
      (is_Some (Service.operation_counts m' !! op) <->
       is_Some (Service.operation_counts m !! op) \/
       (0 < requests_with op requests)%nat).
Proof.
  induction requests as [|[request elapsed] requests IH];
    intros resps m out Htotal Hcounts.
  - cbn [foldl map length]. rewrite app_nil_r.
    split; [reflexivity|]. split; [|split; [reflexivity|]].
    + rewrite Z.add_0_r. symmetry. apply wrap64_small, Htotal.
    + intros op. unfold requests_with. rewrite filter_nil. cbn [length].
      rewrite Z.add_0_r. split.
      * symmetry. apply wrap64_small.
        destruct (Service.operation_counts m !! op) as [count|] eqn:Hop;
          cbn [from_option id]; unfold id; [|lia].
        exact (Hcounts op count Hop).
      * split; [auto|]. intros [Hsome|Hpos]; [exact Hsome|lia].
  - cbn [foldl]. unfold Service.batch_step at 2. unfold Service.ProcessImage.
    destruct (Service.processImageData (Service.image_data request)
                (Service.operation request)) as [result out1] eqn:Hdata.
    cbn [Service.reply_response Service.reply_metrics Service.reply_stdout].
    set (m1 := Service.update_metrics m (Service.operation request) elapsed).
    specialize (IH (resps ++ [{| Service.processed_data := result;
                                 Service.status := "success";
                                 Service.processing_time := elapsed |}])
                   m1 (out ++ out1)).
    destruct (foldl Service.batch_step _ requests) as [[resps' m'] out'].
    destruct IH as (Hresps & Htotal' & Hactive & Hops).
    { unfold m1, Service.update_metrics. cbn [Service.total_processed].
      apply wrap64_range. }
    { unfold m1, Service.update_metrics. cbn [Service.operation_counts].
      apply map_Forall_insert_2; [apply wrap64_range | exact Hcounts]. }
    split; [|split; [|split]].
    + rewrite Hresps, <- app_assoc. cbn [map app]. unfold response_of.
      cbn [fst snd]. rewrite Hdata. reflexivity.
    + rewrite Htotal'. unfold m1, Service.update_metrics.
      cbn [Service.total_processed length]. apply wrap64_succ.
    + rewrite Hactive. reflexivity.
    + intros op. destruct (Hops op) as [Hcount Hsome].
      rewrite requests_with_cons. cbn [fst].
      unfold m1, Service.update_metrics in Hcount, Hsome.
      cbn [Service.operation_counts] in Hcount, Hsome.
      destruct (decide (Service.operation request = op)) as [Heq|Hne].
      * subst op. rewrite lookup_insert_eq in Hcount, Hsome. cbn [from_option id] in Hcount.
        unfold id at 2 in Hcount. split.
        -- rewrite Hcount. apply wrap64_succ.
        -- rewrite Hsome. split; [intros _; right; lia|intros _; left; eauto].
      * rewrite lookup_insert_ne in Hcount, Hsome by exact Hne. split.
        -- rewrite Hcount. reflexivity.
        -- rewrite Hsome. reflexivity.
Qed.

End Batch.

(** X8: [BatchProcess] answers every batch with [Status::OK]: one response per
    request, in the order of the requests, each the response [ProcessImage]
    gives and marked "success"; the total time as measured.  In the metrics
    (unsigned 64-bit counters) the batch counts one completion per request
    and one per request for the operation it names; an operation has an
    entry afterwards exactly when it had one or a request named it; and
    [active_connections] is left as it was. *)
Theorem BatchProcess_counts {double : Type} `{DoubleArith double}
    (m : Service.ServiceMetrics)
    (requests : list (Service.ImageRequest * double)) (total : double) :
  0 <= Service.total_processed m < 2 ^ 64 ->
  map_Forall (fun _ count => 0 <= count < 2 ^ 64) (Service.operation_counts m) ->
  let r := Service.BatchProcess m requests total in
  Service.reply_status r = Service.OK /\
  Service.responses (Service.reply_response r) = map response_of requests /\
  Service.total_time (Service.reply_response r) = total /\
  Service.total_processed (Service.reply_metrics r)
  = wrap64 (Service.total_processed m + Z.of_nat (length requests)) /\
  Service.active_connections (Service.reply_metrics r)
  = Service.active_connections m /\
  forall op,
    default 0 (Service.operation_counts (Service.reply_metrics r) !! op)
    = wrap64 (default 0 (Service.operation_counts m !! op)
              + Z.of_nat (requests_with op requests)) /\
    (is_Some (Service.operation_counts (Service.reply_metrics r) !! op) <->
     is_Some (Service.operation_counts m !! op) \/
     (0 < requests_with op requests)%nat).
Proof.
  intros Htotal Hcounts. cbv zeta. unfold Service.BatchProcess.
  pose proof (batch_loop requests [] m [] Htotal Hcounts) as Hloop.
  destruct (foldl Service.batch_step _ requests) as [[resps' m'] out'].
  destruct Hloop as (Hresps & Htotal' & Hactive & Hops).
  cbn [Service.reply_status Service.reply_response Service.reply_metrics
       Service.responses Service.total_time].
  repeat split; try assumption; apply Hops.
Qed.

Lemma BatchProcess_counts_witness :
  Service.total_processed
    (Service.reply_metrics
       (Service.BatchProcess (double := Q) Service.metrics_init
          [({| Service.image_data := [Byte.x01; Byte.x02; Byte.x03];
               Service.operation := "invert" |}, 2%Q);
           ({| Service.image_data := [Byte.x04];
               Service.operation := "grayscale" |}, 3%Q)] 6%Q))
  = wrap64 (0 + Z.of_nat 2).
Proof.
  apply (BatchProcess_counts (double := Q) Service.metrics_init
           [({| Service.image_data := [Byte.x01; Byte.x02; Byte.x03];
                Service.operation := "invert" |}, 2%Q);
            ({| Service.image_data := [Byte.x04];
                Service.operation := "grayscale" |}, 3%Q)] 6%Q).
  - cbn. lia.
  - cbn. apply map_Forall_empty.
Defined.

(** ** The two bridges between buffers and matrices *)

Section Bridges.

Variable fresh : nat -> byte.
Variables (buffer : list byte) (width height channels : Z).

Let cn : Z := if channels =? 3 then 3 else 1.
Let capacity : nat := Z.to_nat (height * width * cn).

Lemma zero_copy_capacity :
  Z.to_nat (Napi.total (Napi.createZeroCopyMat buffer width height channels)
            * Napi.channels (Napi.createZeroCopyMat buffer width height channels))
  = capacity.
Proof. reflexivity. Qed.

Lemma bridge_exact :
  length buffer = capacity ->
  Napi.bufferToMat fresh buffer width height channels
  = Napi.Ok (Napi.createZeroCopyMat buffer width height channels) /\
  Napi.matToBuffer (Napi.createZeroCopyMat buffer width height channels)
  = Napi.Ok buffer /\
  Napi.extractDataFromMat (Napi.createZeroCopyMat buffer width height channels)
  = Napi.Ok buffer.
Proof.
  intros Hlen.
  unfold Napi.bufferToMat, Napi.matToBuffer, Napi.extractDataFromMat.
  rewrite zero_copy_capacity. fold cn. fold capacity.
  cbn [Napi.data Napi.createZeroCopyMat].
  rewrite Hlen, Nat.leb_refl, Nat.sub_diag. cbn [seq map].
  rewrite app_nil_r, take_ge by (rewrite Hlen; apply Nat.le_refl).
  repeat split.
Qed.

Lemma bridge_short :
  (length buffer < capacity)%nat ->
  Napi.bufferToMat fresh buffer width height channels
  = Napi.Ok (Napi.createZeroCopyMat
               (buffer ++ map fresh (seq (length buffer) (capacity - length buffer)))
               width height channels) /\
  Napi.matToBuffer
    (Napi.createZeroCopyMat
       (buffer ++ map fresh (seq (length buffer) (capacity - length buffer)))
       width height channels)
  = Napi.Ok (buffer ++ map fresh (seq (length buffer) (capacity - length buffer))) /\
  Napi.extractDataFromMat (Napi.createZeroCopyMat buffer width height channels)
  = Napi.Undefined.
Proof.
  intros Hlen.
  unfold Napi.bufferToMat, Napi.matToBuffer, Napi.extractDataFromMat.
  rewrite !zero_copy_capacity. fold cn. fold capacity.
  cbn [Napi.data Napi.createZeroCopyMat].
  rewrite (proj2 (Nat.leb_le (length buffer) capacity)) by lia.
  rewrite (proj2 (Nat.leb_gt capacity (length buffer))) by lia.
  assert (length (buffer ++ map fresh (seq (length buffer)
                                         (capacity - length buffer)))
          = capacity) as Hfull.
  { rewrite length_app, length_map, length_seq. lia. }
  rewrite Hfull, Nat.leb_refl, take_ge by (rewrite Hfull; apply Nat.le_refl).
  repeat split.
Qed.

Lemma bridge_long :
  (capacity < length buffer)%nat ->
  Napi.bufferToMat fresh buffer width height channels = Napi.Undefined /\
  Napi.extractDataFromMat (Napi.createZeroCopyMat buffer width height channels)
  = Napi.Ok (take capacity buffer).
Proof.
  intros Hlen.
  unfold Napi.bufferToMat, Napi.extractDataFromMat.
  rewrite zero_copy_capacity. fold cn. fold capacity.
  cbn [Napi.data Napi.createZeroCopyMat].
  rewrite (proj2 (Nat.leb_gt (length buffer) capacity)) by lia.
  rewrite (proj2 (Nat.leb_le capacity (length buffer))) by lia.
  split; reflexivity.
Qed.

End Bridges.

(** X9: On a buffer of exactly [height * width * cn] bytes ([cn] is 3 when
    [channels] is 3 and 1 otherwise; [width] and [height] are non-negative
    [int]s) the copying bridge and the zero-copy bridge agree and lose
    nothing: [bufferToMat] builds the matrix [createZeroCopyMat] describes,
    and both [matToBuffer] and [extractDataFromMat] read the buffer back
    from it. *)
Theorem bridge_round_trip (fresh : nat -> byte) (buffer : list byte)
    (width height channels : Z) :
  0 <= width < 2 ^ 31 -> 0 <= height < 2 ^ 31 ->
  length buffer
  = Z.to_nat (height * width * (if channels =? 3 then 3 else 1)) ->
  Napi.bufferToMat fresh buffer width height channels
  = Napi.Ok (Napi.createZeroCopyMat buffer width height channels) /\
  Napi.matToBuffer (Napi.createZeroCopyMat buffer width height channels)
  = Napi.Ok buffer /\
  Napi.extractDataFromMat (Napi.createZeroCopyMat buffer width height channels)
  = Napi.Ok buffer.
Proof. intros _ _ Hlen. apply bridge_exact, Hlen. Qed.

Lemma bridge_round_trip_witness :
  Napi.matToBuffer
    (Napi.createZeroCopyMat
       [Byte.x01; Byte.x02; Byte.x03; Byte.x04; Byte.x05; Byte.x06] 2 1 3)
  = Napi.Ok [Byte.x01; Byte.x02; Byte.x03; Byte.x04; Byte.x05; Byte.x06].
Proof.
  apply (bridge_round_trip zero_memory
           [Byte.x01; Byte.x02; Byte.x03; Byte.x04; Byte.x05; Byte.x06] 2 1 3).
  - lia.
  - lia.
  - reflexivity.
Defined.

(** X10: On a buffer of another size the two bridges fail on opposite sides.  A
    shorter buffer is accepted by the copying bridge, which hands on a full
    matrix whose end is whatever the new block held, while reading the
    zero-copy matrix runs past the buffer; a longer buffer makes
    [bufferToMat] write past the block it allocated, while the zero-copy
    bridge reads back the first [height * width * cn] bytes. *)
Theorem bridge_size_mismatch (fresh : nat -> byte) (buffer : list byte)
    (width height channels : Z) :
  0 <= width < 2 ^ 31 -> 0 <= height < 2 ^ 31 ->
  let capacity :=
    Z.to_nat (height * width * (if channels =? 3 then 3 else 1)) in
  let padded :=
    buffer ++ map fresh (seq (length buffer) (capacity - length buffer)) in
  ((length buffer < capacity)%nat ->
   Napi.bufferToMat fresh buffer width height channels
   = Napi.Ok (Napi.createZeroCopyMat padded width height channels) /\
   Napi.matToBuffer (Napi.createZeroCopyMat padded width height channels)
   = Napi.Ok padded /\
   length padded = capacity /\
   Napi.extractDataFromMat (Napi.createZeroCopyMat buffer width height channels)
   = Napi.Undefined) /\
  ((capacity < length buffer)%nat ->
   Napi.bufferToMat fresh buffer width height channels = Napi.Undefined /\
   Napi.extractDataFromMat (Napi.createZeroCopyMat buffer width height channels)
   = Napi.Ok (take capacity buffer)).
Proof.
  intros _ _ capacity padded. split; intros Hlen.
  - destruct (bridge_short fresh buffer width height channels Hlen)
      as (Hcopy & Hback & Hzero).
    split; [exact Hcopy|]. split; [exact Hback|]. split; [|exact Hzero].
    unfold padded. rewrite length_app, length_map, length_seq. lia.
  - apply bridge_long, Hlen.
Qed.

Lemma bridge_size_mismatch_witness :
  Napi.bufferToMat zero_memory [Byte.x01; Byte.x02] 2 1 3
  = Napi.Ok (Napi.createZeroCopyMat
               [Byte.x01; Byte.x02; Byte.x00; Byte.x00; Byte.x00; Byte.x00]
               2 1 3) /\
  Napi.extractDataFromMat (Napi.createZeroCopyMat [Byte.x01; Byte.x02] 2 1 3)
  = Napi.Undefined.
Proof.
  destruct (bridge_size_mismatch zero_memory [Byte.x01; Byte.x02] 2 1 3)
    as [Hshort _]; [lia|lia|].
  destruct Hshort as (Hcopy & _ & _ & Hzero); [cbn; lia|].
  split; [exact Hcopy | exact Hzero].
Defined.

(** ** The fixed geometry of the addon *)

Lemma napi_noop (fresh : nat -> byte) (cv : Napi.CvLibrary) (avx : bool)
    (input : list byte) :
  (length input <= frame_size)%nat ->
  Napi.processImageData fresh cv avx input "noop"
  = Napi.Ok (input ++ map fresh (seq (length input) (frame_size - length input)),
             []).
Proof.
  intros Hlen. unfold Napi.processImageData.
  rewrite bufferToMat_fits by exact Hlen.
  pose proof (bufferToMat_shaped fresh input Hlen) as Hm.
  set (m := Napi.mkMat _ _ _ _ _) in *.
  assert (Napi.dispatch cv avx m "noop" = (m, [])) as -> by reflexivity.
  destruct (matToBuffer_shaped m Napi.CV_8U 3 ltac:(lia) Hm) as [-> _].
  rewrite take_ge; [reflexivity|].
  destruct Hm as (_ & _ & _ & _ & ->). cbn [Napi.elemSize1]. lia.
Qed.

(** X11: The addon's [processImageData] is defined exactly on the buffers of at
    most 256 x 256 x 3 bytes (a longer one is copied past the end of the
    matrix), and the length of what it returns depends on the operation
    alone, not on the buffer: 256 x 256 bytes for "grayscale" and
    256 x 256 x 3 for every other operation, also for an empty buffer. *)
Theorem napi_defined_iff_fits (cv : Napi.CvLibrary) (fresh : nat -> byte)
    (avx : bool) (input : list byte) (operation : string) :
  CvContract cv ->
  (Napi.processImageData fresh cv avx input operation <> Napi.Undefined <->
   (length input <= frame_size)%nat) /\
  (forall buffer out,
     Napi.processImageData fresh cv avx input operation = Napi.Ok (buffer, out) ->
     length buffer
     = Z.to_nat (256 * 256
                 * (if String.eqb operation "grayscale" then 1 else 3))).
Proof.
  intros contract.
  destruct (Nat.le_gt_cases (length input) frame_size) as [Hfits|Hlong].
  - destruct (processImageData_fits cv contract fresh avx input operation Hfits)
      as (buffer & out & Heq & Hlen).
    rewrite Heq. split.
    + split; [intros _; exact Hfits | intros _; discriminate].
    + intros buffer' out' Hsame. apply Ok_pair_inj in Hsame as [<- _]. exact Hlen.
  - rewrite processImageData_overflow by exact Hlong. split.
    + split; [intros Hne; contradiction Hne; reflexivity | intros Hle; lia].
    + intros buffer out Hsame. discriminate Hsame.
Qed.

Lemma napi_defined_iff_fits_witness :
  Napi.processImageData zero_memory zero_library false [] "grayscale"
  <> Napi.Undefined.
Proof.
  apply (napi_defined_iff_fits zero_library zero_memory false [] "grayscale").
  - exact zero_library_contract.
  - cbn [length]. lia.
Defined.

(** X12: A buffer shorter than 256 x 256 x 3 bytes is not rejected and not
    returned as it came: under "noop" and under every unknown operation the
    addon returns the buffer followed by the bytes the newly allocated
    matrix held behind it, 196608 bytes in all. *)
Theorem short_buffer_is_padded (fresh : nat -> byte) (cv : Napi.CvLibrary)
    (avx : bool) (input : list byte) (operation : string) :
  (length input <= frame_size)%nat ->
  operation = "noop"%string \/ operation ∉ known_operations ->
  let padded :=
    input ++ map fresh (seq (length input) (frame_size - length input)) in
  Napi.processImageData fresh cv avx input operation
  = Napi.Ok (padded,
             if String.eqb operation "noop" then []
             else [Napi.Print (String.append "Unknown operation: " operation)]) /\
  length padded = frame_size /\
  take (length input) padded = input.
Proof.
  intros Hlen Hop padded. split; [|split].
  - destruct Hop as [->|Hop].
    + apply napi_noop, Hlen.
    + rewrite (napi_unknown fresh cv avx input operation Hop Hlen).
      destruct (String.eqb_spec operation "noop") as [->|_]; [|reflexivity].
      exfalso. apply Hop. unfold known_operations.
      repeat first [apply list_elem_of_here | apply list_elem_of_further].
  - unfold padded. rewrite length_app, length_map, length_seq. lia.
  - unfold padded. apply take_app_length.
Qed.

Lemma short_buffer_is_padded_witness :
  take (length [Byte.x01])
    ([Byte.x01]
     ++ map zero_memory (seq (length [Byte.x01]) (frame_size - length [Byte.x01])))
  = [Byte.x01].
Proof.
  apply (short_buffer_is_padded zero_memory zero_library false [Byte.x01] "noop").
  - cbn [length]. unfold frame_bytes. lia.
  - left. reflexivity.
Defined.

(** ** What the addon returns of the result matrix *)

(** [processImageData] on a buffer that fits: the bytes returned are the
    first [256 * 256 * cn] bytes of the data block of the matrix the chain
    of comparisons produced. *)
Lemma processImageData_of_dispatch (fresh : nat -> byte) (cv : Napi.CvLibrary)
    (avx : bool) (input : list byte) (operation : string)
    (d : Napi.Depth) (cn : Z) :
  (length input <= frame_size)%nat ->
  0 <= cn ->
  let inputMat :=
    Napi.mkMat 256 256 Napi.CV_8U 3
      (input ++ map fresh (seq (length input) (frame_size - length input))) in
  shaped (Napi.dispatch cv avx inputMat operation).1 256 256 d cn ->
  Napi.processImageData fresh cv avx input operation
  = Napi.Ok (take (Z.to_nat (256 * 256 * cn))
               (Napi.data (Napi.dispatch cv avx inputMat operation).1),
             (Napi.dispatch cv avx inputMat operation).2).
Proof.
  intros Hlen Hcn inputMat Hres. unfold Napi.processImageData.
  rewrite bufferToMat_fits by exact Hlen. fold inputMat.
  destruct (Napi.dispatch cv avx inputMat operation) as [resultMat out].
  cbn [fst snd] in *.
  destruct (matToBuffer_shaped resultMat d cn Hcn Hres) as [-> _]. reflexivity.
Qed.

Lemma gray2bgr_flat_map (d : list byte) :
  Napi.gray2bgr_data d = flat_map (fun y => [y; y; y]) d.
Proof.
  induction d as [|y d IH]; [reflexivity|].
  cbn [Napi.gray2bgr_data flat_map app]. rewrite IH. reflexivity.
Qed.

(** X13: "hdr", "tone_mapping" and "exposure_fusion" produce a matrix of 32-bit
    floats, 256 x 256 x 3 x 4 bytes, of which [matToBuffer] copies
    [total() * channels()] = 256 x 256 x 3 bytes: the buffer returned is the
    first quarter of the bytes of the float image, not the image. *)
Theorem float_result_is_truncated (cv : Napi.CvLibrary) (fresh : nat -> byte)
    (avx : bool) (input : list byte) (operation : string) :
  CvContract cv ->
  (length input <= frame_size)%nat ->
  operation ∈ ["hdr"; "tone_mapping"; "exposure_fusion"]%string ->
  let inputMat :=
    Napi.mkMat 256 256 Napi.CV_8U 3
      (input ++ map fresh (seq (length input) (frame_size - length input))) in
  let resultMat := (Napi.dispatch cv avx inputMat operation).1 in
  Napi.depth resultMat = Napi.CV_32F /\
  length (Napi.data resultMat) = Z.to_nat (4 * frame_bytes) /\
  Napi.processImageData fresh cv avx input operation
  = Napi.Ok (take frame_size (Napi.data resultMat), []) /\
  length (take frame_size (Napi.data resultMat)) = frame_size.
Proof.
  intros contract Hlen Hop inputMat resultMat.
  pose proof (bufferToMat_shaped fresh input Hlen) as Hm. fold inputMat in Hm.
  assert (shaped resultMat 256 256 Napi.CV_32F 3 /\
          (Napi.dispatch cv avx inputMat operation).2 = []) as [Hres Hout].
  { unfold resultMat.
    apply elem_of_cons in Hop as [->|Hop];
      [|apply elem_of_cons in Hop as [->|Hop];
        [|apply elem_of_cons in Hop as [->|Hop];
          [|apply elem_of_nil in Hop; contradiction]]];
      unfold Napi.dispatch; cbn [String.eqb Ascii.eqb Bool.eqb fst snd];
      (split; [|reflexivity]).
    - apply (processHDR_shaped cv contract _ _ _ _ _ Hm).
    - apply (applyToneMapping_reinhard_shaped cv contract _ _ _ _ _
               (processHDR_shaped cv contract _ _ _ _ _ Hm)).
    - unfold Napi.applyExposureFusion.
      exact (shaped_from _ _ _ _ _ _ _ _ Hm
               (MergeMertens_shaped cv contract inputMat _)). }
  pose proof (processImageData_of_dispatch fresh cv avx input operation
                Napi.CV_32F 3 Hlen ltac:(lia) Hres) as Hcall.
  fold inputMat in Hcall. fold resultMat in Hcall. rewrite Hout in Hcall.
  destruct Hres as (_ & _ & Hd & _ & Hblock).
  cbn [Napi.elemSize1] in Hblock.
  split; [exact Hd|]. split; [|split; [exact Hcall|]].
  - rewrite Hblock. unfold frame_bytes. f_equal; lia.
  - rewrite length_take, Hblock. unfold frame_bytes. lia.
Qed.

Lemma float_result_is_truncated_witness :
  Napi.processImageData zero_memory zero_library false [] "hdr"
  = Napi.Ok
      (take frame_size
         (Napi.data
            (Napi.dispatch zero_library false
               (Napi.mkMat 256 256 Napi.CV_8U 3
                  ([] ++ map zero_memory
                           (seq (length (@nil byte))
                                (frame_size - length (@nil byte)))))
               "hdr").1), []).
Proof.
  apply (float_result_is_truncated zero_library zero_memory false [] "hdr").
  - exact zero_library_contract.
  - cbn [length]. lia.
  - apply list_elem_of_here.
Defined.

(** X14: "edge_detection" returns a colour image that is gray: the 256 x 256 edge
    map [cv::Canny] computed from the gray levels of the input, each of its
    bytes written three times, and nothing is printed. *)
Theorem edge_detection_is_gray (cv : Napi.CvLibrary) (fresh : nat -> byte)
    (avx : bool) (input : list byte) :
  CvContract cv ->
  (length input <= frame_size)%nat ->
  let inputMat :=
    Napi.mkMat 256 256 Napi.CV_8U 3
      (input ++ map fresh (seq (length input) (frame_size - length input))) in
  let edges :=
    Napi.data
      (Napi.Canny cv (Napi.cvtColor cv inputMat Napi.COLOR_BGR2GRAY) 50 150) in
  length edges = Z.to_nat (256 * 256) /\
  Napi.processImageData fresh cv avx input "edge_detection"
  = Napi.Ok (flat_map (fun y => [y; y; y]) edges, []).
Proof.
  intros contract Hlen inputMat edges.
  pose proof (bufferToMat_shaped fresh input Hlen) as Hm. fold inputMat in Hm.
  pose proof (shaped_from _ _ _ _ _ _ _ _ (cvtColor_BGR2GRAY_shaped cv inputMat Hm)
                (Canny_shaped cv contract
                   (Napi.cvtColor cv inputMat Napi.COLOR_BGR2GRAY) 50%Q 150%Q))
    as Hedges.
  assert (length edges = Z.to_nat (256 * 256)) as Hcount.
  { destruct Hedges as (_ & _ & _ & _ & Hblock). unfold edges. rewrite Hblock.
    cbn [Napi.elemSize1]. f_equal. }
  split; [exact Hcount|].
  pose proof (processImageData_of_dispatch fresh cv avx input "edge_detection"
                Napi.CV_8U 3 Hlen ltac:(lia)) as Hcall.
  cbv zeta in Hcall. fold inputMat in Hcall.
  rewrite Hcall.
  - unfold Napi.dispatch, Napi.applyComputerVision.
    cbn [String.eqb Ascii.eqb Bool.eqb fst snd].
    unfold Napi.cvtColor at 1. cbn [Napi.data]. fold edges.
    rewrite gray2bgr_flat_map, take_ge; [reflexivity|].
    rewrite <- gray2bgr_flat_map, length_gray2bgr_data, Hcount. lia.
  - unfold Napi.dispatch. cbn [String.eqb Ascii.eqb Bool.eqb fst].
    apply (applyComputerVision_canny_shaped cv contract _ Hm).
Qed.

Lemma edge_detection_is_gray_witness :
  length
    (Napi.data
       (Napi.Canny zero_library
          (Napi.cvtColor zero_library
             (Napi.mkMat 256 256 Napi.CV_8U 3
                ([] ++ map zero_memory
                         (seq (length (@nil byte))
                              (frame_size - length (@nil byte)))))
             Napi.COLOR_BGR2GRAY) 50 150))
  = Z.to_nat (256 * 256).
Proof.
  apply (edge_detection_is_gray zero_library zero_memory false []).
  - exact zero_library_contract.
  - cbn [length]. lia.
Defined.

(** ** The snapshot of the addon *)

Section Snapshot.

Context {double : Type} `{DoubleArith double}.

Implicit Types (h : list (@Napi.JsObject double))
  (props : gmap string (@Napi.JsValue double))
  (averages : gmap string double).

Lemma getmetrics_step_eq (operations : nat) h averages (op : string * Z) props :
  h !! operations = Some (Napi.JsObj props) ->
  Napi.getmetrics_step operations (h, averages) op
  = (<[operations := Napi.JsObj (<[op.1 := Napi.JsRef (length h)]> props)]>
       (h ++ [Napi.JsObj
                (opMetrics_of op.2 (default d_zero (averages !! op.1)))]),
     match averages !! op.1 with
     | Some _ => averages
     | None => <[op.1 := d_zero]> averages
     end).
Proof.
  intros Hl.
  unfold Napi.getmetrics_step, Napi.js_alloc, Napi.index_or_insert, opMetrics_of.
  rewrite js_set_last.
  destruct (averages !! op.1) as [avg|]; rewrite js_set_last;
    cbn [from_option id]; unfold Napi.js_set;
    rewrite lookup_app_l by (eapply lookup_lt_Some, Hl);
    rewrite Hl; reflexivity.
Qed.

Lemma getmetrics_loop_reports (operations : nat) (ops : list (string * Z)) :
  forall h averages props,
    NoDup ops.*1 ->
    h !! operations = Some (Napi.JsObj props) ->
    let acc := foldl (Napi.getmetrics_step operations) (h, averages) ops in
    length acc.1 = (length h + length ops)%nat /\
    exists props',
      acc.1 !! operations = Some (Napi.JsObj props') /\
      (forall key, key ∉ ops.*1 -> props' !! key = props !! key) /\
      (forall key count, (key, count) ∈ ops ->
         exists l,
           props' !! key = Some (Napi.JsRef l) /\
           (length h <= l)%nat /\
           acc.1 !! l
           = Some (Napi.JsObj
                     (opMetrics_of count (default d_zero (averages !! key))))).
Proof.
  induction ops as [|op ops IH]; intros h averages props Hnd Hl; cbv zeta.
  - cbn [foldl fst length]. split; [lia|]. exists props.
    split; [exact Hl|]. split; [reflexivity|].
    intros key count Hin. apply elem_of_nil in Hin. contradiction.
  - cbn [foldl]. rewrite (getmetrics_step_eq operations h averages op props Hl).
    set (h1 := <[operations := _]> (h ++ [_])).
    set (a1 := match averages !! op.1 with Some _ => averages | None => _ end).
    rewrite fmap_cons in Hnd. apply NoDup_cons in Hnd as [Hfresh Hnd].
    assert (operations < length h)%nat as Hlt by (eapply lookup_lt_Some, Hl).
    assert (length h1 = S (length h)) as Hlen1.
    { unfold h1. rewrite length_insert, length_app. cbn [length]. lia. }
    assert (h1 !! operations
            = Some (Napi.JsObj (<[op.1 := Napi.JsRef (length h)]> props))) as Hl1.
    { unfold h1. apply list_lookup_insert_eq. rewrite length_app. lia. }
    assert (h1 !! length h
            = Some (Napi.JsObj
                      (opMetrics_of op.2 (default d_zero (averages !! op.1)))))
      as Hnew.
    { unfold h1. rewrite list_lookup_insert_ne by lia.
      apply list_lookup_middle. reflexivity. }
    destruct (IH h1 a1 _ Hnd Hl1) as (Hlen & props' & Hops & Hkeep & Hrep).
    pose proof (getmetrics_loop_frame operations ops h1 a1) as Hframe.
    cbv zeta in Hframe. destruct Hframe as (_ & Hframe & _).
    split; [rewrite Hlen, Hlen1; cbn [length]; lia|].
    exists props'. split; [exact Hops|]. split.
    + intros key Hkey. rewrite fmap_cons in Hkey.
      apply not_elem_of_cons in Hkey as [Hne Hkey].
      rewrite (Hkeep key Hkey). apply lookup_insert_ne. congruence.
    + intros key count Hin. apply elem_of_cons in Hin as [Heq|Hin].
      * subst op. cbn [fst snd] in *. exists (length h).
        rewrite (Hkeep key Hfresh), lookup_insert_eq.
        split; [reflexivity|]. split; [lia|].
        rewrite Hframe by lia. exact Hnew.
      * destruct (Hrep key count Hin) as (l & Hkey & Hle & Hobj).
        exists l. split; [exact Hkey|]. split; [lia|].
        rewrite Hobj. do 3 f_equal. unfold a1.
        assert (key <> op.1) as Hne.
        { intros ->. apply Hfresh.
          apply (list_elem_of_fmap_2 fst) in Hin. exact Hin. }
        destruct (averages !! op.1); [reflexivity|].
        rewrite lookup_insert_ne by congruence. reflexivity.
Qed.

End Snapshot.

(** X15: The snapshot [GetMetrics] returns reports every operation: its
    "operations" property is an object that has, for each operation counted
    so far, an object of its own with the "count" and the "averageTime" of
    that operation, and has no property for any other operation.  The call
    allocates the snapshot, the "operations" object and one object per
    counted operation, and nothing else. *)
Theorem GetMetrics_reports_operations {double : Type} `{DoubleArith double}
    (this : Napi.ImageProcessor) (h : list Napi.JsObject)
    (info : list Napi.JsValue) :
  let r := Napi.GetMetrics this h info in
  let m := Napi.metrics_ this in
  length (Napi.js_heap r)
  = (length h + 2 + size (Napi.operation_count m))%nat /\
  exists operations,
    Napi.property_in (Napi.js_heap r) (Napi.returned r) "operations"
    = Some (Napi.JsRef operations) /\
    forall op,
      match Napi.operation_count m !! op with
      | None =>
          Napi.property_in (Napi.js_heap r) (Napi.JsRef operations) op = None
      | Some count =>
          exists l,
            Napi.property_in (Napi.js_heap r) (Napi.JsRef operations) op
            = Some (Napi.JsRef l) /\
            Napi.property_in (Napi.js_heap r) (Napi.JsRef l) "count"
            = Some (Napi.JsNumber (d_of_uint64 count)) /\
            Napi.property_in (Napi.js_heap r) (Napi.JsRef l) "averageTime"
            = Some (Napi.JsNumber
                      (default d_zero (Napi.operation_avg_time m !! op)))
      end.
Proof.
  cbv zeta. unfold Napi.GetMetrics, Napi.js_alloc. rewrite !js_set_last.
  set (props := <["memoryAllocated"%string := _]> _).
  set (counts := Napi.operation_count (Napi.metrics_ this)).
  set (h0 := (h ++ [Napi.JsObj props]) ++ [Napi.JsObj ∅]).
  set (operations := length (h ++ [Napi.JsObj props])).
  assert (operations = S (length h)) as Hoperations.
  { unfold operations. rewrite length_app. cbn [length]. lia. }
  assert (length h0 = S (S (length h))) as Hlen0.
  { unfold h0. rewrite !length_app. cbn [length]. lia. }
  pose proof (getmetrics_loop_frame operations (map_to_list counts) h0
                (Napi.operation_avg_time (Napi.metrics_ this))) as Hframe.
  pose proof (getmetrics_loop_reports operations (map_to_list counts) h0
                (Napi.operation_avg_time (Napi.metrics_ this)) ∅
                (NoDup_fst_map_to_list counts)
                (list_lookup_middle _ _ _ _ eq_refl)) as Hloop.
  cbv zeta in Hframe, Hloop.
  destruct (foldl _ _ _) as [h' averages]. cbn [fst snd] in Hframe, Hloop.
  destruct Hframe as (_ & Hframe & _).
  destruct Hloop as (Hlen & props' & Hops & Hkeep & Hrep).
  cbn [Napi.returned Napi.js_heap].
  assert (h' !! length h = Some (Napi.JsObj props)) as Hmetrics.
  { rewrite Hframe by lia. unfold h0.
    rewrite lookup_app_l by (rewrite length_app; cbn [length]; lia).
    apply list_lookup_middle. reflexivity. }
  split.
  { rewrite length_js_set, Hlen, Hlen0, length_map_to_list. lia. }
  exists operations. split.
  { unfold Napi.property_in. rewrite (js_set_same _ _ _ _ _ Hmetrics).
    apply lookup_insert_eq. }
  intros op. unfold Napi.property_in.
  rewrite (js_set_other _ (length h) _ _ operations) by lia. rewrite Hops.
  destruct (counts !! op) as [count|] eqn:Hcount.
  - destruct (Hrep op count) as (l & Hkey & Hle & Hobj).
    { apply elem_of_map_to_list, Hcount. }
    exists l. split; [exact Hkey|].
    rewrite (js_set_other _ (length h) _ _ l) by lia. rewrite Hobj.
    unfold opMetrics_of. split.
    + rewrite lookup_insert_ne by discriminate. apply lookup_insert_eq.
    + apply lookup_insert_eq.
  - rewrite Hkeep; [apply lookup_empty|].
    intros Hin. apply list_elem_of_fmap in Hin as ([key count] & -> & Hin).
    apply elem_of_map_to_list in Hin. cbn [fst] in Hcount. congruence.
Qed.

(** ** Initialisation *)

(** The test [(ecx & (1 << 28)) != 0] of [initializeProcessor] reads bit 28
    of [ecx]. *)
Lemma land_bit_28 (ecx : Z) :
  negb (Z.land ecx (Z.shiftl 1 28) =? 0) = Z.testbit ecx 28.
Proof.
  change (Z.shiftl 1 28) with (2 ^ 28).
  destruct (Z.testbit ecx 28) eqn:Hbit.
  - destruct (Z.eqb_spec (Z.land ecx (2 ^ 28)) 0) as [Hzero|_]; [|reflexivity].
    assert (Z.testbit (Z.land ecx (2 ^ 28)) 28 = true) as Hland.
    { rewrite Z.land_spec, Hbit. reflexivity. }
    rewrite Hzero in Hland. discriminate Hland.
  - assert (Z.land ecx (2 ^ 28) = 0) as ->; [|reflexivity].
    apply Z.bits_inj'. intros n Hn.
    rewrite Z.land_spec, Z.bits_0, Z.pow2_bits_eqb by lia.
    destruct (Z.eqb_spec 28 n) as [<-|_].
    + rewrite Hbit. reflexivity.
    + apply andb_false_r.
Qed.


(** ** The running means on recorded times *)

Lemma addon_means_exact_witness :
  (Napi.average_time
     (record_all false Napi.metrics_init
        [("invert"%string, 2%Q); ("invert"%string, 4%Q)])
   == Qsum (map snd [("invert"%string, 2%Q); ("invert"%string, 4%Q)])
      / inject_Z (Z.of_nat (length [("invert"%string, 2%Q); ("invert"%string, 4%Q)])))%Q.
Proof.
  apply (addon_means_exact false
           [("invert"%string, 2%Q); ("invert"%string, 4%Q)]).
  - cbn [length]. lia.
  - discriminate.
Defined.

Lemma service_mean_exact_witness :
  (Service.average_processing_time
     (service_record_all Service.metrics_init
        [("invert"%string, 2%Q); ("grayscale"%string, 4%Q)])
   == Qsum (map snd [("invert"%string, 2%Q); ("grayscale"%string, 4%Q)])
      / inject_Z (Z.of_nat (length [("invert"%string, 2%Q);
                                    ("grayscale"%string, 4%Q)])))%Q.
Proof.
  apply (service_mean_exact
           [("invert"%string, 2%Q); ("grayscale"%string, 4%Q)]).
  - cbn [length]. lia.
  - discriminate.
Defined.

(** * The running means in [double] arithmetic *)

(** ** Rounding to nearest *)

Module Rounding.

Import Reals Lra Floats.
Import Binary64.
Local Open Scope R_scope.

Lemma bpow_gt_0 (e : Z) : 0 < bpow e.
Proof. apply powerRZ_lt. lra. Qed.

Lemma bpow_add (a b : Z) : bpow (a + b) = bpow a * bpow b.
Proof. apply powerRZ_add. lra. Qed.

Lemma bpow_0 : bpow 0 = 1.
Proof. reflexivity. Qed.

Lemma bpow_1 : bpow 1 = 2.
Proof. unfold bpow. simpl. lra. Qed.

Lemma bpow_opp (e : Z) : bpow (- e) = / bpow e.
Proof. apply powerRZ_neg'. Qed.

Lemma bpow_m1 : bpow (-1) = / 2.
Proof. change (-1)%Z with (Z.opp 1). rewrite bpow_opp, bpow_1. reflexivity. Qed.

Lemma bpow_cancel (e : Z) : bpow e * bpow (- e) = 1.
Proof. rewrite <- bpow_add, Z.add_opp_diag_r. apply bpow_0. Qed.

Lemma bpow_IZR (n : Z) : (0 <= n)%Z -> bpow n = IZR (2 ^ n).
Proof.
  intros Hn. unfold bpow. rewrite <- (Z2Nat.id n) by exact Hn.
  rewrite <- pow_powerRZ, pow_IZR. reflexivity.
Qed.

Lemma bpow_le (a b : Z) : (a <= b)%Z -> bpow a <= bpow b.
Proof.
  intros Hab. replace b with (a + (b - a))%Z by lia.
  rewrite bpow_add, (bpow_IZR (b - a)) by lia.
  assert (1 <= IZR (2 ^ (b - a))).
  { apply IZR_le. assert (0 < 2 ^ (b - a))%Z by (apply Z.pow_pos_nonneg; lia). lia. }
  pose proof (bpow_gt_0 a). nra.
Qed.


Lemma inbetween_bounds (m : Z) (x : R) (l : location) :
  inbetween m x l -> IZR m <= x < IZR m + 1.
Proof. destruct l as [|[| |]]; simpl; lra. Qed.


Lemma IZR_xO (p : positive) : IZR (Zpos p~0) = 2 * IZR (Zpos p).
Proof. rewrite Pos2Z.inj_xO, mult_IZR. reflexivity. Qed.

Lemma IZR_xI (p : positive) : IZR (Zpos p~1) = 2 * IZR (Zpos p) + 1.
Proof. rewrite Pos2Z.inj_xI, plus_IZR, mult_IZR. reflexivity. Qed.

Lemma shr_1_represents (mrs : shr_record) (x : R) :
  represents mrs x -> represents (shr_1 mrs) (x / 2).
Proof.
  destruct mrs as [m r s]. unfold represents. cbn [shr_m].
  intros [Hm Hx].
  destruct m as [|[p|p|]|p]; [| | | |lia];
    destruct r, s; cbn [shr_1 orb shr_m loc_of_shr_record inbetween] in *;
    rewrite ?(IZR_xO p), ?(IZR_xI p) in *;
    (split; [lia|lra]).
Qed.

Lemma iter_pos_shr_1 (n : positive) :
  forall (mrs : shr_record) (x : R),
    represents mrs x ->
    represents (iter_pos shr_1 n mrs) (x * bpow (- Zpos n)).
Proof.
  induction n as [n IH|n IH|]; intros mrs x Hx; cbn [iter_pos].
  - replace (x * bpow (- Zpos n~1))
      with (x / 2 * bpow (- Zpos n) * bpow (- Zpos n)).
    + apply IH, IH, shr_1_represents, Hx.
    + replace (- Zpos n~1)%Z with (- Zpos n + (- Zpos n + -1))%Z by lia.
      rewrite !bpow_add, bpow_m1. field.
  - replace (x * bpow (- Zpos n~0))
      with (x * bpow (- Zpos n) * bpow (- Zpos n)).
    + apply IH, IH, Hx.
    + replace (- Zpos n~0)%Z with (- Zpos n + - Zpos n)%Z by lia.
      rewrite bpow_add. ring.
  - change (Z.opp 1) with (-1)%Z. rewrite bpow_m1. apply shr_1_represents, Hx.
Qed.

Lemma shr_represents (mrs : shr_record) (e n : Z) (x : R) :
  represents mrs (x * bpow (- e)) ->
  represents (fst (shr mrs e n)) (x * bpow (- snd (shr mrs e n))) /\
  snd (shr mrs e n) = (e + Z.max n 0)%Z.
Proof.
  intros Hx. destruct n as [|n|n]; cbn [shr fst snd].
  - split; [exact Hx | lia].
  - split; [|lia].
    replace (x * bpow (- (e + Zpos n)))
      with (x * bpow (- e) * bpow (- Zpos n)).
    + apply iter_pos_shr_1, Hx.
    + replace (- (e + Zpos n))%Z with (- e + - Zpos n)%Z by lia.
      rewrite bpow_add. ring.
  - split; [exact Hx | lia].
Qed.

Lemma loc_of_shr_record_of_loc (m : Z) (l : location) :
  loc_of_shr_record (shr_record_of_loc m l) = l /\
  shr_m (shr_record_of_loc m l) = m.
Proof. destruct l as [|[| |]]; split; reflexivity. Qed.

(** ** Digits *)

Lemma digits2_pos_bounds (p : positive) :
  (2 ^ (Zpos (digits2_pos p) - 1) <= Zpos p < 2 ^ Zpos (digits2_pos p))%Z.
Proof.
  induction p as [p IH|p IH|]; cbn [digits2_pos].
  - rewrite Pos2Z.inj_succ.
    replace (Z.succ (Zpos (digits2_pos p)) - 1)%Z
      with (Z.succ (Zpos (digits2_pos p) - 1)) by lia.
    rewrite !Z.pow_succ_r by lia.
    assert (Zpos p~1 = 2 * Zpos p + 1)%Z as -> by reflexivity. lia.
  - rewrite Pos2Z.inj_succ.
    replace (Z.succ (Zpos (digits2_pos p)) - 1)%Z
      with (Z.succ (Zpos (digits2_pos p) - 1)) by lia.
    rewrite !Z.pow_succ_r by lia.
    assert (Zpos p~0 = 2 * Zpos p)%Z as -> by reflexivity. lia.
  - simpl. lia.
Qed.

Lemma Zdigits2_upper (m : Z) :
  (0 <= m)%Z -> (0 <= Zdigits2 m)%Z /\ (m + 1 <= 2 ^ Zdigits2 m)%Z.
Proof.
  intros Hm. destruct m as [|p|p]; [simpl; lia | | lia].
  cbn [Zdigits2]. pose proof (digits2_pos_bounds p). lia.
Qed.

Lemma Zdigits2_lower (m : Z) :
  (0 < m)%Z -> (2 ^ (Zdigits2 m - 1) <= m)%Z.
Proof.
  intros Hm. destruct m as [|p|p]; [lia | | lia].
  cbn [Zdigits2]. pose proof (digits2_pos_bounds p). lia.
Qed.

(** ** The operations on non-negative numbers *)

Lemma iter_xO_value (m d : positive) :
  IZR (Zpos (Pos.iter xO m d)) = IZR (Zpos m) * bpow (Zpos d).
Proof.
  induction d as [|d IH] using Pos.peano_ind.
  - cbn [Pos.iter]. rewrite IZR_xO, bpow_1. ring.
  - rewrite Pos.iter_succ, IZR_xO, IH, Pos2Z.inj_succ.
    unfold Z.succ. rewrite bpow_add, bpow_1. ring.
Qed.

Lemma shl_align_value (mx : positive) (ex ex' : Z) :
  IZR (Zpos (fst (shl_align mx ex ex'))) * bpow (snd (shl_align mx ex ex'))
  = IZR (Zpos mx) * bpow ex.
Proof.
  unfold shl_align. destruct (ex' - ex)%Z as [|d|d] eqn:Hd; cbn [fst snd];
    try reflexivity.
  rewrite iter_xO_value. replace ex with (Zpos d + ex')%Z by lia.
  rewrite bpow_add. ring.
Qed.

Lemma shl_align_le (mx : positive) (ex ex' : Z) :
  (ex' <= ex)%Z -> snd (shl_align mx ex ex') = ex'.
Proof.
  intros Hle. unfold shl_align.
  destruct (ex' - ex)%Z as [|d|d] eqn:Hd; cbn [snd]; lia.
Qed.

Lemma SFnonneg_value (x : spec_float) : SFnonneg x = true -> 0 <= SF2R x.
Proof.
  destruct x as [s|s| |s m e]; cbn; try discriminate; try lra.
  destruct s; [discriminate|]. intros _.
  apply Rmult_le_pos; [apply IZR_le; lia | left; apply bpow_gt_0].
Qed.

Lemma SFnormal_nonneg (prec : Z) (x : spec_float) : SFnormal prec x = true -> SFnonneg x = true.
Proof.
  destruct x as [s|s| |s m e]; cbn; try discriminate.
  intros H. apply andb_prop in H. apply H.
Qed.

Lemma SFnormal_pos (prec : Z) (x : spec_float) : SFnormal prec x = true -> 0 < SF2R x.
Proof.
  destruct x as [s|s| |s m e]; cbn; try discriminate.
  destruct s; [discriminate|]. intros _.
  apply Rmult_lt_0_compat; [apply IZR_lt; lia | apply bpow_gt_0].
Qed.

Lemma close_exact (prec : Z) (z : spec_float) :
  SFnonneg z = true -> close prec z (SF2R z).
Proof.
  intros Hz. unfold close. rewrite Rminus_diag, Rabs_R0.
  apply Rmult_le_pos; [left; apply bpow_gt_0 | apply SFnonneg_value, Hz].
Qed.

Lemma new_location_correct (my rem q : Z) :
  (0 < my)%Z -> (0 <= rem < my)%Z ->
  inbetween q (IZR q + IZR rem / IZR my) (new_location my rem).
Proof.
  intros Hmy Hrem.
  assert (0 < IZR my) as Hmy' by (apply IZR_lt; exact Hmy).
  assert (forall c : comparison,
            (2 * rem ?= my)%Z = c ->
            (0 < rem)%Z ->
            inbetween q (IZR q + IZR rem / IZR my) (loc_Inexact c)) as Hcmp.
  { intros c Hc Hpos.
    assert (0 < IZR rem / IZR my).
    { apply Rdiv_lt_0_compat; [apply IZR_lt; exact Hpos | exact Hmy']. }
    destruct c; cbn [inbetween].
    - apply Z.compare_eq in Hc. f_equal.
      apply Rmult_eq_reg_r with (IZR my); [|lra].
      unfold Rdiv. rewrite Rmult_assoc, Rinv_l by lra.
      rewrite <- Hc, mult_IZR. lra.
    - apply Z.compare_lt_iff in Hc. split; [lra|].
      apply Rplus_lt_compat_l. apply Rmult_lt_reg_r with (IZR my); [lra|].
      unfold Rdiv. rewrite Rmult_assoc, Rinv_l by lra.
      apply IZR_lt in Hc. rewrite mult_IZR in Hc. lra.
    - apply Z.compare_gt_iff in Hc. split.
      + apply Rplus_lt_compat_l. apply Rmult_lt_reg_r with (IZR my); [lra|].
        unfold Rdiv. rewrite Rmult_assoc, Rinv_l by lra.
        apply IZR_lt in Hc. rewrite mult_IZR in Hc. lra.
      + apply Rplus_lt_compat_l. apply Rmult_lt_reg_r with (IZR my); [lra|].
        unfold Rdiv. rewrite Rmult_assoc, Rinv_l by lra.
        assert (IZR rem < IZR my) by (apply IZR_lt; lia). lra. }
  unfold new_location, new_location_even, new_location_odd.
  destruct (Z.even my) eqn:Heven; cbv beta;
    (destruct (Z.eqb rem 0) eqn:Hnz;
     [apply Z.eqb_eq in Hnz; subst rem; cbn [inbetween]; unfold Rdiv;
      rewrite Rmult_0_l; lra
     |apply Z.eqb_neq in Hnz]).
  - apply Hcmp; [reflexivity | lia].
  - assert (2 * rem <> my)%Z as Hodd.
    { intros <-. rewrite Z.even_mul in Heven. discriminate Heven. }
    destruct (2 * rem + 1 ?= my)%Z eqn:Hc.
    + apply Z.compare_eq in Hc. apply Hcmp; [|lia].
      apply Z.compare_lt_iff. clear - Hc. lia.
    + rewrite Z.compare_lt_iff in Hc. apply Hcmp; [|lia].
      apply Z.compare_lt_iff. clear - Hc. lia.
    + rewrite Z.compare_gt_iff in Hc. apply Hcmp; [|lia].
      apply Z.compare_gt_iff. clear - Hc Hodd. lia.
Qed.

(** ** Rounding *)

Lemma round_nearest_even_error (m : Z) (x : R) (l : location) :
  inbetween m x l ->
  let m' := round_nearest_even m l in
  (m <= m' <= m + 1)%Z /\ Rabs (IZR m' - x) <= / 2.
Proof.
  intros Hx. cbv zeta.
  destruct l as [|[| |]]; cbn [round_nearest_even inbetween] in *.
  - split; [lia|]. rewrite Hx, Rminus_diag. rewrite Rabs_R0. lra.
  - destruct (Z.even m).
    + split; [lia|]. rewrite Hx. apply Rabs_le. lra.
    + split; [lia|]. rewrite Hx, plus_IZR. apply Rabs_le. lra.
  - split; [lia|]. apply Rabs_le. lra.
  - split; [lia|]. rewrite plus_IZR. apply Rabs_le. lra.
Qed.

Section Round.

Variables prec emax : Z.
Hypothesis prec_gt_0 : (0 < prec)%Z.

Let emin := SpecFloat.emin prec emax.
Let fexp := SpecFloat.fexp prec emax.

Lemma fexp_ge_emin (e : Z) : (emin <= fexp e)%Z.
Proof. unfold fexp, SpecFloat.fexp, emin. lia. Qed.

Lemma fexp_ge (e : Z) : (e - prec <= fexp e)%Z.
Proof. unfold fexp, SpecFloat.fexp. lia. Qed.

Lemma fexp_small (d e : Z) :
  (d <= prec)%Z -> (emin <= e)%Z -> (fexp (d + e) <= e)%Z.
Proof. unfold fexp, SpecFloat.fexp, emin. lia. Qed.

(** The first step of rounding: the mantissa is brought to at most [prec]
    digits. *)
Lemma shr_fexp_represents (m e : Z) (l : location) (r : R) :
  (0 <= m)%Z ->
  inbetween m (r * bpow (- e)) l ->
  let mrs' := fst (shr_fexp prec emax m e l) in
  let e' := snd (shr_fexp prec emax m e l) in
  represents mrs' (r * bpow (- e')) /\
  (emin <= e')%Z /\ (e <= e')%Z /\
  (shr_m mrs' < 2 ^ prec)%Z.
Proof.
  intros Hm Hr. cbv zeta. unfold shr_fexp.
  destruct (loc_of_shr_record_of_loc m l) as [Hloc Hshr].
  assert (represents (shr_record_of_loc m l) (r * bpow (- e))) as Hrep.
  { unfold represents. rewrite Hloc, Hshr. split; assumption. }
  set (n := (SpecFloat.fexp prec emax (Zdigits2 m + e) - e)%Z).
  destruct (shr_represents _ e n r Hrep) as [Hrep' He'].
  set (mrs' := fst (shr (shr_record_of_loc m l) e n)) in *.
  set (e' := snd (shr (shr_record_of_loc m l) e n)) in *.
  pose proof (fexp_ge_emin (Zdigits2 m + e)) as Hemin.
  pose proof (fexp_ge (Zdigits2 m + e)) as Hfexp.
  fold fexp in n.
  split; [exact Hrep'|]. split; [lia|]. split; [lia|].
  destruct Hrep' as [Hm' Hin].
  apply inbetween_bounds in Hin. apply inbetween_bounds in Hr.
  destruct (Zdigits2_upper m Hm) as [Hd Hupper].
  apply lt_IZR. rewrite <- bpow_IZR by lia.
  apply Rle_lt_trans with (1 := proj1 Hin).
  assert (r * bpow (- e) < bpow (Zdigits2 m)) as Hlt.
  { apply Rlt_le_trans with (1 := proj2 Hr).
    rewrite bpow_IZR by lia. rewrite <- plus_IZR. apply IZR_le. exact Hupper. }
  replace (r * bpow (- e')) with (r * bpow (- e) * bpow (- (e' - e))).
  2:{ rewrite Rmult_assoc, <- bpow_add. f_equal. f_equal. lia. }
  apply Rlt_le_trans with (bpow (Zdigits2 m) * bpow (- (e' - e))).
  - apply Rmult_lt_compat_r; [apply bpow_gt_0 | exact Hlt].
  - rewrite <- bpow_add. apply bpow_le. lia.
Qed.

(** The error of [binary_round_aux], relative to a result that is normal. *)
Lemma binary_round_aux_error (sx : bool) (mx ex : Z) (lx : location) (r : R)
    (s : bool) (m : positive) (e : Z) :
  (0 <= mx)%Z ->
  inbetween mx (r * bpow (- ex)) lx ->
  binary_round_aux prec emax sx mx ex lx = S754_finite s m e ->
  (2 ^ (prec - 1) <= Zpos m)%Z ->
  s = sx /\
  Rabs (IZR (Zpos m) * bpow e - r) <= bpow (- prec) * (IZR (Zpos m) * bpow e).
Proof.
  intros Hmx Hr Hround Hnormal.
  unfold binary_round_aux in Hround.
  pose proof (shr_fexp_represents mx ex lx r Hmx Hr) as H1. cbv zeta in H1.
  destruct (shr_fexp prec emax mx ex lx) as [mrs' e'].
  cbn [fst snd] in H1. destruct H1 as ([Hm' Hin'] & Hemin & _ & Hlt').
  pose proof (round_nearest_even_error _ _ _ Hin') as H2. cbv zeta in H2.
  set (m'' := round_nearest_even (shr_m mrs') (loc_of_shr_record mrs')) in *.
  destruct H2 as [Hm'' Herr].
  assert (Rabs (IZR m'' * bpow e' - r) <= bpow e' / 2) as Herr'.
  { replace (IZR m'' * bpow e' - r)
      with ((IZR m'' - r * bpow (- e')) * bpow e').
    - rewrite Rabs_mult, (Rabs_pos_eq (bpow e')) by (left; apply bpow_gt_0).
      pose proof (bpow_gt_0 e'). nra.
    - rewrite Rmult_minus_distr_r, Rmult_assoc.
      rewrite (Rmult_comm (bpow (- e'))), bpow_cancel. ring. }
  assert (bpow (- prec) * IZR (2 ^ (prec - 1)) = / 2) as Hhalf.
  { rewrite <- bpow_IZR by lia. rewrite <- bpow_add.
    replace (- prec + (prec - 1))%Z with (-1)%Z by lia. apply bpow_m1. }
  destruct (Z.eq_dec m'' (2 ^ prec)) as [Hcarry|Hnocarry].
  - (* the rounding carried into one more digit *)
    assert (exists p, m'' = Zpos p~0 /\ Zpos p = (2 ^ (prec - 1))%Z) as (p & Hp & Hpv).
    { assert (0 < 2 ^ (prec - 1))%Z as Hpos by (apply Z.pow_pos_nonneg; lia).
      destruct (2 ^ (prec - 1))%Z as [|p|p] eqn:Hpow; try lia.
      exists p. split; [|reflexivity].
      rewrite Hcarry. replace prec with (Z.succ (prec - 1)) at 1 by lia.
      rewrite Z.pow_succ_r, Hpow by lia. reflexivity. }
    assert (Zdigits2 m'' = prec + 1)%Z as Hdigits.
    { rewrite Hp. cbn [Zdigits2].
      pose proof (digits2_pos_bounds p~0) as Hb. rewrite <- Hp, Hcarry in Hb.
      destruct Hb as [Hb1 Hb2].
      apply Z.pow_lt_mono_r_iff in Hb2; [|lia|lia].
      assert (Zpos (digits2_pos p~0) - 1 < prec + 1)%Z.
      { apply (Z.pow_lt_mono_r_iff 2); [lia|lia|].
        replace (prec + 1)%Z with (Z.succ prec) by lia.
        rewrite Z.pow_succ_r by lia.
        assert (0 < 2 ^ prec)%Z by (apply Z.pow_pos_nonneg; lia). lia. }
      lia. }
    unfold shr_fexp in Hround. rewrite Hdigits in Hround.
    replace (SpecFloat.fexp prec emax (prec + 1 + e') - e')%Z with 1%Z in Hround
      by (unfold SpecFloat.fexp; fold emin; lia).
    rewrite Hp in Hround.
    cbn [shr shr_record_of_loc iter_pos shr_1 orb shr_m] in Hround.
    destruct (Z.leb (e' + 1) (emax - prec)); [|discriminate].
    injection Hround as <- <- <-. split; [reflexivity|].
    replace (IZR (Zpos p) * bpow (e' + 1)) with (IZR m'' * bpow e').
    2:{ rewrite Hp, IZR_xO, bpow_add, bpow_1. ring. }
    apply Rle_trans with (1 := Herr').
    rewrite Hcarry, <- bpow_IZR by lia.
    rewrite <- Rmult_assoc, <- bpow_add.
    replace (- prec + prec)%Z with 0%Z by lia. rewrite bpow_0.
    pose proof (bpow_gt_0 e'). lra.
  - (* no carry: the second shift does nothing *)
    assert (m'' < 2 ^ prec)%Z as Hlt'' by lia.
    assert (Zdigits2 m'' <= prec)%Z as Hdigits.
    { destruct (Z.eq_dec m'' 0) as [->|Hnz]; [simpl; lia|].
      pose proof (Zdigits2_lower m'' ltac:(lia)) as Hlow.
      assert (2 ^ (Zdigits2 m'' - 1) < 2 ^ prec)%Z as Hpow by lia.
      apply Z.pow_lt_mono_r_iff in Hpow; lia. }
    unfold shr_fexp in Hround.
    pose proof (fexp_small _ _ Hdigits Hemin) as Hsmall. unfold fexp in Hsmall.
    destruct (SpecFloat.fexp prec emax (Zdigits2 m'' + e') - e')%Z
      as [|n|n] eqn:Hn; [| lia |];
      cbn [shr shr_record_of_loc shr_m] in Hround;
      (destruct m'' as [|q|q] eqn:Hq; [discriminate| |discriminate];
       destruct (Z.leb e' (emax - prec)); [|discriminate];
       injection Hround as <- <- <-; split; [reflexivity|];
       apply Rle_trans with (1 := Herr');
       replace (bpow e' / 2)
         with (bpow (- prec) * (IZR (2 ^ (prec - 1)) * bpow e'))
         by (rewrite <- Rmult_assoc, Hhalf; field);
       apply Rmult_le_compat_l; [left; apply bpow_gt_0|];
       apply Rmult_le_compat_r; [left; apply bpow_gt_0|];
       apply IZR_le; exact Hnormal).
Qed.

(** ** The operations on non-negative numbers *)






Lemma close_round_aux (mx ex : Z) (lx : location) (r : R) :
  (0 <= mx)%Z ->
  inbetween mx (r * bpow (- ex)) lx ->
  SFnormal prec (binary_round_aux prec emax false mx ex lx) = true ->
  close prec (binary_round_aux prec emax false mx ex lx) r.
Proof.
  intros Hmx Hr Hnormal.
  destruct (binary_round_aux prec emax false mx ex lx) as [s|s| |s m e] eqn:Hround;
    try discriminate.
  cbn [SFnormal] in Hnormal. apply andb_prop in Hnormal as [Hs Hm].
  destruct s; [discriminate|]. apply Z.leb_le in Hm.
  destruct (binary_round_aux_error _ _ _ _ _ _ _ _ Hmx Hr Hround Hm) as [_ Herr].
  exact Herr.
Qed.

Lemma close_round (mx : positive) (ex : Z) :
  SFnormal prec (binary_round prec emax false mx ex) = true ->
  close prec (binary_round prec emax false mx ex) (IZR (Zpos mx) * bpow ex).
Proof.
  unfold binary_round.
  pose proof (shl_align_value mx ex
                (SpecFloat.fexp prec emax (Zpos (digits2_pos mx) + ex))) as Hval.
  destruct (shl_align mx ex _) as [mz ez]. cbn [fst snd] in Hval.
  intros Hnormal. apply close_round_aux; [lia| |exact Hnormal].
  cbn [inbetween]. rewrite <- Hval, Rmult_assoc, bpow_cancel. ring.
Qed.

Lemma SFmul_close (x y : spec_float) :
  SFnonneg x = true -> SFnonneg y = true ->
  orb (orb (SFis_zero x) (SFis_zero y)) (SFnormal prec (SFmul prec emax x y))
  = true ->
  SFnonneg (SFmul prec emax x y) = true /\
  close prec (SFmul prec emax x y) (SF2R x * SF2R y).
Proof.
  destruct x as [sx|sx| |sx mx ex], y as [sy|sy| |sy my ey];
    cbn [SFnonneg SFis_zero orb]; try discriminate;
    intros Hx Hy Hz.
  - split; [reflexivity|]. cbn [SFmul]. unfold close. cbn [SF2R].
    rewrite Rmult_0_l, Rminus_diag, Rabs_R0. lra.
  - split; [reflexivity|]. cbn [SFmul]. unfold close. cbn [SF2R].
    rewrite Rmult_0_l, Rminus_diag, Rabs_R0. lra.
  - split; [reflexivity|]. cbn [SFmul]. unfold close. cbn [SF2R].
    rewrite Rmult_0_r, Rminus_diag, Rabs_R0. lra.
  - destruct sx, sy; try discriminate.
    split; [apply (SFnormal_nonneg prec), Hz|].
    cbn [SFmul xorb] in *. cbn [SF2R].
    apply close_round_aux; [lia| |exact Hz].
    cbn [inbetween]. rewrite Pos2Z.inj_mul, mult_IZR.
    replace (- (ex + ey))%Z with (- ex + - ey)%Z by lia. rewrite bpow_add.
    transitivity (IZR (Zpos mx) * IZR (Zpos my)
                  * (bpow ex * bpow (- ex)) * (bpow ey * bpow (- ey))); [ring|].
    rewrite !bpow_cancel. ring.
Qed.

Lemma SFadd_close (x y : spec_float) :
  SFnonneg x = true -> SFnonneg y = true ->
  orb (orb (SFis_zero x) (SFis_zero y)) (SFnormal prec (SFadd prec emax x y))
  = true ->
  SFnonneg (SFadd prec emax x y) = true /\
  close prec (SFadd prec emax x y) (SF2R x + SF2R y).
Proof.
  destruct x as [sx|sx| |sx mx ex], y as [sy|sy| |sy my ey];
    cbn [SFnonneg SFis_zero orb]; try discriminate;
    intros Hx Hy Hz.
  - assert (SFadd prec emax (S754_zero sx) (S754_zero sy) = S754_zero sx
            \/ SFadd prec emax (S754_zero sx) (S754_zero sy) = S754_zero false)
      as [-> | ->] by (destruct sx, sy; cbn; auto);
      (split; [reflexivity|]); unfold close; cbn [SF2R];
      rewrite Rplus_0_l, Rminus_diag, Rabs_R0; lra.
  - cbn [SFadd]. split; [exact Hy|].
    cbn [SF2R SFnonneg] in *. rewrite Rplus_0_l.
    apply (close_exact prec (S754_finite sy my ey)). exact Hy.
  - cbn [SFadd]. split; [exact Hx|].
    cbn [SF2R SFnonneg] in *. rewrite Rplus_0_r.
    apply (close_exact prec (S754_finite sx mx ex)). exact Hx.
  - destruct sx, sy; try discriminate.
    split; [apply (SFnormal_nonneg prec), Hz|].
    cbn [SFadd cond_Zopp] in *. cbn [SF2R].
    pose proof (shl_align_value mx ex (Z.min ex ey)) as Hvx.
    pose proof (shl_align_value my ey (Z.min ex ey)) as Hvy.
    rewrite shl_align_le in Hvx, Hvy by lia.
    rewrite <- Hvx, <- Hvy, <- Rmult_plus_distr_r, <- plus_IZR.
    cbn [Z.add binary_normalize] in *.
    apply close_round. exact Hz.
Qed.

Lemma SFdiv_core_inbetween (mx my : positive) (ex ey : Z) :
  let '(q, e', l) := SFdiv_core_binary prec emax (Zpos mx) ex (Zpos my) ey in
  (0 <= q)%Z /\
  inbetween q (IZR (Zpos mx) * bpow ex / (IZR (Zpos my) * bpow ey) * bpow (- e')) l.
Proof.
  unfold SFdiv_core_binary.
  set (e' := Z.min _ (ex - ey)).
  assert (exists s, (ex - ey - e' = Z.of_nat s)%Z) as [s Hs].
  { exists (Z.to_nat (ex - ey - e')). rewrite Z2Nat.id; [reflexivity|]. unfold e'. lia. }
  set (m' := match (ex - ey - e')%Z with
             | 0%Z => Zpos mx
             | Zpos _ => Z.shiftl (Zpos mx) (ex - ey - e')
             | Zneg _ => 0%Z
             end).
  assert (m' = Zpos mx * 2 ^ (ex - ey - e'))%Z as Hm'.
  { unfold m'. destruct (ex - ey - e')%Z as [|p|p] eqn:Hp.
    - rewrite Z.pow_0_r. lia.
    - apply Z.shiftl_mul_pow2. lia.
    - lia. }
  pose proof (Z_div_mod m' (Zpos my) ltac:(lia)) as Hdiv.
  destruct (Z.div_eucl m' (Zpos my)) as [q rem]. destruct Hdiv as [Hq Hrem].
  assert (0 <= m')%Z as Hpos.
  { rewrite Hm'. apply Z.mul_nonneg_nonneg; [lia|]. apply Z.pow_nonneg. lia. }
  split; [nia|].
  replace (IZR (Zpos mx) * bpow ex / (IZR (Zpos my) * bpow ey) * bpow (- e'))
    with (IZR q + IZR rem / IZR (Zpos my)).
  { apply new_location_correct; lia. }
  assert (0 < IZR (Zpos my)) as Hmy by (apply IZR_lt; lia).
  assert (IZR m' = IZR (Zpos mx) * bpow (ex - ey - e')) as Hm'R.
  { rewrite Hm', mult_IZR, <- bpow_IZR by lia. reflexivity. }
  assert (IZR m' = IZR (Zpos my) * IZR q + IZR rem) as HqR.
  { rewrite Hq, plus_IZR, mult_IZR. reflexivity. }
  pose proof (bpow_gt_0 ey) as Hey.
  transitivity (IZR m' / IZR (Zpos my)).
  - rewrite HqR. field. lra.
  - rewrite Hm'R.
    replace (ex - ey - e')%Z with (ex + (- ey + - e'))%Z by lia.
    rewrite !bpow_add, (bpow_opp ey). field. lra.
Qed.

Lemma SFdiv_close (x y : spec_float) :
  SFnonneg x = true -> SFnormal prec y = true ->
  orb (SFis_zero x) (SFnormal prec (SFdiv prec emax x y)) = true ->
  SFnonneg (SFdiv prec emax x y) = true /\
  close prec (SFdiv prec emax x y) (SF2R x / SF2R y).
Proof.
  destruct x as [sx|sx| |sx mx ex], y as [sy|sy| |sy my ey];
    cbn [SFnonneg SFnormal SFis_zero]; try discriminate;
    intros Hx Hy Hz.
  - split; [reflexivity|]. cbn [SFdiv]. unfold close. cbn [SF2R].
    unfold Rdiv. rewrite Rmult_0_l, Rminus_diag, Rabs_R0. lra.
  - apply andb_prop in Hy as [Hsy _]. destruct sx, sy; try discriminate.
    split; [apply (SFnormal_nonneg prec), Hz|].
    cbn [SFdiv xorb] in *. cbn [SF2R].
    pose proof (SFdiv_core_inbetween mx my ex ey) as Hcore.
    destruct (SFdiv_core_binary prec emax (Zpos mx) ex (Zpos my) ey) as [[q e'] l].
    destruct Hcore as [Hq Hin].
    apply close_round_aux; assumption.
Qed.

Lemma binary_normalize_close (k : Z) :
  (0 <= k)%Z ->
  orb (Z.eqb k 0) (SFnormal prec (binary_normalize prec emax k 0 false)) = true ->
  SFnonneg (binary_normalize prec emax k 0 false) = true /\
  close prec (binary_normalize prec emax k 0 false) (IZR k).
Proof.
  intros Hk Hz. destruct k as [|p|p]; [| |lia].
  - split; [reflexivity|]. unfold close. cbn [binary_normalize SF2R].
    rewrite Rminus_diag, Rabs_R0. lra.
  - cbn [Z.eqb binary_normalize] in *.
    split; [apply (SFnormal_nonneg prec), Hz|].
    replace (IZR (Zpos p)) with (IZR (Zpos p) * bpow 0)
      by (rewrite bpow_0; ring).
    apply close_round. exact Hz.
Qed.

End Round.

(** ** Propagation of the rounding errors through the running mean *)

Section Propagation.

Variable a : R.
Hypothesis a_pos : 0 < a.
Hypothesis a_le_1 : a <= 1.

Lemma pow_a_bounds (n : nat) : 0 < a ^ n <= 1.
Proof.
  induction n as [|n IH]; cbn [pow]; [lra|]. nra.
Qed.


(** One update of the mean: [c], [p], [s], [n] and [q] are the rounded
    count, product, sum, new count and quotient. *)
Lemma step_near (avg cnt t c p s n q : R) :
  0 <= avg -> 0 <= cnt -> 0 <= t ->
  0 <= c -> 0 <= p -> 0 <= s -> 0 < n -> 0 <= q ->
  near a c cnt -> near a p (avg * c) -> near a s (p + t) ->
  near a n (cnt + 1) -> near a q (s / n) ->
  a ^ 5 * (avg * cnt + t) <= q * (cnt + 1) /\
  a ^ 5 * (q * (cnt + 1)) <= avg * cnt + t.
Proof.
  intros Havg Hcnt Ht Hc Hp Hs Hn Hq [Hc1 Hc2] [Hp1 Hp2] [Hs1 Hs2] [Hn1 Hn2]
    [Hq1 Hq2].
  assert (a * s <= q * n) as Hq1'.
  { apply Rmult_le_compat_r with (r := n) in Hq1; [|lra].
    replace (a * (s / n) * n) with (a * s) in Hq1 by (field; lra). exact Hq1. }
  assert (a * (q * n) <= s) as Hq2'.
  { apply Rmult_le_compat_r with (r := n) in Hq2; [|lra].
    replace (s / n * n) with s in Hq2 by (field; lra). lra. }
  assert (0 <= a * avg) as Haavg by nra.
  assert (a * (a * avg * cnt) <= a * avg * c) as Hlow1 by nra.
  assert (a * (avg * c) <= avg * cnt) as Hup1 by nra.
  split.
  - (* a^5 (avg cnt + t) <= a^3 (p + t) <= a^2 s <= a q n <= q (cnt + 1) *)
    assert (a * a * (avg * cnt) + t <= p + t) as H1 by nra.
    assert (a * (a * a * (avg * cnt) + t) <= s) as H2 by nra.
    assert (a * (a * (a * a * (avg * cnt) + t)) <= q * n) as H3 by nra.
    assert (a * (q * n) <= q * (cnt + 1)) as H4 by nra.
    assert (a * (a * (a * (a * a * (avg * cnt) + t))) <= q * (cnt + 1)) as H5 by nra.
    apply Rle_trans with (2 := H5).
    assert (0 <= avg * cnt) as Hac by nra.
    assert (a * a * a <= 1) as Ha3 by nra.
    assert (a * a <= 1) as Ha2 by nra.
    assert (0 <= a * a * a) by nra.
    replace (a ^ 5 * (avg * cnt + t))
      with (a * a * a * (a * a * (avg * cnt)) + a * a * a * (a * a * t)) by ring.
    replace (a * (a * (a * (a * a * (avg * cnt) + t))))
      with (a * a * a * (a * a * (avg * cnt)) + a * a * a * t) by ring.
    apply Rplus_le_compat_l. apply Rmult_le_compat_l; [assumption|].
    rewrite <- (Rmult_1_l t) at 2. apply Rmult_le_compat_r; assumption.
  - (* a^5 q (cnt+1) <= a^4 q n <= a^3 s <= a^2 (p + t) <= ... *)
    assert (a * (q * (cnt + 1)) <= q * n) as H1 by nra.
    assert (a * (a * (q * (cnt + 1))) <= s) as H2 by nra.
    assert (a * (a * (a * (q * (cnt + 1)))) <= p + t) as H3 by nra.
    assert (a * p <= avg * c) as H4 by lra.
    assert (a * (a * p) <= avg * cnt) as H5 by nra.
    assert (a * (a * t) <= t) as Hat.
    { assert (a * t <= t) by (rewrite <- (Rmult_1_l t) at 2;
                              apply Rmult_le_compat_r; assumption).
      assert (0 <= a * t) by (apply Rmult_le_pos; lra).
      apply Rle_trans with (a * t); [|assumption].
      rewrite <- (Rmult_1_l (a * t)) at 2.
      apply Rmult_le_compat_r; assumption. }
    assert (a * (a * (p + t)) <= avg * cnt + t) as H6 by lra.
    replace (a ^ 5 * (q * (cnt + 1)))
      with (a * (a * (a * (a * (a * (q * (cnt + 1))))))) by ring.
    apply Rle_trans with (2 := H6).
    apply Rmult_le_compat_l; [lra|]. apply Rmult_le_compat_l; [lra|]. exact H3.
Qed.


Lemma within_0 (A : R) : within a 0 0 A.
Proof. unfold within. cbn [Nat.mul pow INR]. lra. Qed.

Lemma within_step (j : nat) (tot A t q : R) :
  0 <= tot -> 0 <= A -> 0 <= t -> 0 <= q ->
  within a j tot A ->
  a ^ 5 * (A * INR j + t) <= q * (INR j + 1) ->
  a ^ 5 * (q * (INR j + 1)) <= A * INR j + t ->
  within a (S j) (tot + t) q.
Proof.
  intros HS HA Ht Hq [Hlow Hup] Hq1 Hq2. unfold within.
  replace (5 * S j)%nat with (5 + 5 * j)%nat by lia.
  rewrite S_INR, pow_add.
  pose proof (pow_a_bounds (5 * j)) as Hj. pose proof (pow_a_bounds 5) as H5.
  set (b := a ^ (5 * j)) in *. set (c := a ^ 5) in *.
  assert (0 <= INR j) as Hjpos by apply pos_INR.
  split.
  - apply Rle_trans with (c * (A * INR j + t)); [|lra].
    rewrite Rmult_assoc. apply Rmult_le_compat_l; [lra|]. nra.
  - apply Rle_trans with (b * (A * INR j + t)).
    + replace (c * b * ((INR j + 1) * q)) with (b * (c * (q * (INR j + 1)))) by ring.
      apply Rmult_le_compat_l; [lra|]. exact Hq2.
    + nra.
Qed.

End Propagation.

(** Bernoulli's inequality, for a factor below 1. *)
Lemma bernoulli (u : R) (n : nat) :
  0 <= u <= 1 -> 1 - INR n * u <= (1 - u) ^ n.
Proof.
  intros Hu. induction n as [|n IH].
  - cbn [INR pow]. lra.
  - rewrite S_INR. cbn [pow].
    assert (0 <= INR n) by apply pos_INR.
    assert (0 <= (1 - u) ^ n) by (apply pow_le; lra).
    destruct (Rle_dec (INR n * u) 1) as [Hsmall|Hbig]; nra.
Qed.

(** The tolerance: a mean carried through [n] updates, each of five
    roundings to 53 bits, is within [6 * n * 2^-53] of the mean, relative to
    the mean. *)
Lemma within_tolerance (u : R) (n : nat) (tot A : R) :
  0 <= u -> (0 < n)%nat -> 30 * INR n * u <= 1 ->
  0 <= tot -> 0 <= A ->
  within (1 - u) n tot A ->
  Rabs (A - tot / INR n) <= 6 * INR n * u * (tot / INR n).
Proof.
  intros Hu Hn Hsmall HS HA [Hlow Hup].
  assert (0 < INR n) as Hpos by (apply lt_0_INR; exact Hn).
  assert (1 <= INR n) as Hone.
  { replace 1 with (INR 1) by reflexivity. apply le_INR. lia. }
  assert (u <= 1) as Hu1 by nra.
  pose proof (bernoulli u (5 * n) (conj Hu Hu1)) as Hb.
  rewrite mult_INR in Hb. replace (INR 5) with 5 in Hb by (simpl; lra).
  assert ((1 - u) ^ (5 * n) <= 1) as Hle1.
  { apply pow_a_bounds; nra. }
  set (b := (1 - u) ^ (5 * n)) in *.
  set (x := INR n * u) in *.
  assert (0 <= x) as Hx by (unfold x; nra).
  assert (x <= / 30) as Hx30 by (unfold x; lra).
  assert (0 <= INR n * A) as HnA by nra.
  set (M := tot / INR n).
  assert (tot = INR n * M) as HSM by (unfold M; field; lra).
  assert (0 <= M) as HM by (unfold M, Rdiv; apply Rmult_le_pos; [lra | left; apply Rinv_0_lt_compat; lra]).
  replace (6 * INR n * u) with (6 * x) by (unfold x; ring).
  (* lower: n A >= b tot >= (1 - 5x) tot ; upper: (1 - 5x) n A <= b n A <= tot *)
  assert (1 - 5 * x <= b) as Hb' by (unfold x; lra).
  assert ((1 - 5 * x) * tot <= INR n * A) as Hl.
  { apply Rle_trans with (2 := Hlow). apply Rmult_le_compat_r; lra. }
  assert ((1 - 5 * x) * (INR n * A) <= tot) as Hu'.
  { apply Rle_trans with (2 := Hup). apply Rmult_le_compat_r; lra. }
  rewrite HSM in Hl, Hu'.
  assert ((1 - 5 * x) * M <= A) as Hl'.
  { apply Rmult_le_reg_l with (INR n); [exact Hpos|].
    replace (INR n * ((1 - 5 * x) * M)) with ((1 - 5 * x) * (INR n * M)) by ring.
    exact Hl. }
  assert ((1 - 5 * x) * A <= M) as Hu''.
  { apply Rmult_le_reg_l with (INR n); [exact Hpos|].
    replace (INR n * ((1 - 5 * x) * A)) with ((1 - 5 * x) * (INR n * A)) by ring.
    exact Hu'. }
  assert (A <= (1 + 6 * x) * M) as Hupper.
  { assert (0 <= x * (1 - 30 * x)) as Hxx by (apply Rmult_le_pos; lra).
    assert (1 <= (1 - 5 * x) * (1 + 6 * x)) as Hk.
    { replace ((1 - 5 * x) * (1 + 6 * x)) with (1 + x * (1 - 30 * x)) by ring.
      lra. }
    apply Rmult_le_reg_l with (1 - 5 * x); [lra|].
    apply Rle_trans with (1 := Hu'').
    rewrite <- Rmult_assoc. rewrite <- (Rmult_1_l M) at 1.
    apply Rmult_le_compat_r; assumption. }
  assert (0 <= x * M) as HxM by (apply Rmult_le_pos; assumption).
  apply Rabs_le. split; lra.
Qed.

(** ** The operations of binary64 *)

Lemma prec_pos : (0 < prec)%Z.
Proof. reflexivity. Qed.

Lemma u64_bounds : 0 < u64 <= / 2.
Proof.
  unfold u64. split; [apply bpow_gt_0|].
  rewrite <- bpow_m1. apply bpow_le. lia.
Qed.

Lemma Rabs_bounds (x b : R) : Rabs x <= b -> - b <= x <= b.
Proof. unfold Rabs. destruct (Rcase_abs x); lra. Qed.

Lemma close_near (z : spec_float) (r : R) :
  SFnonneg z = true -> close prec z r -> near (1 - u64) (SF2R z) r.
Proof.
  intros Hz Hclose. apply SFnonneg_value in Hz.
  unfold close in Hclose. change (bpow (- prec)) with u64 in Hclose.
  pose proof u64_bounds as Hu.
  assert (0 <= u64 * SF2R z) as Huz by (apply Rmult_le_pos; lra).
  apply Rabs_bounds in Hclose. unfold near.
  assert (0 <= u64 * (u64 * SF2R z)) as Huuz by (apply Rmult_le_pos; lra).
  assert ((1 - u64) * r <= (1 - u64) * ((1 + u64) * SF2R z)) as Hr.
  { apply Rmult_le_compat_l; lra. }
  split; lra.
Qed.

Lemma nonneg_value (x : float) : nonneg x = true -> 0 <= value x.
Proof. apply SFnonneg_value. Qed.

Lemma normal_nonneg (x : float) : normal x = true -> nonneg x = true.
Proof. apply SFnormal_nonneg. Qed.

Lemma normal_pos (x : float) : normal x = true -> 0 < value x.
Proof. apply SFnormal_pos. Qed.

Lemma mul_near (x y : float) :
  nonneg x = true -> nonneg y = true ->
  is_zero x || is_zero y || normal (x * y) = true ->
  nonneg (x * y) = true /\
  near (1 - u64) (value (x * y)) (value x * value y).
Proof.
  unfold nonneg, is_zero, normal, value. rewrite mul_spec. unfold SF64mul.
  intros Hx Hy Hz.
  destruct (SFmul_close prec emax prec_pos _ _ Hx Hy Hz) as [Hnonneg Hclose].
  split; [exact Hnonneg | apply close_near; assumption].
Qed.

Lemma add_near (x y : float) :
  nonneg x = true -> nonneg y = true ->
  is_zero x || is_zero y || normal (x + y) = true ->
  nonneg (x + y) = true /\
  near (1 - u64) (value (x + y)) (value x + value y).
Proof.
  unfold nonneg, is_zero, normal, value. rewrite add_spec. unfold SF64add.
  intros Hx Hy Hz.
  destruct (SFadd_close prec emax prec_pos _ _ Hx Hy Hz) as [Hnonneg Hclose].
  split; [exact Hnonneg | apply close_near; assumption].
Qed.

Lemma div_near (x y : float) :
  nonneg x = true -> normal y = true ->
  is_zero x || normal (x / y) = true ->
  nonneg (x / y) = true /\
  near (1 - u64) (value (x / y)) (value x / value y).
Proof.
  unfold nonneg, is_zero, normal, value. rewrite div_spec. unfold SF64div.
  intros Hx Hy Hz.
  destruct (SFdiv_close prec emax prec_pos _ _ Hx Hy Hz) as [Hnonneg Hclose].
  split; [exact Hnonneg | apply close_near; assumption].
Qed.

Lemma of_uint64_near (k : Z) :
  (0 <= k < 2 ^ 63)%Z ->
  (k =? 0)%Z || normal (of_uint64 k) = true ->
  nonneg (of_uint64 k) = true /\
  near (1 - u64) (value (of_uint64 k)) (IZR k).
Proof.
  intros Hk. unfold nonneg, normal, value, of_uint64.
  rewrite (proj2 (Z.ltb_lt k (2 ^ 63))) by lia.
  rewrite of_uint63_spec, Uint63.of_Z_spec.
  change Uint63.wB with (2 ^ 63)%Z. rewrite Z.mod_small by exact Hk.
  intros Hz.
  destruct (binary_normalize_close prec emax prec_pos k (proj1 Hk) Hz)
    as [Hnonneg Hclose].
  split; [exact Hnonneg | apply close_near; assumption].
Qed.

(** One update of a running mean. *)
Lemma step_within (avg : float) (count : Z) (t : float) :
  nonneg avg = true -> nonneg t = true ->
  (0 <= count)%Z -> (count + 1 < 2 ^ 63)%Z ->
  step_ok avg count t = true ->
  let q := mean_step avg count t in
  nonneg q = true /\
  (1 - u64) ^ 5 * (value avg * IZR count + value t)
  <= value q * (IZR count + 1) /\
  (1 - u64) ^ 5 * (value q * (IZR count + 1))
  <= value avg * IZR count + value t.
Proof.
  intros Havg Ht Hcount Hbound Hok. cbv zeta. unfold mean_step.
  unfold step_ok in Hok. cbv zeta in Hok.
  apply andb_prop in Hok as [Hok Hq]. apply andb_prop in Hok as [Hok Hn].
  apply andb_prop in Hok as [Hok Hs]. apply andb_prop in Hok as [Hc Hp].
  destruct (of_uint64_near count ltac:(lia) Hc) as [Hc0 Hc1].
  destruct (mul_near _ _ Havg Hc0 Hp) as [Hp0 Hp1].
  destruct (add_near _ _ Hp0 Ht Hs) as [Hs0 Hs1].
  assert ((count + 1 =? 0)%Z || normal (of_uint64 (count + 1)) = true) as Hn'.
  { rewrite Hn. apply orb_true_r. }
  destruct (of_uint64_near (count + 1) ltac:(lia) Hn') as [Hn0 Hn1].
  destruct (div_near _ _ Hs0 Hn Hq) as [Hq0 Hq1].
  split; [exact Hq0|].
  rewrite plus_IZR in Hn1.
  pose proof u64_bounds as Hu.
  apply (step_near (1 - u64) ltac:(lra) ltac:(lra) (value avg) (IZR count)
           (value t) (value (of_uint64 count))
           (value (avg * of_uint64 count))
           (value (avg * of_uint64 count + t))
           (value (of_uint64 (count + 1)))
           (value ((avg * of_uint64 count + t) / of_uint64 (count + 1))));
    try assumption; try (apply nonneg_value; assumption).
  - apply IZR_le. exact Hcount.
  - apply normal_pos. exact Hn.
Qed.

Lemma a64_bounds : 0 < 1 - u64 <= 1.
Proof. pose proof u64_bounds. lra. Qed.

End Rounding.

(** ** Results that are normal numbers *)

Module Normal.

Import Reals Lra Floats.
Import Binary64 Rounding.
Local Open Scope R_scope.

Lemma bpow_lt_inv (a b : Z) : bpow a < bpow b -> (a < b)%Z.
Proof.
  intros Hlt. destruct (Z.lt_ge_cases a b) as [Hab|Hba]; [exact Hab|].
  apply bpow_le in Hba. lra.
Qed.

Lemma Zdigits2_ge (prec m : Z) :
  (0 < prec)%Z -> (2 ^ (prec - 1) <= m)%Z -> (prec <= Zdigits2 m)%Z.
Proof.
  intros Hprec Hm.
  assert (0 < 2 ^ (prec - 1))%Z as Hpos by (apply Z.pow_pos_nonneg; lia).
  destruct (Zdigits2_upper m ltac:(lia)) as [Hd Hupper].
  destruct (Z.lt_ge_cases (Zdigits2 m) prec) as [Hlt|Hge]; [|exact Hge].
  assert (2 ^ Zdigits2 m <= 2 ^ (prec - 1))%Z
    by (apply Z.pow_le_mono_r; lia).
  lia.
Qed.

Lemma digits2_iter_xO (m d : positive) :
  Zpos (digits2_pos (Pos.iter xO m d)) = (Zpos (digits2_pos m) + Zpos d)%Z.
Proof.
  induction d as [|d IH] using Pos.peano_ind.
  - cbn [Pos.iter digits2_pos]. lia.
  - rewrite Pos.iter_succ. cbn [digits2_pos]. rewrite Pos2Z.inj_succ, IH. lia.
Qed.

Section Forward.

Variables prec emax : Z.
Hypothesis prec_gt_0 : (0 < prec)%Z.

Let emin := SpecFloat.emin prec emax.
Let fexp := SpecFloat.fexp prec emax.

(** A mantissa of at least [prec] digits that stands for a number of the
    normal range, away from its ends, is rounded to a normal number. *)
Lemma binary_round_aux_normal (mx ex : Z) (lx : location) (r : R) :
  (0 <= mx)%Z -> (prec <= Zdigits2 mx)%Z ->
  inbetween mx (r * bpow (- ex)) lx ->
  bpow (emin + prec) <= r -> r < bpow (emax - 1) ->
  SFnormal prec (binary_round_aux prec emax false mx ex lx) = true.
Proof.
  intros Hmx Hdigits Hr Hlow Hhigh.
  unfold binary_round_aux.
  pose proof (shr_fexp_represents prec emax prec_gt_0 mx ex lx r Hmx Hr) as H1.
  cbv zeta in H1.
  assert (snd (shr_fexp prec emax mx ex lx) = (Zdigits2 mx + ex - prec)%Z
          /\ (emin < Zdigits2 mx + ex - prec)%Z) as [He' Hnormal].
  { destruct (Zdigits2_upper mx Hmx) as [Hd Hupper].
    assert (r < bpow (Zdigits2 mx + ex)) as Hmag.
    { pose proof Hr as Hb. apply inbetween_bounds in Hb. destruct Hb as [_ Hb].
      assert (r * bpow (- ex) < bpow (Zdigits2 mx)) as Hlt.
      { apply Rlt_le_trans with (1 := Hb).
        rewrite bpow_IZR by lia. rewrite <- plus_IZR. apply IZR_le. exact Hupper. }
      rewrite bpow_add.
      replace r with (r * bpow (- ex) * bpow ex).
      - apply Rmult_lt_compat_r; [apply bpow_gt_0 | exact Hlt].
      - rewrite Rmult_assoc, (Rmult_comm (bpow (- ex))), bpow_cancel. ring. }
    assert (emin + prec < Zdigits2 mx + ex)%Z as Hexp.
    { apply bpow_lt_inv. lra. }
    split; [|clear - Hexp; lia].
    unfold shr_fexp.
    destruct (loc_of_shr_record_of_loc mx lx) as [Hloc Hshr].
    assert (represents (shr_record_of_loc mx lx) (r * bpow (- ex))) as Hrep.
    { unfold represents. rewrite Hloc, Hshr. split; assumption. }
    destruct (shr_represents _ ex
                (SpecFloat.fexp prec emax (Zdigits2 mx + ex) - ex) r Hrep)
      as [_ Hsnd].
    rewrite Hsnd. unfold SpecFloat.fexp. fold emin.
    clear - Hexp Hdigits. lia. }
  destruct (shr_fexp prec emax mx ex lx) as [mrs' e'].
  cbn [fst snd] in H1, He'. destruct H1 as ([Hm' Hin'] & Hemin & _ & Hlt').
  pose proof (round_nearest_even_error _ _ _ Hin') as H2. cbv zeta in H2.
  set (m'' := round_nearest_even (shr_m mrs') (loc_of_shr_record mrs')) in *.
  destruct H2 as [Hm'' _].
  assert (0 < 2 ^ (prec - 1))%Z as Hpos by (apply Z.pow_pos_nonneg; lia).
  assert (2 ^ prec = 2 * 2 ^ (prec - 1))%Z as Hpow.
  { replace prec with (Z.succ (prec - 1)) at 1 by lia.
    rewrite Z.pow_succ_r by lia. reflexivity. }
  (* the truncated mantissa has [prec] digits *)
  assert (bpow (prec - 1) <= r * bpow (- e')) as Hscaled.
  { assert (2 ^ (Zdigits2 mx - 1) <= mx)%Z as Hlower.
    { apply Zdigits2_lower.
      destruct (Z.eq_dec mx 0) as [->|]; [simpl in Hdigits; lia | lia]. }
    pose proof Hr as Hb. apply inbetween_bounds in Hb. destruct Hb as [Hb _].
    replace (r * bpow (- e')) with (r * bpow (- ex) * bpow (ex - e')).
    2:{ rewrite Rmult_assoc, <- bpow_add. f_equal. f_equal. lia. }
    apply Rle_trans with (bpow (Zdigits2 mx - 1) * bpow (ex - e')).
    - rewrite <- bpow_add. apply bpow_le. rewrite He'. clear. lia.
    - apply Rmult_le_compat_r; [left; apply bpow_gt_0|].
      apply Rle_trans with (2 := Hb).
      rewrite bpow_IZR by lia. apply IZR_le. exact Hlower. }
  assert (2 ^ (prec - 1) <= shr_m mrs')%Z as Hbig.
  { apply inbetween_bounds in Hin'. destruct Hin' as [_ Hin'].
    assert (IZR (2 ^ (prec - 1)) < IZR (shr_m mrs' + 1)) as Hlt.
    { rewrite <- bpow_IZR by lia. rewrite plus_IZR. lra. }
    apply lt_IZR in Hlt. clear - Hlt. lia. }
  (* the exponent is below the largest one *)
  assert (e' + 1 <= emax - prec)%Z as Hexp.
  { apply inbetween_bounds in Hin'. destruct Hin' as [Hin' _].
    assert (bpow (prec - 1 + e') < bpow (emax - 1)) as Hlt.
    { apply Rle_lt_trans with (2 := Hhigh).
      rewrite bpow_add.
      replace r with (r * bpow (- e') * bpow e').
      - apply Rmult_le_compat_r; [left; apply bpow_gt_0 | exact Hscaled].
      - rewrite Rmult_assoc, (Rmult_comm (bpow (- e'))), bpow_cancel. ring. }
    apply bpow_lt_inv in Hlt. clear - Hlt. lia. }
  destruct (Z.eq_dec m'' (2 ^ prec)) as [Hcarry|Hnocarry].
  - assert (exists p, m'' = Zpos p~0 /\ Zpos p = (2 ^ (prec - 1))%Z) as (p & Hp & Hpv).
    { destruct (2 ^ (prec - 1))%Z as [|p|p] eqn:Hpw; try lia.
      exists p. split; [|reflexivity]. rewrite Hcarry, Hpow. reflexivity. }
    assert (Zdigits2 m'' = prec + 1)%Z as Hd.
    { rewrite Hp. cbn [Zdigits2].
      pose proof (digits2_pos_bounds p~0) as Hb. rewrite <- Hp, Hcarry in Hb.
      destruct Hb as [Hb1 Hb2].
      apply Z.pow_lt_mono_r_iff in Hb2; [|lia|lia].
      assert (Zpos (digits2_pos p~0) - 1 < prec + 1)%Z.
      { apply (Z.pow_lt_mono_r_iff 2); [lia|lia|].
        replace (prec + 1)%Z with (Z.succ prec) by lia.
        rewrite Z.pow_succ_r by lia.
        assert (0 < 2 ^ prec)%Z by (apply Z.pow_pos_nonneg; lia). lia. }
      lia. }
    unfold shr_fexp. rewrite Hd.
    replace (SpecFloat.fexp prec emax (prec + 1 + e') - e')%Z with 1%Z
      by (unfold SpecFloat.fexp; fold emin; clear - Hemin; lia).
    rewrite Hp.
    cbn [shr shr_record_of_loc iter_pos shr_1 orb shr_m].
    replace (Z.leb (e' + 1) (emax - prec)) with true
      by (symmetry; apply Z.leb_le; exact Hexp).
    cbn [SFnormal negb andb]. apply Z.leb_le. rewrite Hpv. apply Z.le_refl.
  - assert (m'' < 2 ^ prec)%Z as Hlt'' by (clear - Hm'' Hlt' Hnocarry; lia).
    assert (Zdigits2 m'' <= prec)%Z as Hd.
    { pose proof (Zdigits2_lower m'' ltac:(lia)) as Hlw.
      assert (2 ^ (Zdigits2 m'' - 1) < 2 ^ prec)%Z as Hpw by (clear - Hlw Hlt''; lia).
      apply Z.pow_lt_mono_r_iff in Hpw; lia. }
    unfold shr_fexp.
    pose proof (fexp_small prec emax _ _ Hd Hemin) as Hsmall.
    destruct (SpecFloat.fexp prec emax (Zdigits2 m'' + e') - e')%Z
      as [|n|n] eqn:Hn; [| clear - Hn Hsmall; lia |];
      cbn [shr shr_record_of_loc shr_m];
      (destruct m'' as [|q|q] eqn:Hq; [lia| |lia];
       replace (Z.leb e' (emax - prec)) with true
         by (symmetry; apply Z.leb_le; clear - Hexp; lia);
       cbn [SFnormal negb andb]; apply Z.leb_le; clear - Hm'' Hbig; lia).
Qed.

(** The same for [binary_round], which first brings the mantissa to [prec]
    digits. *)
Lemma binary_round_normal (mx : positive) (ex : Z) :
  bpow (emin + prec) <= IZR (Zpos mx) * bpow ex ->
  IZR (Zpos mx) * bpow ex < bpow (emax - 1) ->
  SFnormal prec (binary_round prec emax false mx ex) = true.
Proof.
  intros Hlow Hhigh. unfold binary_round.
  pose proof (shl_align_value mx ex
                (SpecFloat.fexp prec emax (Zpos (digits2_pos mx) + ex))) as Hval.
  assert (prec <= Zdigits2 (Zpos (fst (shl_align mx ex
            (SpecFloat.fexp prec emax (Zpos (digits2_pos mx) + ex))))))%Z
    as Hdigits.
  { pose proof (digits2_pos_bounds mx) as [_ Hupper].
    assert (emin + prec < Zpos (digits2_pos mx) + ex)%Z as Hexp.
    { apply bpow_lt_inv. apply Rle_lt_trans with (1 := Hlow).
      rewrite bpow_add. apply Rmult_lt_compat_r; [apply bpow_gt_0|].
      rewrite bpow_IZR by lia. apply IZR_lt. exact Hupper. }
    unfold SpecFloat.fexp. fold emin.
    replace (Z.max (Zpos (digits2_pos mx) + ex - prec) emin)
      with (Zpos (digits2_pos mx) + ex - prec)%Z by (clear - Hexp; lia).
    unfold shl_align.
    destruct (Zpos (digits2_pos mx) + ex - prec - ex)%Z as [|d|d] eqn:Hd;
      cbn [fst Zdigits2].
    - clear - Hd. lia.
    - clear - Hd. lia.
    - unfold shift_pos. rewrite digits2_iter_xO. clear - Hd. lia. }
  destruct (shl_align mx ex _) as [mz ez]. cbn [fst snd] in Hval, Hdigits.
  apply binary_round_aux_normal with (r := IZR (Zpos mx) * bpow ex);
    [lia | exact Hdigits | | exact Hlow | exact Hhigh].
  cbn [inbetween]. rewrite <- Hval, Rmult_assoc, bpow_cancel. ring.
Qed.

Lemma SFmul_normal (x y : spec_float) :
  SFnormal prec x = true -> SFnormal prec y = true ->
  bpow (emin + prec) <= SF2R x * SF2R y ->
  SF2R x * SF2R y < bpow (emax - 1) ->
  SFnormal prec (SFmul prec emax x y) = true.
Proof.
  destruct x as [sx|sx| |sx mx ex], y as [sy|sy| |sy my ey];
    cbn [SFnormal]; try discriminate.
  intros Hx Hy. apply andb_prop in Hx as [Hsx Hmx], Hy as [Hsy Hmy].
  destruct sx, sy; try discriminate.
  apply Z.leb_le in Hmx, Hmy. cbn [SF2R SFmul xorb]. intros Hlow Hhigh.
  assert (0 < 2 ^ (prec - 1))%Z as Hpos by (apply Z.pow_pos_nonneg; lia).
  apply binary_round_aux_normal
    with (r := IZR (Zpos mx) * bpow ex * (IZR (Zpos my) * bpow ey));
    [lia | | | exact Hlow | exact Hhigh].
  - apply Zdigits2_ge; [exact prec_gt_0|]. clear - Hmx Hmy Hpos. nia.
  - cbn [inbetween]. rewrite Pos2Z.inj_mul, mult_IZR.
    replace (- (ex + ey))%Z with (- ex + - ey)%Z by lia. rewrite bpow_add.
    transitivity (IZR (Zpos mx) * IZR (Zpos my)
                  * (bpow ex * bpow (- ex)) * (bpow ey * bpow (- ey))); [ring|].
    rewrite !bpow_cancel. ring.
Qed.

Lemma SFadd_normal (x y : spec_float) :
  SFnormal prec x = true -> SFnormal prec y = true ->
  bpow (emin + prec) <= SF2R x + SF2R y ->
  SF2R x + SF2R y < bpow (emax - 1) ->
  SFnormal prec (SFadd prec emax x y) = true.
Proof.
  destruct x as [sx|sx| |sx mx ex], y as [sy|sy| |sy my ey];
    cbn [SFnormal]; try discriminate.
  intros Hx Hy. apply andb_prop in Hx as [Hsx _], Hy as [Hsy _].
  destruct sx, sy; try discriminate.
  cbn [SF2R SFadd cond_Zopp].
  pose proof (shl_align_value mx ex (Z.min ex ey)) as Hvx.
  pose proof (shl_align_value my ey (Z.min ex ey)) as Hvy.
  rewrite shl_align_le in Hvx, Hvy by lia.
  rewrite <- Hvx, <- Hvy, <- Rmult_plus_distr_r, <- plus_IZR.
  cbn [Z.add binary_normalize]. apply binary_round_normal.
Qed.

Lemma SFdiv_core_exponent (m1 e1 m2 e2 : Z) :
  snd (fst (SFdiv_core_binary prec emax m1 e1 m2 e2))
  = Z.min (fexp (Zdigits2 m1 + e1 - (Zdigits2 m2 + e2))) (e1 - e2).
Proof.
  unfold SFdiv_core_binary. destruct (Z.div_eucl _ m2). reflexivity.
Qed.

Lemma SFdiv_normal (x y : spec_float) :
  SFnormal prec x = true -> SFnormal prec y = true ->
  bpow (emin + prec + 1) <= SF2R x / SF2R y ->
  SF2R x / SF2R y < bpow (emax - 1) ->
  SFnormal prec (SFdiv prec emax x y) = true.
Proof.
  destruct x as [sx|sx| |sx mx ex], y as [sy|sy| |sy my ey];
    cbn [SFnormal]; try discriminate.
  intros Hx Hy. apply andb_prop in Hx as [Hsx _], Hy as [Hsy _].
  destruct sx, sy; try discriminate.
  cbn [SF2R SFdiv xorb]. intros Hlow Hhigh.
  set (r := IZR (Zpos mx) * bpow ex / (IZR (Zpos my) * bpow ey)) in *.
  pose proof (SFdiv_core_inbetween prec emax mx my ex ey) as Hcore.
  pose proof (SFdiv_core_exponent (Zpos mx) ex (Zpos my) ey) as He'.
  destruct (SFdiv_core_binary prec emax (Zpos mx) ex (Zpos my) ey) as [[q e'] l].
  cbn [fst snd] in He'. destruct Hcore as [Hq Hin]. fold r in Hin.
  cbn [Zdigits2] in He'.
  pose proof (digits2_pos_bounds mx) as [Hx1 Hx2].
  pose proof (digits2_pos_bounds my) as [Hy1 Hy2].
  set (d1 := Zpos (digits2_pos mx)) in *. set (d2 := Zpos (digits2_pos my)) in *.
  assert (0 < d1 /\ 0 < d2)%Z as [Hd1 Hd2] by (unfold d1, d2; lia).
  apply IZR_le in Hx1, Hy1. apply IZR_lt in Hx2, Hy2.
  rewrite <- bpow_IZR in Hx1, Hx2, Hy1, Hy2 by lia.
  set (D := IZR (Zpos my) * bpow ey) in *.
  pose proof (bpow_gt_0 ex) as Hex. pose proof (bpow_gt_0 ey) as Hey.
  pose proof (bpow_gt_0 (d2 - 1)) as Hd2'.
  assert (0 < D) as HD by (unfold D; apply Rmult_lt_0_compat; lra).
  assert (r * D = IZR (Zpos mx) * bpow ex) as HrD by (unfold r; field; lra).
  set (E := (d1 + ex - (d2 + ey))%Z) in *.
  assert (r < bpow (E + 1)) as Hup.
  { apply Rmult_lt_reg_r with D; [exact HD|]. rewrite HrD.
    apply Rlt_le_trans with (bpow d1 * bpow ex).
    - apply Rmult_lt_compat_r; [exact Hex | exact Hx2].
    - replace (bpow d1 * bpow ex) with (bpow (E + 1) * (bpow (d2 - 1) * bpow ey)).
      + apply Rmult_le_compat_l; [left; apply bpow_gt_0|].
        apply Rmult_le_compat_r; [lra | exact Hy1].
      + rewrite <- !bpow_add. f_equal. unfold E. lia. }
  assert (bpow (E - 1) < r) as Hdown.
  { apply Rmult_lt_reg_r with D; [exact HD|]. rewrite HrD.
    apply Rlt_le_trans with (bpow (d1 - 1) * bpow ex).
    - replace (bpow (d1 - 1) * bpow ex) with (bpow (E - 1) * (bpow d2 * bpow ey)).
      + apply Rmult_lt_compat_l; [apply bpow_gt_0|].
        apply Rmult_lt_compat_r; [exact Hey | exact Hy2].
      + rewrite <- !bpow_add. f_equal. unfold E. lia.
    - apply Rmult_le_compat_r; [lra | exact Hx1]. }
  assert (emin + prec < E)%Z as HE.
  { assert (emin + prec + 1 < E + 1)%Z by (apply bpow_lt_inv; lra). lia. }
  assert (e' <= E - prec)%Z as He'le.
  { rewrite He'. unfold fexp, SpecFloat.fexp. fold emin. clear - HE. lia. }
  assert (bpow (prec - 1) < r * bpow (- e')) as Hscaled.
  { apply Rle_lt_trans with (bpow (E - 1) * bpow (- e')).
    - rewrite <- bpow_add. apply bpow_le. clear - He'le. lia.
    - apply Rmult_lt_compat_r; [apply bpow_gt_0 | exact Hdown]. }
  apply binary_round_aux_normal with (r := r);
    [exact Hq | | exact Hin | | exact Hhigh].
  - apply Zdigits2_ge; [exact prec_gt_0|].
    apply inbetween_bounds in Hin. destruct Hin as [_ Hin].
    assert (IZR (2 ^ (prec - 1)) < IZR (q + 1)) as Hlt.
    { rewrite <- bpow_IZR by lia. rewrite plus_IZR. lra. }
    apply lt_IZR in Hlt. clear - Hlt. lia.
  - apply Rle_trans with (2 := Hlow). apply bpow_le. lia.
Qed.

Lemma binary_normalize_normal (k : Z) :
  (0 < k)%Z ->
  bpow (emin + prec) <= IZR k -> IZR k < bpow (emax - 1) ->
  SFnormal prec (binary_normalize prec emax k 0 false) = true.
Proof.
  intros Hk Hlow Hhigh. destruct k as [|p|p]; [lia| |lia].
  cbn [binary_normalize]. apply binary_round_normal; rewrite bpow_0, Rmult_1_r; assumption.
Qed.


End Forward.

(** ** Ranges *)

Lemma rng_weaken (l h l' h' : Z) (v : R) :
  rng l h v -> (l' <= l)%Z -> (h <= h')%Z -> rng l' h' v.
Proof.
  intros [Hl Hh] Hl' Hh'. apply bpow_le in Hl', Hh'. unfold rng. lra.
Qed.

Lemma rng_pos (l h : Z) (v : R) : rng l h v -> 0 < v.
Proof. intros [Hl _]. pose proof (bpow_gt_0 l). lra. Qed.

Lemma rng_mul (l1 h1 l2 h2 : Z) (x y : R) :
  rng l1 h1 x -> rng l2 h2 y -> rng (l1 + l2) (h1 + h2) (x * y).
Proof.
  intros [Hx1 Hx2] [Hy1 Hy2]. unfold rng. rewrite !bpow_add.
  pose proof (bpow_gt_0 l1). pose proof (bpow_gt_0 l2).
  split; apply Rmult_le_compat; lra.
Qed.

Lemma rng_add (l1 h1 l2 h2 : Z) (x y : R) :
  rng l1 h1 x -> rng l2 h2 y -> rng l1 (Z.max h1 h2 + 1) (x + y).
Proof.
  intros [Hx1 Hx2] [Hy1 Hy2]. unfold rng. rewrite bpow_add, bpow_1.
  pose proof (bpow_gt_0 l2).
  assert (bpow h1 <= bpow (Z.max h1 h2)) by (apply bpow_le; lia).
  assert (bpow h2 <= bpow (Z.max h1 h2)) by (apply bpow_le; lia).
  lra.
Qed.

Lemma rng_div (l1 h1 l2 h2 : Z) (x y : R) :
  rng l1 h1 x -> rng l2 h2 y -> rng (l1 - h2) (h1 - l2) (x / y).
Proof.
  intros Hx [Hy1 Hy2].
  assert (rng (- h2) (- l2) (/ y)) as Hinv.
  { pose proof (bpow_gt_0 l2). pose proof (bpow_gt_0 h2).
    unfold rng. rewrite !bpow_opp.
    split; apply Rinv_le_contravar; lra. }
  pose proof (rng_mul _ _ _ _ _ _ Hx Hinv) as Hmul.
  replace (l1 - h2)%Z with (l1 + - h2)%Z by lia.
  replace (h1 - l2)%Z with (h1 + - l2)%Z by lia. exact Hmul.
Qed.

Lemma rng_IZR (n k : Z) :
  (0 <= n)%Z -> (1 <= k <= 2 ^ n)%Z -> rng 0 n (IZR k).
Proof.
  intros Hn [Hk1 Hk2]. unfold rng. rewrite bpow_0, bpow_IZR by exact Hn.
  split; apply IZR_le; assumption.
Qed.

(** A rounded result is within a factor two of the exact one. *)
Lemma rng_near (l h : Z) (z r : R) :
  rng l h r -> near (1 - u64) z r -> rng (l - 1) (h + 1) z.
Proof.
  intros [Hl Hh] [Hn1 Hn2]. pose proof u64_bounds as Hu. unfold rng.
  replace (l - 1)%Z with (l + -1)%Z by lia.
  rewrite !bpow_add, bpow_1, bpow_m1.
  pose proof (bpow_gt_0 l).
  assert (0 <= z) by nra.
  split; nra.
Qed.

(** ** The operations of binary64 on numbers in range *)

Lemma bounds_of_rng (v : R) :
  rng (-1000) 1000 v ->
  bpow (SpecFloat.emin prec emax + prec + 1) <= v /\ v < bpow (emax - 1).
Proof.
  intros [Hl Hh].
  assert (bpow (SpecFloat.emin prec emax + prec + 1) <= bpow (-1000))
    by (apply bpow_le; vm_compute; discriminate).
  assert (bpow 1000 < bpow 1001).
  { replace 1001%Z with (1000 + 1)%Z by lia. rewrite bpow_add, bpow_1.
    pose proof (bpow_gt_0 1000). lra. }
  assert (bpow 1001 <= bpow (emax - 1))
    by (apply bpow_le; vm_compute; discriminate).
  lra.
Qed.

Lemma bounds_of_rng' (v : R) :
  rng (-1000) 1000 v ->
  bpow (SpecFloat.emin prec emax + prec) <= v /\ v < bpow (emax - 1).
Proof.
  intros Hv. destruct (bounds_of_rng v Hv) as [Hl Hh]. split; [|exact Hh].
  apply Rle_trans with (2 := Hl). apply bpow_le. lia.
Qed.

Lemma mul_normal (x y : float) :
  normal x = true -> normal y = true ->
  rng (-1000) 1000 (value x * value y) -> normal (x * y) = true.
Proof.
  unfold normal, value. rewrite mul_spec. unfold SF64mul.
  intros Hx Hy Hr. apply bounds_of_rng' in Hr as [Hl Hh].
  apply SFmul_normal; [exact prec_pos | assumption..].
Qed.

Lemma add_normal (x y : float) :
  normal x = true -> normal y = true ->
  rng (-1000) 1000 (value x + value y) -> normal (x + y) = true.
Proof.
  unfold normal, value. rewrite add_spec. unfold SF64add.
  intros Hx Hy Hr. apply bounds_of_rng' in Hr as [Hl Hh].
  apply SFadd_normal; [exact prec_pos | assumption..].
Qed.

Lemma div_normal (x y : float) :
  normal x = true -> normal y = true ->
  rng (-1000) 1000 (value x / value y) -> normal (x / y) = true.
Proof.
  unfold normal, value. rewrite div_spec. unfold SF64div.
  intros Hx Hy Hr. apply bounds_of_rng in Hr as [Hl Hh].
  apply SFdiv_normal; [exact prec_pos | assumption..].
Qed.

Lemma of_uint64_normal (k : Z) :
  (0 < k <= 2 ^ 48)%Z -> normal (of_uint64 k) = true.
Proof.
  intros Hk. unfold normal, of_uint64.
  rewrite (proj2 (Z.ltb_lt k (2 ^ 63))) by lia.
  rewrite of_uint63_spec, Uint63.of_Z_spec.
  change Uint63.wB with (2 ^ 63)%Z. rewrite Z.mod_small by lia.
  assert (rng (-1000) 1000 (IZR k)) as Hr.
  { apply rng_weaken with 0%Z 48%Z; [|lia|lia]. apply rng_IZR; lia. }
  apply bounds_of_rng' in Hr as [Hl Hh].
  apply binary_normalize_normal; [exact prec_pos | lia | assumption..].
Qed.

(** ** Zero operands *)

Lemma is_zero_value (x : float) : is_zero x = true -> value x = 0.
Proof.
  unfold is_zero, value. destruct (Prim2SF x); cbn; try discriminate. reflexivity.
Qed.

Lemma is_zero_nonneg (x : float) : is_zero x = true -> nonneg x = true.
Proof.
  unfold is_zero, nonneg. destruct (Prim2SF x); cbn; try discriminate. reflexivity.
Qed.

Lemma mul_zero_l (x y : float) :
  is_zero x = true -> is_zero y = true \/ normal y = true ->
  is_zero (x * y) = true.
Proof.
  unfold is_zero, normal. rewrite mul_spec. unfold SF64mul.
  destruct (Prim2SF x), (Prim2SF y); cbn; intros Hx [Hy|Hy];
    try discriminate; reflexivity.
Qed.

Lemma mul_zero_r (x y : float) :
  is_zero x = true \/ normal x = true -> is_zero y = true ->
  is_zero (x * y) = true.
Proof.
  unfold is_zero, normal. rewrite mul_spec. unfold SF64mul.
  destruct (Prim2SF x), (Prim2SF y); cbn; intros [Hx|Hx] Hy;
    try discriminate; reflexivity.
Qed.

Lemma add_zero_zero (x y : float) :
  is_zero x = true -> is_zero y = true -> is_zero (x + y) = true.
Proof.
  unfold is_zero. rewrite add_spec. unfold SF64add.
  destruct (Prim2SF x) as [[|]| | |], (Prim2SF y) as [[|]| | |]; cbn;
    intros Hx Hy; try discriminate; reflexivity.
Qed.

Lemma add_zero_l (x y : float) :
  is_zero x = true -> normal y = true -> Prim2SF (x + y) = Prim2SF y.
Proof.
  unfold is_zero, normal. rewrite add_spec. unfold SF64add.
  destruct (Prim2SF x), (Prim2SF y); cbn; intros Hx Hy;
    try discriminate; reflexivity.
Qed.

Lemma add_zero_r (x y : float) :
  normal x = true -> is_zero y = true -> Prim2SF (x + y) = Prim2SF x.
Proof.
  unfold is_zero, normal. rewrite add_spec. unfold SF64add.
  destruct (Prim2SF x), (Prim2SF y); cbn; intros Hx Hy;
    try discriminate; reflexivity.
Qed.

Lemma div_zero_l (x y : float) :
  is_zero x = true -> normal y = true -> is_zero (x / y) = true.
Proof.
  unfold is_zero, normal. rewrite div_spec. unfold SF64div.
  destruct (Prim2SF x), (Prim2SF y); cbn; intros Hx Hy;
    try discriminate; reflexivity.
Qed.

Lemma of_uint64_0 : is_zero (of_uint64 0) = true.
Proof. reflexivity. Qed.

(** ** Numbers that are zero or normal and in range *)

Lemma good_nonneg (l h : Z) (x : float) : good l h x -> nonneg x = true.
Proof.
  intros [Hz|[Hn _]]; [apply is_zero_nonneg | apply normal_nonneg]; assumption.
Qed.

Lemma good_cases (l h : Z) (x : float) :
  good l h x -> is_zero x = true \/ normal x = true.
Proof. intros [Hz|[Hn _]]; auto. Qed.

Lemma good_weaken (l h l' h' : Z) (x : float) :
  good l h x -> (l' <= l)%Z -> (h <= h')%Z -> good l' h' x.
Proof.
  intros [Hz|[Hn Hr]] Hl Hh; [left; exact Hz|].
  right. split; [exact Hn|]. apply rng_weaken with l h; assumption.
Qed.

Lemma good_mul (l1 h1 l2 h2 : Z) (x y : float) :
  good l1 h1 x -> good l2 h2 y ->
  (-1000 <= l1 + l2)%Z -> (h1 + h2 <= 1000)%Z ->
  is_zero x || is_zero y || normal (x * y) = true /\
  good (l1 + l2 - 1) (h1 + h2 + 1) (x * y).
Proof.
  intros Hx Hy Hl Hh.
  pose proof (good_nonneg _ _ _ Hx) as Hx0.
  pose proof (good_nonneg _ _ _ Hy) as Hy0.
  pose proof (good_cases _ _ _ Hx) as Hxc.
  pose proof (good_cases _ _ _ Hy) as Hyc.
  destruct Hx as [Hxz|[Hxn Hxr]].
  { rewrite Hxz. split; [reflexivity|]. left. apply mul_zero_l; assumption. }
  destruct Hy as [Hyz|[Hyn Hyr]].
  { rewrite Hyz, orb_true_r. split; [reflexivity|]. left.
    apply mul_zero_r; assumption. }
  pose proof (rng_mul _ _ _ _ _ _ Hxr Hyr) as Hr.
  assert (normal (x * y) = true) as Hn.
  { apply mul_normal; try assumption. apply rng_weaken with (1 := Hr); lia. }
  assert (is_zero x || is_zero y || normal (x * y) = true) as Hok
    by (rewrite Hn; apply orb_true_r).
  split; [exact Hok|]. right. split; [exact Hn|].
  destruct (mul_near _ _ Hx0 Hy0 Hok) as [_ Hnear].
  apply rng_near with (1 := Hr). exact Hnear.
Qed.

Lemma good_add (l1 h1 l2 h2 : Z) (x y : float) :
  good l1 h1 x -> good l2 h2 y ->
  (-1000 <= l1)%Z -> (-1000 <= l2)%Z -> (h1 < 1000)%Z -> (h2 < 1000)%Z ->
  is_zero x || is_zero y || normal (x + y) = true /\
  good (Z.min l1 l2 - 1) (Z.max h1 h2 + 2) (x + y).
Proof.
  intros Hx Hy Hl1 Hl2 Hh1 Hh2.
  pose proof (good_nonneg _ _ _ Hx) as Hx0.
  pose proof (good_nonneg _ _ _ Hy) as Hy0.
  destruct Hx as [Hxz|[Hxn Hxr]], Hy as [Hyz|[Hyn Hyr]].
  - rewrite Hxz. split; [reflexivity|]. left. apply add_zero_zero; assumption.
  - rewrite Hxz. split; [reflexivity|]. right.
    unfold normal, value. rewrite (add_zero_l _ _ Hxz Hyn).
    split; [exact Hyn|]. apply rng_weaken with (1 := Hyr); lia.
  - rewrite Hyz, orb_true_r. split; [reflexivity|]. right.
    unfold normal, value. rewrite (add_zero_r _ _ Hxn Hyz).
    split; [exact Hxn|]. apply rng_weaken with (1 := Hxr); lia.
  - pose proof (rng_add _ _ _ _ _ _ Hxr Hyr) as Hr.
    assert (normal (x + y) = true) as Hn.
    { apply add_normal; try assumption. apply rng_weaken with (1 := Hr); lia. }
    assert (is_zero x || is_zero y || normal (x + y) = true) as Hok
      by (rewrite Hn; apply orb_true_r).
    split; [exact Hok|]. right. split; [exact Hn|].
    destruct (add_near _ _ Hx0 Hy0 Hok) as [_ Hnear].
    apply rng_weaken with (l1 - 1)%Z (Z.max h1 h2 + 1 + 1)%Z; [|lia|lia].
    apply rng_near with (1 := Hr). exact Hnear.
Qed.

Lemma good_div (l1 h1 l2 h2 : Z) (x y : float) :
  good l1 h1 x -> normal y = true -> rng l2 h2 (value y) ->
  (-1000 <= l1 - h2)%Z -> (h1 - l2 <= 1000)%Z ->
  is_zero x || normal (x / y) = true /\
  good (l1 - h2 - 1) (h1 - l2 + 1) (x / y).
Proof.
  intros Hx Hyn Hyr Hl Hh.
  pose proof (good_nonneg _ _ _ Hx) as Hx0.
  destruct Hx as [Hxz|[Hxn Hxr]].
  { rewrite Hxz. split; [reflexivity|]. left. apply div_zero_l; assumption. }
  pose proof (rng_div _ _ _ _ _ _ Hxr Hyr) as Hr.
  assert (normal (x / y) = true) as Hn.
  { apply div_normal; try assumption. apply rng_weaken with (1 := Hr); lia. }
  assert (is_zero x || normal (x / y) = true) as Hok
    by (rewrite Hn; apply orb_true_r).
  split; [exact Hok|]. right. split; [exact Hn|].
  destruct (div_near _ _ Hx0 Hyn Hok) as [_ Hnear].
  apply rng_near with (1 := Hr). exact Hnear.
Qed.

Lemma of_uint64_rng (k : Z) :
  (0 < k <= 2 ^ 48)%Z ->
  normal (of_uint64 k) = true /\ rng (-1) 49 (value (of_uint64 k)).
Proof.
  intros Hk. pose proof (of_uint64_normal k Hk) as Hn. split; [exact Hn|].
  destruct (of_uint64_near k) as [_ Hnear]; [lia | rewrite Hn; apply orb_true_r |].
  apply (rng_near 0 48 _ (IZR k)); [|exact Hnear]. apply rng_IZR; lia.
Qed.

Lemma of_uint64_good (k : Z) :
  (0 <= k <= 2 ^ 48)%Z ->
  (k =? 0)%Z || normal (of_uint64 k) = true /\ good (-1) 49 (of_uint64 k).
Proof.
  intros Hk. destruct (Z.eq_dec k 0) as [->|Hnz].
  - split; [reflexivity|]. left. exact of_uint64_0.
  - destruct (of_uint64_rng k) as [Hn Hr]; [lia|].
    split; [rewrite Hn; apply orb_true_r|]. right. split; assumption.
Qed.

(** One update of a running mean whose operands are in range. *)
Lemma step_ok_of_good (avg : float) (count : Z) (t : float) :
  good (-549) 501 avg -> good (-500) 500 t -> (0 <= count < 2 ^ 48)%Z ->
  step_ok avg count t = true /\
  (is_zero (mean_step avg count t) = true \/ normal (mean_step avg count t) = true).
Proof.
  intros Havg Ht Hcount. unfold step_ok, mean_step. cbv zeta.
  destruct (of_uint64_good count ltac:(lia)) as [Hc1 Hc].
  destruct (good_mul _ _ _ _ _ _ Havg Hc ltac:(lia) ltac:(lia)) as [Hp1 Hp].
  destruct (good_add _ _ _ _ _ _ Hp Ht ltac:(lia) ltac:(lia) ltac:(lia) ltac:(lia))
    as [Hs1 Hs].
  destruct (of_uint64_rng (count + 1) ltac:(lia)) as [Hn Hnr].
  destruct (good_div _ _ _ _ _ _ Hs Hn Hnr ltac:(lia) ltac:(lia)) as [Hq1 Hq].
  rewrite Hc1, Hp1, Hs1, Hn, Hq1. split; [reflexivity|].
  eapply good_cases, Hq.
Qed.

(** ** The range of a running mean *)

Lemma elapsed_good (t : float) :
  elapsed t = true -> good (-500) 500 t /\ nonneg t = true.
Proof.
  unfold elapsed, good, is_zero, normal, nonneg, value.
  destruct (Prim2SF t) as [s|s| |s m e]; cbn [SFelapsed SFis_zero SFnonneg SFnormal];
    try discriminate.
  - intros _. split; [left|]; reflexivity.
  - intros H. apply andb_prop in H as [H He2]. apply andb_prop in H as [H He1].
    apply andb_prop in H as [H Hm2]. apply andb_prop in H as [Hs Hm1].
    destruct s; [discriminate|]. split; [|reflexivity]. right.
    split; [exact Hm1|]. cbn [SF2R].
    apply Z.leb_le in Hm1, He1, He2. apply Z.ltb_lt in Hm2.
    apply (rng_mul 52 53 (-552) 447).
    + unfold rng. rewrite !bpow_IZR by lia. split; apply IZR_le; lia.
    + split; apply bpow_le; assumption.
Qed.

Lemma pow_a64_ge_half (j : nat) :
  (Z.of_nat j <= 2 ^ 48)%Z -> / 2 <= (1 - u64) ^ (5 * j).
Proof.
  intros Hj. pose proof u64_bounds as Hu.
  pose proof (bernoulli u64 (5 * j) ltac:(lra)) as Hb.
  rewrite mult_INR in Hb. replace (INR 5) with 5 in Hb by (simpl; lra).
  assert (INR j <= bpow 48) as HN.
  { rewrite INR_IZR_INZ, bpow_IZR by lia. apply IZR_le. exact Hj. }
  assert (bpow 48 * u64 = / 32) as H32.
  { unfold u64. rewrite <- bpow_add. change (48 + - 53)%Z with (Z.opp 5).
    rewrite bpow_opp, bpow_IZR by lia. reflexivity. }
  assert (INR j * u64 <= / 32).
  { rewrite <- H32. apply Rmult_le_compat_r; lra. }
  lra.
Qed.

Lemma within_range (j : nat) (tot A : R) :
  (0 < j)%nat -> (Z.of_nat j <= 2 ^ 48)%Z ->
  bpow (-500) <= tot -> tot <= INR j * bpow 500 -> 0 <= A ->
  within (1 - u64) j tot A -> rng (-549) 501 A.
Proof.
  intros Hpos Hj Hlow Hhigh HA [Hw1 Hw2].
  pose proof (pow_a64_ge_half j Hj) as Hb.
  pose proof (pow_a_bounds (1 - u64) (proj1 a64_bounds) (proj2 a64_bounds) (5 * j))
    as [_ Hb1].
  set (b := (1 - u64) ^ (5 * j)) in *.
  assert (1 <= INR j) as HN1.
  { replace 1 with (INR 1) by reflexivity. apply le_INR. lia. }
  assert (INR j <= bpow 48) as HN.
  { rewrite INR_IZR_INZ, bpow_IZR by lia. apply IZR_le. exact Hj. }
  pose proof (bpow_gt_0 (-500)) as H500. pose proof (bpow_gt_0 500) as H500'.
  pose proof (bpow_gt_0 (-549)) as H549.
  assert (bpow (-549) * bpow 48 = bpow (-500) / 2) as Hlo.
  { rewrite <- bpow_add. change (-549 + 48)%Z with (-500 + -1)%Z.
    rewrite bpow_add, bpow_m1. reflexivity. }
  assert (bpow 501 = 2 * bpow 500) as Hhi.
  { change 501%Z with (1 + 500)%Z. rewrite bpow_add, bpow_1. reflexivity. }
  unfold rng. split.
  - apply Rmult_le_reg_r with (INR j); [lra|].
    apply Rle_trans with (bpow (-549) * bpow 48).
    + apply Rmult_le_compat_l; lra.
    + rewrite Hlo. apply Rle_trans with (b * tot); [nra | lra].
  - rewrite Hhi.
    assert (b * A <= bpow 500) as HbA.
    { apply Rmult_le_reg_l with (INR j); [lra|].
      replace (INR j * (b * A)) with (b * (INR j * A)) by ring. lra. }
    nra.
Qed.

(** One update keeps a running mean in range. *)
Lemma kept_step (j : nat) (tot : R) (A t : float) :
  kept j tot A -> elapsed t = true -> (Z.of_nat j < 2 ^ 48)%Z ->
  step_ok A (Z.of_nat j) t = true /\
  kept (S j) (tot + value t) (mean_step A (Z.of_nat j) t).
Proof.
  intros (HA & Hwithin & Htot & Hhigh) Ht Hj.
  destruct (elapsed_good t Ht) as [Htg Ht0].
  destruct (step_ok_of_good A (Z.of_nat j) t HA Htg ltac:(lia)) as [Hok Hq].
  split; [exact Hok|].
  pose proof (good_nonneg _ _ _ HA) as HA0.
  destruct (step_within A (Z.of_nat j) t HA0 Ht0 ltac:(lia) ltac:(lia) Hok)
    as (Hq0 & Hlow & Hup).
  cbv zeta in Hq0, Hlow, Hup. rewrite <- INR_IZR_INZ in Hlow, Hup.
  set (q := mean_step A (Z.of_nat j) t) in *.
  pose proof (nonneg_value _ HA0) as HAv. pose proof (nonneg_value _ Ht0) as Htv.
  pose proof (nonneg_value _ Hq0) as Hqv.
  pose proof (bpow_gt_0 (-500)) as H500. pose proof (bpow_gt_0 500) as H500'.
  assert (0 <= tot) as Htot0 by (destruct Htot; lra).
  assert (within (1 - u64) (S j) (tot + value t) (value q)) as Hwithin'.
  { apply (within_step (1 - u64) (proj1 a64_bounds) (proj2 a64_bounds)
             j tot (value A) (value t)); assumption. }
  assert (value t = 0 \/ rng (-500) 500 (value t)) as Htr.
  { destruct Htg as [Hz|[_ Hr]]; [left; apply is_zero_value, Hz | right; exact Hr]. }
  assert (tot + value t = 0 \/ bpow (-500) <= tot + value t) as Htot'.
  { destruct Htot as [->|Hl], Htr as [->|[Hr _]]; [left|right..]; lra. }
  assert (tot + value t <= INR (S j) * bpow 500) as Hhigh'.
  { rewrite S_INR. destruct Htr as [->|[_ Hr]]; lra. }
  split; [|split; [exact Hwithin' | split; [exact Htot' | exact Hhigh']]].
  destruct Htot' as [Hzero|Hlarge].
  - (* only zeros so far: the mean is zero *)
    destruct Hq as [Hqz|Hqn]; [left; exact Hqz|]. exfalso.
    apply normal_pos in Hqn. destruct Hwithin' as [_ Hw2]. rewrite Hzero in Hw2.
    pose proof (pow_a64_ge_half (S j) ltac:(lia)) as Hb.
    assert (0 < INR (S j)) by (apply lt_0_INR; lia).
    assert (0 < INR (S j) * value q) by (apply Rmult_lt_0_compat; assumption).
    nra.
  - pose proof (within_range (S j) _ _ ltac:(lia) ltac:(lia) Hlarge Hhigh' Hqv Hwithin')
      as Hr.
    destruct Hq as [Hqz|Hqn].
    + exfalso. apply is_zero_value in Hqz. apply rng_pos in Hr. lra.
    + right. split; assumption.
Qed.

End Normal.

(** ** The running means of the metrics *)

Section RunningMean.

Import Reals Lra Floats.
Import Binary64 Rounding Normal.
Local Open Scope R_scope.

Local Existing Instance arith.

Implicit Types (m : @Napi.Metrics float) (recs : list (string * float)).

Lemma update_global m (avx : bool) (operation : string) (t : float) :
  (0 <= Napi.total_processed m)%Z ->
  (Napi.total_processed m + 1 < 2 ^ 64)%Z ->
  let m' := Napi.update_metrics m avx operation t in
  Napi.total_processed m' = (Napi.total_processed m + 1)%Z /\
  Napi.average_time m'
  = mean_step (Napi.average_time m) (Napi.total_processed m) t.
Proof.
  intros Hpos Hbound. cbv zeta. unfold Napi.update_metrics.
  cbn [Napi.total_processed Napi.average_time].
  rewrite !(wrap64_small (Napi.total_processed m + 1)) by lia.
  replace (Napi.total_processed m + 1 - 1)%Z with (Napi.total_processed m) by lia.
  rewrite wrap64_small by lia. split; reflexivity.
Qed.

Lemma update_operation m (avx : bool) (operation : string) (t : float) :
  let count := default 0%Z (Napi.operation_count m !! operation) in
  (0 <= count)%Z -> (count + 1 < 2 ^ 64)%Z ->
  let m' := Napi.update_metrics m avx operation t in
  Napi.operation_count m' !! operation = Some (count + 1)%Z /\
  Napi.operation_avg_time m' !! operation
  = Some (mean_step (default 0%float (Napi.operation_avg_time m !! operation))
            count t).
Proof.
  intros count Hpos Hbound. cbv zeta. unfold Napi.update_metrics.
  cbn [Napi.operation_count Napi.operation_avg_time].
  rewrite !lookup_insert_eq. cbn [from_option Datatypes.id]. fold count.
  rewrite !(wrap64_small (count + 1)) by lia.
  replace (count + 1 - 1)%Z with count by lia.
  rewrite wrap64_small by lia. split; reflexivity.
Qed.

Lemma update_other m (avx : bool) (operation other : string) (t : float) :
  other <> operation ->
  let m' := Napi.update_metrics m avx operation t in
  Napi.operation_count m' !! other = Napi.operation_count m !! other /\
  Napi.operation_avg_time m' !! other = Napi.operation_avg_time m !! other.
Proof.
  intros Hne. cbv zeta. unfold Napi.update_metrics.
  cbn [Napi.operation_count Napi.operation_avg_time].
  rewrite !lookup_insert_ne by congruence. split; reflexivity.
Qed.

(** The global mean through a run. *)
Lemma run_global (avx : bool) recs :
  forall m (j : nat) (tot : R),
    Napi.total_processed m = Z.of_nat j ->
    (Z.of_nat j + Z.of_nat (length recs) < 2 ^ 63)%Z ->
    nonneg (Napi.average_time m) = true ->
    0 <= tot ->
    within (1 - u64) j tot (value (Napi.average_time m)) ->
    run_ok avx m recs = true ->
    let m' := record_all avx m recs in
    Napi.total_processed m' = Z.of_nat (j + length recs) /\
    nonneg (Napi.average_time m') = true /\
    0 <= tot + Rsum (map value (map snd recs)) /\
    within (1 - u64) (j + length recs)
      (tot + Rsum (map value (map snd recs))) (value (Napi.average_time m')).
Proof.
  induction recs as [|[operation t] recs IH];
    intros m j tot Hcount Hbound Havg Htot Hwithin Hok; cbv zeta.
  - cbn [record_all foldl length map Rsum foldr].
    rewrite Nat.add_0_r, Rplus_0_r. auto.
  - cbn [run_ok fst snd] in Hok. apply andb_prop in Hok as [Hupd Hok].
    unfold update_ok in Hupd.
    apply andb_prop in Hupd as [Hupd _]. apply andb_prop in Hupd as [Ht Hstep].
    cbn [length] in Hbound.
    assert (0 <= Z.of_nat j /\ Z.of_nat j + 1 < 2 ^ 63
            /\ Z.of_nat j + 1 < 2 ^ 64
            /\ Z.of_nat (S j) + Z.of_nat (length recs) < 2 ^ 63)%Z
      as (Hj0 & Hj1 & Hj2 & Hj3) by (clear - Hbound; lia).
    destruct (update_global m avx operation t) as [Hcount' Havg'];
      [rewrite Hcount; exact Hj0 | rewrite Hcount; exact Hj2 |].
    rewrite Hcount in Hstep, Havg'.
    destruct (step_within _ _ _ Havg Ht Hj0 Hj1 Hstep) as (Hq & Hlow & Hup).
    rewrite <- INR_IZR_INZ in Hlow, Hup.
    cbn [record_all foldl fst snd].
    specialize (IH (Napi.update_metrics m avx operation t) (S j)
                  (tot + value t)).
    cbv zeta in IH. unfold record_all in IH.
    pose proof (nonneg_value _ Ht) as Ht'.
    destruct IH as (Hc & Hn & Hs & Hw).
    + rewrite Hcount', Hcount. clear. lia.
    + exact Hj3.
    + rewrite Havg'. exact Hq.
    + lra.
    + rewrite Havg'.
      apply (within_step (1 - u64) (proj1 a64_bounds) (proj2 a64_bounds)
               j tot (value (Napi.average_time m)) (value t));
        try assumption.
      * apply nonneg_value, Havg.
      * apply nonneg_value, Hq.
    + exact Hok.
    + cbn [length map snd].
      replace (j + S (length recs))%nat with (S j + length recs)%nat by lia.
      replace (tot + Rsum (value t :: map value (map snd recs)))
        with (tot + value t + Rsum (map value (map snd recs)))
        by (unfold Rsum; cbn [foldr]; ring).
      auto.
Qed.

Lemma times_of_cons (operation operation' : string) (t : float) recs :
  times_of operation ((operation', t) :: recs)
  = if decide (operation' = operation) then t :: times_of operation recs
    else times_of operation recs.
Proof.
  unfold times_of. rewrite filter_cons. cbn [fst].
  destruct (decide (operation' = operation)); reflexivity.
Qed.

(** The mean of one operation through a run. *)
Lemma run_operation (avx : bool) (operation : string) recs :
  forall m (j : nat) (tot : R),
    default 0%Z (Napi.operation_count m !! operation) = Z.of_nat j ->
    (Z.of_nat j + Z.of_nat (length recs) < 2 ^ 63)%Z ->
    nonneg (default 0%float (Napi.operation_avg_time m !! operation)) = true ->
    0 <= tot ->
    within (1 - u64) j tot
      (value (default 0%float (Napi.operation_avg_time m !! operation))) ->
    run_ok avx m recs = true ->
    let m' := record_all avx m recs in
    let ts := times_of operation recs in
    nonneg (default 0%float (Napi.operation_avg_time m' !! operation)) = true /\
    0 <= tot + Rsum (map value ts) /\
    within (1 - u64) (j + length ts) (tot + Rsum (map value ts))
      (value (default 0%float (Napi.operation_avg_time m' !! operation))).
Proof.
  induction recs as [|[operation' t] recs IH];
    intros m j tot Hcount Hbound Havg Htot Hwithin Hok; cbv zeta.
  - cbn [record_all foldl times_of filter map length Rsum foldr].
    rewrite Nat.add_0_r, Rplus_0_r. auto.
  - cbn [run_ok fst snd] in Hok. apply andb_prop in Hok as [Hupd Hok].
    unfold update_ok in Hupd.
    apply andb_prop in Hupd as [Hupd Hstep]. apply andb_prop in Hupd as [Ht _].
    cbn [length] in Hbound.
    assert (0 <= Z.of_nat j /\ Z.of_nat j + 1 < 2 ^ 63
            /\ Z.of_nat j + 1 < 2 ^ 64
            /\ Z.of_nat (S j) + Z.of_nat (length recs) < 2 ^ 63
            /\ Z.of_nat j + Z.of_nat (length recs) < 2 ^ 63)%Z
      as (Hj0 & Hj1 & Hj2 & Hj3 & Hj4) by (clear - Hbound; lia).
    cbn [record_all foldl fst snd]. rewrite times_of_cons.
    pose proof (nonneg_value _ Ht) as Ht'.
    destruct (decide (operation' = operation)) as [->|Hne].
    + pose proof (update_operation m avx operation t) as Hupdate.
      cbv zeta in Hupdate. rewrite Hcount in Hupdate, Hstep.
      destruct (Hupdate Hj0 Hj2) as [Hcount' Havg'].
      destruct (step_within _ _ _ Havg Ht Hj0 Hj1 Hstep) as (Hq & Hlow & Hup).
      rewrite <- INR_IZR_INZ in Hlow, Hup.
      specialize (IH (Napi.update_metrics m avx operation t) (S j)
                    (tot + value t)).
      cbv zeta in IH. unfold record_all in IH.
      rewrite Hcount', Havg' in IH. cbn [from_option Datatypes.id] in IH.
      destruct IH as (Hn & Hs & Hw).
      * unfold Datatypes.id. clear. lia.
      * exact Hj3.
      * exact Hq.
      * lra.
      * apply (within_step (1 - u64) (proj1 a64_bounds) (proj2 a64_bounds)
                 j tot
                 (value (default 0%float
                           (Napi.operation_avg_time m !! operation)))
                 (value t)); try assumption.
        -- apply nonneg_value, Havg.
        -- apply nonneg_value, Hq.
      * exact Hok.
      * cbn [length map].
        replace (j + S (length (times_of operation recs)))%nat
          with (S j + length (times_of operation recs))%nat by lia.
        replace (tot + Rsum (value t :: map value (times_of operation recs)))
          with (tot + value t + Rsum (map value (times_of operation recs)))
          by (unfold Rsum; cbn [foldr]; ring).
        auto.
    + destruct (update_other m avx operation' operation t ltac:(congruence))
        as [Hcount' Havg'].
      specialize (IH (Napi.update_metrics m avx operation' t) j tot).
      cbv zeta in IH. unfold record_all in IH.
      rewrite Hcount', Havg' in IH.
      apply IH; assumption.
Qed.

(** The service applies the same update to its one average. *)
Lemma service_average_same (avx : bool) recs :
  forall (ms : @Service.ServiceMetrics float) m,
    Service.total_processed ms = Napi.total_processed m ->
    Service.average_processing_time ms = Napi.average_time m ->
    Service.average_processing_time (service_record_all ms recs)
    = Napi.average_time (record_all avx m recs).
Proof.
  induction recs as [|[operation t] recs IH]; intros ms m Htotal Havg.
  - exact Havg.
  - cbn [service_record_all record_all foldl fst snd].
    apply IH.
    + unfold Service.update_metrics, Napi.update_metrics.
      cbn [Service.total_processed Napi.total_processed]. rewrite Htotal.
      reflexivity.
    + unfold Service.update_metrics, Napi.update_metrics.
      cbn [Service.average_processing_time Napi.average_time].
      rewrite Htotal, Havg. reflexivity.
Qed.

Lemma tolerance_of_within (ts : list float) (A : R) :
  ts <> [] ->
  (30 * Z.of_nat (length ts) <= 2 ^ 53)%Z ->
  0 <= Rsum (map value ts) -> 0 <= A ->
  within (1 - u64) (length ts) (Rsum (map value ts)) A ->
  Rabs (A - mean ts) <= 6 * INR (length ts) * u64 * mean ts.
Proof.
  intros Hne Hlen Hsum HA Hwithin. unfold mean.
  pose proof u64_bounds as Hu.
  apply within_tolerance; try assumption; try lra.
  - destruct ts; [contradiction | cbn [length]; lia].
  - apply IZR_le in Hlen. rewrite mult_IZR, <- INR_IZR_INZ in Hlen.
    assert (IZR (2 ^ 53) * u64 = 1) as Hone.
    { unfold u64. rewrite <- (bpow_IZR 53) by lia. apply bpow_cancel. }
    rewrite <- Hone. apply Rmult_le_compat_r; lra.
Qed.

(** The means of a run that was checked: when no operation of the updates
    overflows, underflows or yields a NaN ([run_ok]) and there are at most
    2^53 / 30 completions, the averages are the means within the relative
    tolerance [6 * N * 2^-53]. *)
Lemma running_means_of_run (avx : bool) recs :
  (30 * Z.of_nat (length recs) <= 2 ^ 53)%Z ->
  run_ok avx Napi.metrics_init recs = true ->
  let m := record_all avx Napi.metrics_init recs in
  let tolerance (ts : list float) := 6 * INR (length ts) * u64 * mean ts in
  (recs <> [] ->
   Rabs (value (Napi.average_time m) - mean (map snd recs))
   <= tolerance (map snd recs)) /\
  (forall operation,
     times_of operation recs <> [] ->
     Rabs (value (default 0%float (Napi.operation_avg_time m !! operation))
           - mean (times_of operation recs))
     <= tolerance (times_of operation recs)) /\
  Service.average_processing_time
    (service_record_all Service.metrics_init recs)
  = Napi.average_time m.
Proof.
  intros Hlen Hok. cbv zeta.
  assert (Z.of_nat 0 + Z.of_nat (length recs) < 2 ^ 63)%Z as Hbound
    by (clear - Hlen; lia).
  split; [|split].
  - intros Hne.
    assert (nonneg (Napi.average_time (Napi.metrics_init (double := float)))
            = true) as Hzero by reflexivity.
    destruct (run_global avx recs Napi.metrics_init 0%nat 0 eq_refl Hbound
                Hzero (Rle_refl 0) (within_0 _ _) Hok)
      as (_ & Hnonneg & Hsum & Hwithin).
    cbn [Nat.add] in Hwithin. rewrite Rplus_0_l in Hsum, Hwithin.
    rewrite <- (length_map snd recs) in Hwithin.
    apply tolerance_of_within; try assumption.
    + intros Hnil. apply Hne. destruct recs; [reflexivity | discriminate Hnil].
    + rewrite length_map. exact Hlen.
    + apply nonneg_value, Hnonneg.
  - intros operation Hne.
    assert (default 0%Z (Napi.operation_count
                           (Napi.metrics_init (double := float)) !! operation)
            = Z.of_nat 0) as Hcount.
    { cbn [Napi.metrics_init Napi.operation_count]. rewrite lookup_empty.
      reflexivity. }
    assert (nonneg (default 0%float
                      (Napi.operation_avg_time
                         (Napi.metrics_init (double := float)) !! operation))
            = true) as Hzero.
    { cbn [Napi.metrics_init Napi.operation_avg_time]. rewrite lookup_empty.
      reflexivity. }
    destruct (run_operation avx operation recs Napi.metrics_init 0%nat 0
                Hcount Hbound Hzero (Rle_refl 0) (within_0 _ _) Hok)
      as (Hnonneg & Hsum & Hwithin).
    cbn [Nat.add] in Hwithin. rewrite Rplus_0_l in Hsum, Hwithin.
    apply tolerance_of_within; try assumption.
    + assert (length (times_of operation recs) <= length recs)%nat as Hle.
      { unfold times_of. rewrite length_map. apply length_filter. }
      clear - Hlen Hle. lia.
    + apply nonneg_value, Hnonneg.
  - apply service_average_same; reflexivity.
Qed.

Lemma kept_0 : kept 0 0 0%float.
Proof.
  split; [left; reflexivity|]. split; [apply within_0|].
  split; [left; reflexivity|]. cbn [INR]. lra.
Qed.

Lemma kept_all_init : kept_all Napi.metrics_init 0.
Proof.
  split; [reflexivity|]. split; [exists 0; exact kept_0|].
  intros operation. exists 0%nat, 0.
  cbn [Napi.metrics_init Napi.operation_count Napi.operation_avg_time].
  rewrite !lookup_empty. split; [lia|]. split; [reflexivity | exact kept_0].
Qed.

Lemma kept_all_step m (j : nat) (avx : bool) (operation : string) (t : float) :
  kept_all m j -> elapsed t = true -> (Z.of_nat j < 2 ^ 48)%Z ->
  update_ok m operation t = true /\
  kept_all (Napi.update_metrics m avx operation t) (S j).
Proof.
  intros (Hcount & [tot Hglobal] & Hops) Ht Hj.
  destruct (Hops operation) as (jo & toto & Hjo & Hcounto & Hkepto).
  destruct (kept_step _ _ _ _ Hglobal Ht Hj) as [Hok Hglobal'].
  destruct (kept_step _ _ _ _ Hkepto Ht ltac:(lia)) as [Hoko Hkepto'].
  destruct (update_global m avx operation t) as [Hcount' Havg'];
    [rewrite Hcount; lia | rewrite Hcount; lia |].
  pose proof (update_operation m avx operation t) as Hupd. cbv zeta in Hupd.
  rewrite Hcounto in Hupd. destruct Hupd as [Hcounto' Havgo']; [lia | lia |].
  split.
  - unfold update_ok. rewrite Hcount, Hcounto, Hok, Hoko.
    rewrite (proj2 (elapsed_good t Ht)). reflexivity.
  - split; [rewrite Hcount', Hcount; lia|].
    split; [exists (tot + value t); rewrite Havg', Hcount; exact Hglobal'|].
    intros other. destruct (decide (other = operation)) as [->|Hne].
    + exists (S jo), (toto + value t). split; [lia|].
      rewrite Hcounto', Havgo'. cbn [default from_option Datatypes.id].
      split; [lia | exact Hkepto'].
    + destruct (update_other m avx operation other t Hne) as [Hc Ha].
      rewrite Hc, Ha.
      destruct (Hops other) as (jo' & toto' & Hjo' & Hcounto'' & Hkepto'').
      exists jo', toto'. split; [lia|]. split; assumption.
Qed.

(** Elapsed times in range make the whole run one without overflow or
    underflow. *)
Lemma run_ok_of_elapsed (avx : bool) recs :
  forall m (j : nat),
    kept_all m j ->
    forallb elapsed (map snd recs) = true ->
    (Z.of_nat j + Z.of_nat (length recs) <= 2 ^ 48)%Z ->
    run_ok avx m recs = true.
Proof.
  induction recs as [|[operation t] recs IH]; intros m j Hkept Hts Hlen.
  - reflexivity.
  - cbn [map snd forallb] in Hts. apply andb_prop in Hts as [Ht Hts].
    cbn [length] in Hlen.
    destruct (kept_all_step m j avx operation t Hkept Ht ltac:(lia))
      as [Hok Hkept'].
    cbn [run_ok fst snd]. rewrite Hok. cbn [andb].
    apply (IH _ (S j)); [exact Hkept' | exact Hts | lia].
Qed.

(** C4: the completions recorded one after the other from the initial
    metrics, in IEEE 754 binary64 arithmetic, with elapsed times that are
    zero or positive normal [double]s from [2^-500] to below [2^500]
    ([elapsed]), at most [2^48] of them.  The global average of the addon is
    the mean of the recorded times within the relative tolerance
    [6 * N * 2^-53], [N] the number of times; the average of every recorded
    operation is the mean of the times recorded for it within
    [6 * n * 2^-53], [n] their number; and the one average of the service,
    which keeps none per operation, is the [double] the addon holds as its
    global average. *)
Theorem running_mean_within_tolerance (avx : bool) recs :
  (Z.of_nat (length recs) <= 2 ^ 48)%Z ->
  forallb elapsed (map snd recs) = true ->
  let m := record_all avx Napi.metrics_init recs in
  let tolerance (ts : list float) := 6 * INR (length ts) * u64 * mean ts in
  (recs <> [] ->
   Rabs (value (Napi.average_time m) - mean (map snd recs))
   <= tolerance (map snd recs)) /\
  (forall operation,
     times_of operation recs <> [] ->
     Rabs (value (default 0%float (Napi.operation_avg_time m !! operation))
           - mean (times_of operation recs))
     <= tolerance (times_of operation recs)) /\
  Service.average_processing_time
    (service_record_all Service.metrics_init recs)
  = Napi.average_time m.
Proof.
  intros Hlen Hts.
  apply running_means_of_run; [lia|].
  apply (run_ok_of_elapsed avx recs _ 0%nat kept_all_init Hts). lia.
Qed.

Lemma running_mean_within_tolerance_witness :
  Rabs (value (Napi.average_time
                 (record_all false Napi.metrics_init
                    [("invert"%string, 10.5%float);
                     ("grayscale"%string, 0.125%float);
                     ("invert"%string, 20.25%float);
                     ("grayscale"%string, 0.375%float);
                     ("invert"%string, 0.3125%float)]))
        - mean (map snd [("invert"%string, 10.5%float);
                         ("grayscale"%string, 0.125%float);
                         ("invert"%string, 20.25%float);
                         ("grayscale"%string, 0.375%float);
                         ("invert"%string, 0.3125%float)]))
  <= 6 * INR (length (map snd [("invert"%string, 10.5%float);
                               ("grayscale"%string, 0.125%float);
                               ("invert"%string, 20.25%float);
                               ("grayscale"%string, 0.375%float);
                               ("invert"%string, 0.3125%float)]))
     * u64
     * mean (map snd [("invert"%string, 10.5%float);
                      ("grayscale"%string, 0.125%float);
                      ("invert"%string, 20.25%float);
                      ("grayscale"%string, 0.375%float);
                      ("invert"%string, 0.3125%float)]).
Proof.
  pose proof (running_mean_within_tolerance false
                [("invert"%string, 10.5%float);
                 ("grayscale"%string, 0.125%float);
                 ("invert"%string, 20.25%float);
                 ("grayscale"%string, 0.375%float);
                 ("invert"%string, 0.3125%float)]) as Hrun.
  cbv zeta in Hrun. destruct Hrun as [Hglobal _].
  - cbn [length]. lia.
  - vm_compute. reflexivity.
  - apply Hglobal. discriminate.
Defined.

(** Scenario 4 of the specification in binary64: three requests of the same
    operation that took 10, 20 and 30 ms leave the count 3 and both averages
    at exactly 20. *)
Example scenario_three_requests_binary64 :
  let m := record_all false Napi.metrics_init
             [("invert"%string, 10%float); ("invert"%string, 20%float);
              ("invert"%string, 30%float)] in
  Napi.operation_count m !! "invert"%string = Some 3%Z /\
  Napi.average_time m = 20%float /\
  Napi.operation_avg_time m !! "invert"%string = Some 20%float /\
  Service.average_processing_time
    (service_record_all Service.metrics_init
       [("invert"%string, 10%float); ("invert"%string, 20%float);
        ("invert"%string, 30%float)])
  = 20%float.
Proof. vm_compute. repeat split; reflexivity. Qed.

End RunningMean.
